(** * sywu: signals, slots, connections and trackers

    A shallow embedding of the signal/slot core of the repository:

    - [include/sywu/wrap/vector.hpp]: the vector helpers;
    - [include/sywu/connection.hpp]: [Slot], [Connection], [Trackable];
    - [include/sywu/concept/signal_concept_impl.hpp]: the slot variants,
      [ConnectionSwapper], and the [SignalConcept] members (destructor,
      emission, [addSlot], [connect], [disconnect]);
    - [include/comp/concept/core/signal.hpp]: the core [Slot] fields and
      [Signal::Connection].

    Objects live in a store ([World]) and are named by identifiers: a
    [shared_ptr] is an optional identifier ([None] is the null pointer), a
    [weak_ptr] is an optional identifier that is resolved against the
    store.  Calls that the claims speak about leave an [Event] in a ghost
    trace kept in the store.  User callables are lists of [Action]s. *)

From stdpp Require Import gmap list.
From Stdlib Require Import ZArith Lia.

Open Scope Z_scope.

(** ** Identifiers and basic data *)

Abbreviation SlotId := nat (only parsing).
Abbreviation SigId := nat (only parsing).
Abbreviation TrackableId := nat (only parsing).
Abbreviation ObjId := nat (only parsing).

(** The argument pack a signal is emitted with. *)
Abbreviation Args := (list Z) (only parsing).

(** [SlotPtr = std::shared_ptr<Slot>], [SlotWeakPtr = std::weak_ptr<Slot>]. *)
Abbreviation SlotPtr := (option SlotId) (only parsing).
Abbreviation SlotWeakPtr := (option SlotId) (only parsing).

(** The exceptions the emission distinguishes, and everything else. *)
Inductive exn := bad_slot | bad_weak_ptr | other_error.

(** Ways of leaving the defined behaviour of the program. *)
Inductive fault := AssertFailed | NullDeref | Dangling.

#[global] Instance exn_eq_dec : EqDecision exn.
Proof. solve_decision. Defined.

(** Modelled from the spec: the [Tracker] struct ([retain], [release],
    [detach] entries) is only forward-declared in connection.hpp.  The spec
    names three lifetime sources: a shared-ownership pointer, a
    weak-ownership pointer, and a [Trackable] object. *)
Inductive Tracker :=
| SharedPtrTracker (o : ObjId)
| WeakPtrTracker (o : ObjId)
| TrackableTracker (t : TrackableId).

#[global] Instance Tracker_eq_dec : EqDecision Tracker.
Proof. solve_decision. Defined.

(** [comp::core::Signal::Connection]: a weak reference to a slot.  It is
    also the shape of the [Connection] that signal_concept_impl.hpp builds
    with [Connection(slot)] and reads with [connection.get()]. *)
Record Connection := mkConnection { m_slot : SlotWeakPtr }.

#[global] Instance Connection_eq_dec : EqDecision Connection.
Proof. solve_decision. Defined.

(** What a user callable does when it runs.  [args] are the arguments of
    the activation it runs in. *)
#[warnings="-register-all"] Inductive Action :=
| AAdd (i : nat)                              (* counter += args[i] *)
| AConnect (s : SigId) (f : list Action)      (* s.connect(f) *)
| ADisconnect (c : Connection)                (* c.disconnect() *)
| ADisconnectActive                           (* ActiveConnection::connection.disconnect() *)
| ASignalDisconnect (s : SigId) (c : Connection)  (* s.disconnect(c) *)
| AEmit (s : SigId) (a : Args)                (* s(a...) *)
| ADestroyObject (o : ObjId)                  (* the last shared_ptr to o goes away *)
| AThrow (e : exn).                           (* throw e *)

(** The three slot variants of signal_concept_impl.hpp with their members. *)
Inductive SlotKind :=
| FunctionSlot (m_function : list Action)
| MethodSlot (m_target : ObjId) (m_function : list Action)
| SignalSlot (m_receiver : SigId).

(** [Slot]: [m_trackers] and [m_isEnabled] of connection.hpp,
    [m_isConnected] of core/signal.hpp. *)
Record Slot := mkSlot {
  m_kind : SlotKind;
  m_trackers : list Tracker;
  m_isEnabled : bool;
  m_isConnected : bool }.

(** [SignalConcept]: the slot container, the blocked flag read by
    [isBlocked()] and the emission guard. *)
Record Signal := mkSignal {
  m_slots : list SlotPtr;
  m_blocked : bool;
  m_emitGuard : bool }.

(** [Trackable]: [m_slots] (here [tk_slots]) and [m_refCount]. *)
Record Trackable := mkTrackable {
  tk_slots : list SlotPtr;
  m_refCount : Z }.

Inductive LockId := LSignal (s : SigId) | LSlot (x : SlotId).

(** The ghost trace. *)
Inductive Event :=
| EvLock (l : LockId)
| EvUnlock (l : LockId)
| EvRetain (tr : Tracker) (ok : bool)
| EvRelease (tr : Tracker)
| EvDetach (tr : Tracker) (x : SlotId)
| EvDisconnectOverride (x : SlotId)
| EvActivate (s : SigId) (x : SlotId) (a : Args)
| EvInvoke (x : SlotId) (a : Args)
| EvEmitted (s : SigId) (a : Args) (count : nat).

Record World := mkWorld {
  slots : gmap SlotId Slot;
  signals : gmap SigId Signal;
  trackables : gmap TrackableId Trackable;
  alive : gset ObjId;
  counter : Z;
  activeConnection : Connection;
  log : list Event }.

(** The outcome of a call: a value, an exception in flight, a fault, or
    the evaluation budget of the model used up. *)
Inductive Result (A : Type) :=
| Ok (a : A) (w : World)
| Throw (e : exn) (w : World)
| Fault (f : fault)
| OutOfFuel.
Arguments Ok {A} a w.
Arguments Throw {A} e w.
Arguments Fault {A} f.
Arguments OutOfFuel {A}.

Definition bind {A B} (m : Result A) (k : A → World → Result B) : Result B :=
  match m with
  | Ok a w => k a w
  | Throw e w => Throw e w
  | Fault f => Fault f
  | OutOfFuel => OutOfFuel
  end.

(** ** Store updates *)

Definition set_slots (f : gmap SlotId Slot → gmap SlotId Slot) (w : World) : World :=
  mkWorld (f (slots w)) (signals w) (trackables w) (alive w) (counter w)
          (activeConnection w) (log w).
Definition set_signals (f : gmap SigId Signal → gmap SigId Signal) (w : World) : World :=
  mkWorld (slots w) (f (signals w)) (trackables w) (alive w) (counter w)
          (activeConnection w) (log w).
Definition set_trackables (f : gmap TrackableId Trackable → gmap TrackableId Trackable)
    (w : World) : World :=
  mkWorld (slots w) (signals w) (f (trackables w)) (alive w) (counter w)
          (activeConnection w) (log w).
Definition set_alive (f : gset ObjId → gset ObjId) (w : World) : World :=
  mkWorld (slots w) (signals w) (trackables w) (f (alive w)) (counter w)
          (activeConnection w) (log w).
Definition set_counter (f : Z → Z) (w : World) : World :=
  mkWorld (slots w) (signals w) (trackables w) (alive w) (f (counter w))
          (activeConnection w) (log w).
Definition set_active (c : Connection) (w : World) : World :=
  mkWorld (slots w) (signals w) (trackables w) (alive w) (counter w) c (log w).
Definition record (e : Event) (w : World) : World :=
  mkWorld (slots w) (signals w) (trackables w) (alive w) (counter w)
          (activeConnection w) (log w ++ [e]).

Definition set_m_slots (l : list SlotPtr) (sg : Signal) : Signal :=
  mkSignal l (m_blocked sg) (m_emitGuard sg).
Definition set_emitGuard (b : bool) (sg : Signal) : Signal :=
  mkSignal (m_slots sg) (m_blocked sg) b.
Definition set_tk_slots (l : list SlotPtr) (t : Trackable) : Trackable :=
  mkTrackable l (m_refCount t).
Definition set_refCount (z : Z) (t : Trackable) : Trackable :=
  mkTrackable (tk_slots t) z.
Definition set_trackers (l : list Tracker) (sl : Slot) : Slot :=
  mkSlot (m_kind sl) l (m_isEnabled sl) (m_isConnected sl).
Definition set_isConnected (b : bool) (sl : Slot) : Slot :=
  mkSlot (m_kind sl) (m_trackers sl) (m_isEnabled sl) b.

(** ** wrap/vector.hpp *)

Section vector.
Context {A : Type}.

(** [for_each(vector, f)] with a function that updates a state. *)
Definition for_each {St : Type} (f : A → St → St) (v : list A) (s : St) : St :=
  fold_left (fun acc a => f a acc) v s.

(** [find_if(vector, predicate)] with a predicate that updates a state:
    the position of the first element satisfying it ([None] is
    [vector.end()]) and the state after the calls made. *)
Fixpoint find_if {St : Type} (p : A → St → bool * St) (v : list A) (s : St)
    : option nat * St :=
  match v with
  | [] => (None, s)
  | a :: v' =>
      let '(b, s') := p a s in
      if b then (Some 0%nat, s')
      else let '(r, s'') := find_if p v' s' in (S <$> r, s'')
  end.

(** [erase(vector, value)]: every occurrence goes. *)
Fixpoint erase `{EqDecision A} (v : list A) (value : A) : list A :=
  match v with
  | [] => []
  | a :: v' => if decide (a = value) then erase v' value else a :: erase v' value
  end.

(** [erase_first(vector, value)]: the first occurrence goes. *)
Fixpoint erase_first `{EqDecision A} (v : list A) (value : A) : list A :=
  match v with
  | [] => []
  | a :: v' => if decide (a = value) then v' else a :: erase_first v' value
  end.

(** [erase_if(vector, predicate)]. *)
Fixpoint erase_if (v : list A) (p : A → bool) : list A :=
  match v with
  | [] => []
  | a :: v' => if p a then erase_if v' p else a :: erase_if v' p
  end.
End vector.

(** ** connection.hpp: Trackable *)

(** [std::atomic<int>] arithmetic wraps around. *)
Definition wrap_int (z : Z) : Z := (z + 2 ^ 31) mod 2 ^ 32 - 2 ^ 31.

(** [Trackable::retain]: [++m_refCount; return m_refCount.load() > 0;] *)
Definition Trackable_retain (t : Trackable) : bool * Trackable :=
  let t' := set_refCount (wrap_int (m_refCount t + 1)) t in
  (0 <? m_refCount t', t').

(** [Trackable::release]: [--m_refCount; return (m_refCount <= 0);] *)
Definition Trackable_release (t : Trackable) : bool * Trackable :=
  let t' := set_refCount (wrap_int (m_refCount t - 1)) t in
  (m_refCount t' <=? 0, t').

(** [Trackable::attach]: [m_slots.push_back(slot);] *)
Definition Trackable_attach (slot : SlotPtr) (t : Trackable) : Trackable :=
  set_tk_slots (tk_slots t ++ [slot]) t.

(** [Trackable::detach]: [utils::erase_first(m_slots, slot);] *)
Definition Trackable_detach (slot : SlotPtr) (t : Trackable) : Trackable :=
  set_tk_slots (erase_first (tk_slots t) slot) t.

(** ** Trackers *)

(** Modelled from the spec: the [retain] entry of a tracker.  A pointer
    tracker is valid while the referenced object is alive; a [Trackable]
    tracker increments the intrusive count ([Trackable::retain]).  A
    tracker whose [Trackable] is gone answers [false]. *)
Definition tracker_retain (tr : Tracker) (w : World) : bool * World :=
  match tr with
  | SharedPtrTracker o | WeakPtrTracker o => (bool_decide (o ∈ alive w), w)
  | TrackableTracker t =>
      match trackables w !! t with
      | Some tk =>
          let '(ok, tk') := Trackable_retain tk in
          (ok, set_trackables (insert t tk') w)
      | None => (false, w)
      end
  end.

(** Modelled from the spec: the [release] entry of a tracker; for a
    [Trackable] it decrements the intrusive count ([Trackable::release]). *)
Definition tracker_release (tr : Tracker) (w : World) : World :=
  match tr with
  | SharedPtrTracker _ | WeakPtrTracker _ => w
  | TrackableTracker t =>
      match trackables w !! t with
      | Some tk => set_trackables (insert t (Trackable_release tk).2) w
      | None => w
      end
  end.

(** Modelled from the spec: the [detach] entry of a tracker; a
    [Trackable] is told to remove the slot from its list
    ([Trackable::detach]). *)
Definition tracker_detach (tr : Tracker) (x : SlotId) (w : World) : World :=
  match tr with
  | SharedPtrTracker _ | WeakPtrTracker _ => w
  | TrackableTracker t => set_trackables (alter (Trackable_detach (Some x)) t) w
  end.

(** Modelled from the spec: [TrackerInterface::isValid] of
    core/signal.hpp (pure virtual there): a tracker is valid when it tracks
    a valid object. *)
Definition tracker_isValid (w : World) (tr : Tracker) : bool :=
  match tr with
  | SharedPtrTracker o | WeakPtrTracker o => bool_decide (o ∈ alive w)
  | TrackableTracker t => bool_decide (is_Some (trackables w !! t))
  end.

(** ** connection.hpp: Slot *)

(** [Slot::isEnabled] and [Slot::setEnabled]. *)
Definition Slot_isEnabled (sl : Slot) : bool := m_isEnabled sl.
Definition Slot_setEnabled (enable : bool) (sl : Slot) : Slot :=
  mkSlot (m_kind sl) (m_trackers sl) enable (m_isConnected sl).

(** Modelled from the spec: [isValidOverride] is pure virtual in
    connection.hpp and no override is part of the sources; the slot-specific
    validity is the connected state. *)
Definition isValidOverride (sl : Slot) : bool := m_isConnected sl.

(** Modelled from the spec: [disconnectOverride] is pure virtual in
    connection.hpp (empty by default in core/signal.hpp); the spec has the
    slot marked disconnected by [disconnect()]. *)
Definition disconnectOverride (x : SlotId) (w : World) : World :=
  set_slots (alter (set_isConnected false) x) (record (EvDisconnectOverride x) w).

(** The two lambdas of [Slot::isValid]. *)
Definition retain_fails (tr : Tracker) (w : World) : bool * World :=
  let '(ok, w') := tracker_retain tr w in (negb ok, record (EvRetain tr ok) w').
Definition release (tr : Tracker) (w : World) : World :=
  record (EvRelease tr) (tracker_release tr w).

(** [Slot::isValid]. *)
Definition Slot_isValid (x : SlotId) (w : World) : bool * World :=
  match slots w !! x with
  | None => (false, w)
  | Some sl =>
      match find_if retain_fails (m_trackers sl) w with
      | (Some it, w') =>
          (* Release the retained ones *)
          (false, for_each release (take it (m_trackers sl)) w')
      | (None, w') =>
          (isValidOverride sl, for_each release (m_trackers sl) w')
      end
  end.

(** [Slot::disconnect]. *)
Definition Slot_disconnect (x : SlotId) (w : World) : World :=
  match slots w !! x with
  | None => w
  | Some sl =>
      let w := record (EvLock (LSlot x)) w in
      let detacher tr w := tracker_detach tr x (record (EvDetach tr x) w) in
      let w := for_each detacher (m_trackers sl) w in
      let w := set_slots (alter (set_trackers []) x) w in
      let w := disconnectOverride x w in
      record (EvUnlock (LSlot x)) w
  end.

(** Modelled from the spec: [Slot::isConnected] is declared in
    core/signal.hpp and defined outside the sources: false if the slot was
    disconnected or any attached tracker reports invalidity. *)
Definition Slot_isConnected (w : World) (x : SlotId) : bool :=
  match slots w !! x with
  | None => false
  | Some sl => m_isConnected sl && forallb (tracker_isValid w) (m_trackers sl)
  end.

(** Modelled from the spec: [Slot::addTracker] / [Slot::bind] (declared
    only): one more tracker on the slot; a [Trackable] records the slot
    ([Trackable::attach]). *)
Definition Slot_bind (tr : Tracker) (x : SlotId) (w : World) : World :=
  let w := set_slots (alter (fun sl => set_trackers (m_trackers sl ++ [tr]) sl) x) w in
  match tr with
  | TrackableTracker t => set_trackables (alter (Trackable_attach (Some x)) t) w
  | _ => w
  end.

(** ** core/signal.hpp: Signal::Connection *)

(** [weak_ptr::lock()]: the slot, if it still exists. *)
Definition weak_lock (p : SlotWeakPtr) (w : World) : SlotPtr :=
  match p with
  | Some x => match slots w !! x with Some _ => Some x | None => None end
  | None => None
  end.

(** [Connection::disconnect] of core/signal.hpp. *)
Definition Connection_disconnect (c : Connection) (w : World) : World :=
  match weak_lock (m_slot c) w with
  | None => w
  | Some x => Slot_disconnect x w
  end.

(** [Connection::operator bool] of core/signal.hpp. *)
Definition Connection_bool (w : World) (c : Connection) : bool :=
  match weak_lock (m_slot c) w with
  | None => false
  | Some x => Slot_isConnected w x
  end.

(** [Connection::get]. *)
Definition Connection_get (w : World) (c : Connection) : SlotPtr :=
  weak_lock (m_slot c) w.

(** ** connection.hpp: Connection *)

Module sywu.

(** The [Connection] of connection.hpp: sender and weak slot. *)
Record Connection := mkConnection {
  m_sender : option SigId;
  m_slot : SlotWeakPtr }.

(** [Connection::disconnect].  [SYWU_ASSERT] comes from config.hpp, which
    is not part of the sources: [checked] says whether the assertion is
    compiled in.  Without it the next statement dereferences the null
    pointer.  The result is the connection object after the call. *)
Definition disconnect (checked : bool) (c : Connection) (w : World)
    : Result Connection :=
  match weak_lock (m_slot c) w with
  | None => if checked then Fault AssertFailed else Fault NullDeref
  | Some x => Ok (mkConnection None None) (Slot_disconnect x w)
  end.

(** [Connection::operator bool]. *)
Definition to_bool (c : Connection) (w : World) : bool * World :=
  match m_sender c, weak_lock (m_slot c) w with
  | Some _, Some x => Slot_isValid x w
  | _, _ => (false, w)
  end.

End sywu.

(** ** connection.hpp: Trackable::disconnectSlots and the destructor *)

Definition pop_back {A} (v : list A) : list A := removelast v.

(** [Trackable::disconnectSlots]: the [while] loop re-reads [m_slots] on
    every round; [fuel] bounds the rounds. *)
Fixpoint disconnectSlots_loop (fuel : nat) (t : TrackableId) (w : World) : Result unit :=
  match trackables w !! t with
  | None => Fault Dangling
  | Some tk =>
      match last (tk_slots tk) with
      | None => Ok tt w
      | Some slot =>
          match fuel with
          | O => OutOfFuel
          | S fuel' =>
              let w := set_trackables (alter (fun tk => set_tk_slots (pop_back (tk_slots tk)) tk) t) w in
              match slot with
              | None => Fault NullDeref
              | Some x => disconnectSlots_loop fuel' t (Slot_disconnect x w)
              end
          end
      end
  end.

Definition Trackable_disconnectSlots (t : TrackableId) (w : World) : Result unit :=
  match trackables w !! t with
  | None => Fault Dangling
  | Some tk => disconnectSlots_loop (length (tk_slots tk)) t w
  end.

(** [Trackable::~Trackable]: [disconnectSlots()], then the object is gone. *)
Definition Trackable_destroy (t : TrackableId) (w : World) : Result unit :=
  bind (Trackable_disconnectSlots t w) (fun _ w => Ok tt (set_trackables (delete t) w)).

(** ** signal_concept_impl.hpp: SignalConcept *)

(** [SignalConcept::~SignalConcept]. *)
Fixpoint destroy_loop (fuel : nat) (s : SigId) (w : World) : Result unit :=
  match signals w !! s with
  | None => Fault Dangling
  | Some sg =>
      match last (m_slots sg) with
      | None => Ok tt w
      | Some slot =>
          match fuel with
          | O => OutOfFuel
          | S fuel' =>
              let w := set_signals (alter (fun sg => set_m_slots (pop_back (m_slots sg)) sg) s) w in
              match slot with
              | None => Fault NullDeref
              | Some x => destroy_loop fuel' s (Slot_disconnect x w)
              end
          end
      end
  end.

Definition Signal_destroy (s : SigId) (w : World) : Result unit :=
  match signals w !! s with
  | None => Fault Dangling
  | Some sg =>
      let w := record (EvLock (LSignal s)) w in
      bind (destroy_loop (length (m_slots sg)) s w) (fun _ w =>
        let w := record (EvUnlock (LSignal s)) w in
        Ok tt (set_signals (delete s) w))
  end.

(** [SignalConcept::addSlot].  Modelled from the spec: [SYWU_ASSERT]
    (config.hpp) is fatal when its condition fails. *)
Definition addSlot (s : SigId) (slot : SlotPtr) (w : World) : Result Connection :=
  match signals w !! s with
  | None => Fault Dangling
  | Some sg =>
      match slot with
      | None => Fault AssertFailed
      | Some x =>
          let w := record (EvLock (LSignal s)) w in
          let w := set_signals (alter (fun sg => set_m_slots (m_slots sg ++ [slot]) sg) s) w in
          Ok (mkConnection slot) (record (EvUnlock (LSignal s)) w)
      end
  end.

(** [make_shared<Slot, ...>]: a new slot, enabled and connected. *)
Definition make_shared (k : SlotKind) (w : World) : SlotId * World :=
  let x := fresh (dom (slots w)) in
  (x, set_slots (insert x (mkSlot k [] true true)) w).

(** [SignalConcept::connect(const FunctionType&)]. *)
Definition connect_function (s : SigId) (f : list Action) (w : World) : Result Connection :=
  let '(x, w) := make_shared (FunctionSlot f) w in
  addSlot s (Some x) w.

(** [SignalConcept::connect(shared_ptr<object>, method)]; [slot->bind(receiver)]
    attaches the tracker for a shared pointer. *)
Definition connect_method (s : SigId) (receiver : ObjId) (method : list Action)
    (w : World) : Result Connection :=
  let '(x, w) := make_shared (MethodSlot receiver method) w in
  let w := Slot_bind (SharedPtrTracker receiver) x w in
  addSlot s (Some x) w.

(** [SignalConcept::disconnect]. *)
Definition Signal_disconnect (s : SigId) (connection : Connection) (w : World) : World :=
  let w := record (EvLock (LSignal s)) w in
  let slot := Connection_get w connection in
  let w := Connection_disconnect connection w in
  let w := set_signals (alter (fun sg => set_m_slots (erase (m_slots sg) slot) sg) s) w in
  record (EvUnlock (LSignal s)) w.

(** *** Emission *)

Section emission.
(** The emission operator of any signal, as the callables and the
    forwarding slots reach it. *)
Variable emit_rec : SigId → Args → World → Result nat.

(** One statement of a user callable. *)
Definition run_action (act : Action) (args : Args) (w : World) : Result unit :=
  match act with
  | AAdd i => Ok tt (set_counter (fun c => c + nth i args 0) w)
  | AConnect s f => bind (connect_function s f w) (fun _ w => Ok tt w)
  | ADisconnect c => Ok tt (Connection_disconnect c w)
  | ADisconnectActive => Ok tt (Connection_disconnect (activeConnection w) w)
  | ASignalDisconnect s c =>
      match signals w !! s with
      | None => Fault Dangling
      | Some _ => Ok tt (Signal_disconnect s c w)
      end
  | AEmit s a =>
      bind (emit_rec s a w) (fun n w => Ok tt (record (EvEmitted s a n) w))
  | ADestroyObject o => Ok tt (set_alive (fun al => al ∖ {[o]}) w)
  | AThrow e => Throw e w
  end.

(** A user callable running with arguments [args]. *)
Fixpoint run_actions (acts : list Action) (args : Args) (w : World) : Result unit :=
  match acts with
  | [] => Ok tt w
  | act :: rest => bind (run_action act args w) (fun _ w => run_actions rest args w)
  end.

(** [activateOverride] of the three variants. *)
Definition activateOverride (x : SlotId) (args : Args) (w : World) : Result unit :=
  match slots w !! x with
  | None => Fault Dangling
  | Some sl =>
      match m_kind sl with
      | FunctionSlot f =>
          run_actions f args (record (EvInvoke x args) w)
      | MethodSlot target f =>
          (* auto slotHost = m_target.lock(); *)
          if bool_decide (target ∈ alive w)
          then run_actions f args (record (EvInvoke x args) w)
          else Throw bad_slot w
      | SignalSlot receiver =>
          bind (emit_rec receiver args (record (EvInvoke x args) w))
               (fun _ w => Ok tt w)
      end
  end.

(** Modelled from the spec: [SlotImpl::activate] is declared in
    connection.hpp ("Activates the slot with the arguments passed, and
    returns the slot's return value") and defined outside the sources; it
    hands over to the variant's [activateOverride].  The spec has
    [setEnabled] switch a slot off for the emission, [operator()] does
    not read the flag, and what [activate] does with a disabled slot is
    not part of the sources: this is the activation of an enabled slot. *)
Definition activate (x : SlotId) (args : Args) (w : World) : Result unit :=
  activateOverride x args w.

(** The [for] loop of [operator()] over the copied container, [count]
    being the counter so far (an [int] in the source, returned as
    [size_t]; a container stays far below [2^31] entries, so it is a
    natural number here).  Scoped objects are written out where their
    scope ends: [lock_guard lock( *slot)], [ConnectionSwapper], and
    [relock_guard], which gives the lock up for its scope. *)
Fixpoint emit_loop (s : SigId) (args : Args) (slots : list SlotPtr) (count : nat)
    (w : World) : Result nat :=
  match slots with
  | [] => Ok count w
  | None :: _ => Fault NullDeref
  | Some x :: rest =>
      let w := record (EvLock (LSlot x)) w in
      if negb (Slot_isConnected w x) then
        (* continue *)
        emit_loop s args rest count (record (EvUnlock (LSlot x)) w)
      else
        let previousConnection := activeConnection w in
        let w := set_active (mkConnection (Some x)) w in
        let w := record (EvUnlock (LSlot x)) w in
        match activate x args (record (EvActivate s x args) w) with
        | Ok _ w =>
            (* ++count *)
            let w := record (EvLock (LSlot x)) w in
            let w := set_active previousConnection w in
            emit_loop s args rest (S count) (record (EvUnlock (LSlot x)) w)
        | Throw e w =>
            let w := record (EvLock (LSlot x)) w in
            let w := set_active previousConnection w in
            match e with
            | bad_weak_ptr | bad_slot =>
                let w := record (EvUnlock (LSlot x)) w in
                let w := Signal_disconnect s (mkConnection (Some x)) w in
                let w := record (EvLock (LSlot x)) w in
                emit_loop s args rest count (record (EvUnlock (LSlot x)) w)
            | other_error => Throw e (record (EvUnlock (LSlot x)) w)
            end
        | Fault f => Fault f
        | OutOfFuel => OutOfFuel
        end
  end.

(** The predicate of the [erase_if] in [operator()]. *)
Definition is_stale (w : World) (slot : SlotPtr) : bool :=
  match slot with
  | None => true
  | Some x => negb (Slot_isConnected w x)
  end.

(** [SignalConcept::operator()].  [isBlocked()] and the type of
    [m_emitGuard] come from headers outside the sources; they are the two
    flags of [Signal]. *)
Definition emit_body (s : SigId) (args : Args) (w : World) : Result nat :=
  match signals w !! s with
  | None => Fault Dangling
  | Some sg =>
      if m_blocked sg || m_emitGuard sg then Ok 0%nat w
      else
        let w := set_signals (alter (set_emitGuard true) s) w in
        let w := record (EvLock (LSignal s)) w in
        (* Remove disconnected slots. *)
        let w := set_signals
                   (alter (fun sg => set_m_slots (erase_if (m_slots sg) (is_stale w)) sg) s) w in
        let slots := match signals w !! s with Some sg => m_slots sg | None => [] end in
        let w := record (EvUnlock (LSignal s)) w in
        match emit_loop s args slots 0%nat w with
        | Ok count w => Ok count (set_signals (alter (set_emitGuard false) s) w)
        | Throw e w => Throw e (set_signals (alter (set_emitGuard false) s) w)
        | Fault f => Fault f
        | OutOfFuel => OutOfFuel
        end
  end.
End emission.

(** The emission operator: [fuel] bounds the depth of nested emissions. *)
Fixpoint emit (fuel : nat) (s : SigId) (args : Args) (w : World) : Result nat :=
  match fuel with
  | O => OutOfFuel
  | S fuel' => emit_body (emit fuel') s args w
  end.

(** ** Notions used in the statements *)

#[global] Instance LockId_eq_dec : EqDecision LockId.
Proof. solve_decision. Defined.
#[global] Instance Event_eq_dec : EqDecision Event.
Proof. unfold EqDecision, Decision. decide equality; apply (decide (_ = _)). Defined.

(** How often [a] occurs in [l]. *)
Definition occurrences {A} `{EqDecision A} (a : A) (l : list A) : nat :=
  length (filter (λ b, b = a) l).

(** The trackables after the [detach] calls of slot [x] on [trs]. *)
Definition detach_trackables (x : SlotId) (trs : list Tracker)
    (m : gmap TrackableId Trackable) : gmap TrackableId Trackable :=
  for_each (λ tr m, match tr with
                    | TrackableTracker t => alter (Trackable_detach (Some x)) t m
                    | _ => m
                    end) trs m.

(** The calls [Slot::disconnect] makes on slot [x] with trackers [trs]. *)
Definition disconnect_trace (x : SlotId) (trs : list Tracker) : list Event :=
  [EvLock (LSlot x)] ++ map (λ tr, EvDetach tr x) trs
    ++ [EvDisconnectOverride x; EvUnlock (LSlot x)].

(** The successful [retain] calls on the first [k] trackers. *)
Definition retain_trace (k : nat) (trs : list Tracker) : list Event :=
  map (λ t, EvRetain t true) (take k trs).

(** Everything but the trackables and the trace is the same. *)
Definition same_but_trackables_log (w w' : World) : Prop :=
  slots w' = slots w ∧ signals w' = signals w ∧ alive w' = alive w
  ∧ counter w' = counter w ∧ activeConnection w' = activeConnection w.

(** How many trackers of [l] are bound to the trackable [t]. *)
Definition cnt (l : list Tracker) (t : TrackableId) : Z :=
  Z.of_nat (occurrences (TrackableTracker t) l).

(** [m] is [m0] with [c t] outstanding retains on each trackable [t]. *)
Definition bumped (c : TrackableId → Z) (m0 m : gmap TrackableId Trackable) : Prop :=
  ∀ t, m !! t = (λ tk, set_refCount (m_refCount tk + c t) tk) <$> m0 !! t.

(** Every intrusive count is non-negative and leaves room for [n] more
    retains. *)
Definition counts_in_range (n : Z) (m0 : gmap TrackableId Trackable) : Prop :=
  ∀ t tk, m0 !! t = Some tk → 0 ≤ m_refCount tk ∧ m_refCount tk + n < 2 ^ 31.

(** A store with nothing in it, and a default-constructed connection. *)
Definition empty_world : World := mkWorld ∅ ∅ ∅ ∅ 0 (mkConnection None) [].

(** Slot [x], if it still exists, is marked disconnected and has no
    tracker left. *)
Definition disconnected (w : World) (x : SlotId) : Prop :=
  ∀ sl, slots w !! x = Some sl → m_isConnected sl = false ∧ m_trackers sl = [].

(** Events of a slot's own [disconnect]. *)
Definition slot_event (e : Event) : Prop :=
  match e with
  | EvLock (LSlot _) | EvUnlock (LSlot _) | EvDetach _ _ | EvDisconnectOverride _ => True
  | _ => False
  end.

(** Trackers only ever go away. *)
Definition trackers_shrink (w w' : World) : Prop :=
  ∀ x sl', slots w' !! x = Some sl' →
    ∃ sl, slots w !! x = Some sl
          ∧ (m_trackers sl' = m_trackers sl ∨ m_trackers sl' = []).


(** The blocked flag and the emission guard of every signal. *)
Definition guards (w : World) : gmap SigId (bool * bool) :=
  (λ sg, (m_blocked sg, m_emitGuard sg)) <$> signals w.

(** [P] holds of the store a call ends in, whether it returns or throws;
    [F] is what is asked of a run that used up its budget. *)
Definition post_gen {A} (F : Prop) (P : World → Prop) (r : Result A) : Prop :=
  match r with
  | Ok _ w | Throw _ w => P w
  | Fault _ => True
  | OutOfFuel => F
  end.
Abbreviation post := (post_gen True).

(** The store updates that are not tied to a particular emission. *)
Inductive atomic : World → World → Prop :=
| at_lock l w : atomic w (record (EvLock l) w)
| at_unlock l w : atomic w (record (EvUnlock l) w)
| at_invoke x a w : atomic w (record (EvInvoke x a) w)
| at_active c w : atomic w (set_active c w)
| at_counter f w : atomic w (set_counter f w)
| at_alive o w : atomic w (set_alive (λ al, al ∖ {[o]}) w)
| at_m_slots s (g : list SlotPtr → list SlotPtr) w :
    atomic w (set_signals (alter (λ sg, set_m_slots (g (m_slots sg)) sg) s) w)
| at_disconnect x w : atomic w (Slot_disconnect x w)
| at_make_shared k w : atomic w (make_shared k w).2.

(** Slots stay, keep their variant, are never marked connected again and
    never gain a tracker. *)
Definition slots_monotone (w w' : World) : Prop :=
  ∀ x sl, slots w !! x = Some sl →
    ∃ sl', slots w' !! x = Some sl'
           ∧ m_kind sl' = m_kind sl
           ∧ (m_isConnected sl = false → m_isConnected sl' = false)
           ∧ (m_trackers sl' = m_trackers sl ∨ m_trackers sl' = []).

Definition grows (w w' : World) : Prop :=
  (∃ evs, log w' = log w ++ evs) ∧ slots_monotone w w'.

(** No slot is activated after its [disconnect] ran. *)
Definition no_activation_after_disconnect (evs : list Event) : Prop :=
  ∀ l1 l2 x, evs = l1 ++ EvDisconnectOverride x :: l2 →
    ∀ s a, EvActivate s x a ∉ l2.

(** Since [w0]: the slots disconnected in between are marked so, and none
    was activated after its disconnection. *)
Definition ordered_since (w0 w : World) : Prop :=
  ∃ evs, log w = log w0 ++ evs
         ∧ (∀ x, EvDisconnectOverride x ∈ evs →
              ∃ sl, slots w !! x = Some sl ∧ m_isConnected sl = false)
         ∧ no_activation_after_disconnect evs.

(** An event that may occur while signal [s0] is emitting or blocked,
    below its own loop: no activation by [s0], and every emission of [s0]
    attempted by a callable returned zero. *)
Definition nested_ok (s0 : SigId) (e : Event) : Prop :=
  match e with
  | EvActivate s _ _ => s ≠ s0
  | EvEmitted s _ n => s = s0 → n = 0%nat
  | _ => True
  end.

(** Signal [s0] is blocked or emitting. *)
Definition closed (s0 : SigId) (G : gmap SigId (bool * bool)) : Prop :=
  ∃ b g, G !! s0 = Some (b, g) ∧ b || g = true.

(** The events since [w0] are fine below the loop of [s0]. *)
Definition quiet_since (s0 : SigId) (w0 w : World) : Prop :=
  ∃ evs, log w = log w0 ++ evs ∧ Forall (nested_ok s0) evs.

(** The slots signal [s] activated, with the arguments, in order. *)
Definition activations (s : SigId) (evs : list Event) : list (SlotId * Args) :=
  omap (λ e, match e with
             | EvActivate s' x a => if decide (s' = s) then Some (x, a) else None
             | _ => None
             end) evs.

(** Every emission of [s] attempted by a callable returned zero. *)
Definition emitted_zero (s : SigId) (e : Event) : Prop :=
  match e with
  | EvEmitted s' _ n => s' = s → n = 0%nat
  | _ => True
  end.

(** The number of signals whose guard is free. *)
Definition free_count (G : gmap SigId (bool * bool)) : nat :=
  size (filter (λ p : nat * (bool * bool), p.2.2 = false) G).

(** The store in which the loop of [operator()] starts. *)
Definition loop_start (s : SigId) (w : World) : World :=
  let w := set_signals (alter (set_emitGuard true) s) w in
  let w := record (EvLock (LSignal s)) w in
  let w := set_signals
             (alter (fun sg => set_m_slots (erase_if (m_slots sg) (is_stale w)) sg) s) w in
  record (EvUnlock (LSignal s)) w.

(** The container the loop of [operator()] runs over. *)
Definition snapshot_of (w : World) (sg : Signal) : list SlotPtr :=
  erase_if (m_slots sg) (is_stale w).

(** What [operator()] does with the outcome of its loop: the guard is
    released. *)
Definition loop_end (s : SigId) (r : Result nat) : Result nat :=
  match r with
  | Ok count w => Ok count (set_signals (alter (set_emitGuard false) s) w)
  | Throw e w => Throw e (set_signals (alter (set_emitGuard false) s) w)
  | Fault f => Fault f
  | OutOfFuel => OutOfFuel
  end.

(** Events that any store update may leave. *)
Definition plain_event (e : Event) : Prop :=
  match e with
  | EvActivate _ _ _ | EvEmitted _ _ _ => False
  | _ => True
  end.

(** The store right before [activate] is called on slot [x] in the loop
    of signal [s], and the store after the [catch] handlers dealt with a
    failure that left the store [w4]. *)
Definition before_activation (s : SigId) (x : SlotId) (args : Args) (w : World) : World :=
  record (EvActivate s x args)
    (record (EvUnlock (LSlot x))
       (set_active (mkConnection (Some x)) (record (EvLock (LSlot x)) w))).


(** The callables that ran, with their arguments, in order. *)
Definition invocations (evs : list Event) : list (SlotId * Args) :=
  omap (λ e, match e with EvInvoke x a => Some (x, a) | _ => None end) evs.












(** ** Concrete stores *)

(** [Sum(int,int)]: two slots add the first and the second argument to
    the counter. *)
Definition sum_world : World :=
  mkWorld {[ 0%nat := mkSlot (FunctionSlot [AAdd 0%nat]) [] true true;
             1%nat := mkSlot (FunctionSlot [AAdd 1%nat]) [] true true ]}
          {[ 0%nat := mkSignal [Some 0%nat; Some 1%nat] false false ]}
          ∅ ∅ 0 (mkConnection None) [].

(** The same signal while one of its emissions is running. *)
Definition emitting_world : World :=
  mkWorld (slots sum_world)
          {[ 0%nat := mkSignal [Some 0%nat; Some 1%nat] false true ]}
          ∅ ∅ 0 (mkConnection None) [].

(** A slot that emits its own signal again, then adds the first argument. *)
Definition reentrant_world : World :=
  mkWorld {[ 0%nat := mkSlot (FunctionSlot [AEmit 0%nat [9]; AAdd 0%nat]) [] true true ]}
          {[ 0%nat := mkSignal [Some 0%nat] false false ]}
          ∅ ∅ 0 (mkConnection None) [].

(** The first slot connects a new slot to its own signal and disconnects
    the second slot; the second and the new slot would add to the counter. *)
Definition churn_world : World :=
  mkWorld {[ 0%nat := mkSlot (FunctionSlot [AConnect 0%nat [AAdd 0%nat];
                                            ADisconnect (mkConnection (Some 1%nat))])
                             [] true true;
             1%nat := mkSlot (FunctionSlot [AAdd 0%nat]) [] true true ]}
          {[ 0%nat := mkSignal [Some 0%nat; Some 1%nat] false false ]}
          ∅ ∅ 0 (mkConnection None) [].

(** A method slot whose target (object 7) is gone, followed by a function
    slot. *)
Definition stale_world : World :=
  mkWorld {[ 0%nat := mkSlot (MethodSlot 7%nat [AAdd 0%nat]) [] true true;
             1%nat := mkSlot (FunctionSlot [AAdd 0%nat]) [] true true ]}
          {[ 0%nat := mkSignal [Some 0%nat; Some 1%nat] false false ]}
          ∅ ∅ 0 (mkConnection None) [].

(** A slot bound to two trackables and, in between, to an object that is
    gone; both trackables have the slot attached. *)
Definition tracked_world : World :=
  mkWorld {[ 0%nat := mkSlot (FunctionSlot [])
                             [TrackableTracker 0%nat; WeakPtrTracker 5%nat;
                              TrackableTracker 1%nat] true true ]}
          {[ 0%nat := mkSignal [Some 0%nat] false false ]}
          {[ 0%nat := mkTrackable [Some 0%nat] 0; 1%nat := mkTrackable [Some 0%nat] 0 ]}
          ∅ 0 (mkConnection None) [].

(** A container that holds the first slot twice. *)
Definition duplicate_world : World :=
  mkWorld (slots sum_world)
          {[ 0%nat := mkSignal [Some 0%nat; Some 1%nat; Some 0%nat] false false ]}
          ∅ ∅ 0 (mkConnection None) [].

(** ** connection.hpp: the intrusive pointer hooks of Trackable *)

(** [intrusive_ptr_add_ref]: [object->retain();] *)
Definition intrusive_ptr_add_ref (object : TrackableId) (w : World) : Result unit :=
  match trackables w !! object with
  | None => Fault Dangling
  | Some tk => Ok tt (set_trackables (insert object (Trackable_retain tk).2) w)
  end.

(** [intrusive_ptr_release]: [if (object->release()) delete object;] *)
Definition intrusive_ptr_release (object : TrackableId) (w : World) : Result unit :=
  match trackables w !! object with
  | None => Fault Dangling
  | Some tk =>
      let '(last_one, tk') := Trackable_release tk in
      let w := set_trackables (insert object tk') w in
      if last_one then Trackable_destroy object w else Ok tt w
  end.

(** ** Further notions used in the statements *)

(** The range of an [int]. *)
Definition int_range (z : Z) : Prop := - 2 ^ 31 ≤ z < 2 ^ 31.

(** The state [find_if] has reached after the predicate ran on the first
    [j] elements. *)
Definition state_after {A St} (p : A → St → bool * St) (v : list A) (s : St) (j : nat) : St :=
  for_each (λ a st, (p a st).2) (take j v) s.

(** Every entry of a container refers to a slot of the store, as the
    shared pointers of the container guarantee. *)
Definition owned (w : World) (l : list SlotPtr) : Prop :=
  Forall (λ p, ∃ x, p = Some x ∧ is_Some (slots w !! x)) l.

(** The slots whose teardown override ran, in order. *)
Definition overrides (evs : list Event) : list SlotId :=
  omap (λ e, match e with EvDisconnectOverride x => Some x | _ => None end) evs.

(** From [w] to [w'] every slot kept its enabled flag, and the slots
    that are new are enabled. *)
Definition enabled_kept (w w' : World) : Prop :=
  (∀ x sl, slots w !! x = Some sl →
           ∃ sl', slots w' !! x = Some sl' ∧ m_isEnabled sl' = m_isEnabled sl)
  ∧ ∀ x sl', slots w' !! x = Some sl' → slots w !! x = None → m_isEnabled sl' = true.

(** The locks held after event [e], starting with the locks [held];
    [None] when the event breaks the discipline: a lock is taken while it
    is held, a lock is released that is not held, or a lock is held when
    control passes to a slot or comes back from a nested emission. *)
Definition lock_step (held : list LockId) (e : Event) : option (list LockId) :=
  match e with
  | EvLock l => if decide (l ∈ held) then None else Some (l :: held)
  | EvUnlock l => if decide (l ∈ held) then Some (filter (λ l', l' ≠ l) held) else None
  | EvActivate _ _ _ | EvInvoke _ _ | EvEmitted _ _ _ =>
      match held with [] => Some [] | _ => None end
  | _ => Some held
  end.

(** The locks held after the events [evs], if they keep the discipline. *)
Fixpoint lock_run (held : list LockId) (evs : list Event) : option (list LockId) :=
  match evs with
  | [] => Some held
  | e :: evs' =>
      match lock_step held e with
      | Some held' => lock_run held' evs'
      | None => None
      end
  end.

(** A stretch of the trace that starts and ends with no lock held and
    keeps the discipline. *)
Definition balanced (evs : list Event) : Prop := lock_run [] evs = Some [].

(** From [w] to [w'] the trace only grew, by a stretch that keeps the
    discipline of the locks. *)
Definition locks_kept (w w' : World) : Prop :=
  ∃ evs, log w' = log w ++ evs ∧ balanced evs.




(** The only fault of a call, if any, is the use of an object that is
    gone: no null pointer was dereferenced and no assertion failed. *)
Definition only_dangling {A} (r : Result A) : Prop :=
  match r with
  | Fault NullDeref | Fault AssertFailed => False
  | _ => True
  end.

(** From [w] to [w'] no object came to life, no trackable came or went,
    and the slot lists of the trackables only lost entries. *)
Definition lifetimes_kept (w w' : World) : Prop :=
  alive w' ⊆ alive w
  ∧ ∀ t, match trackables w !! t, trackables w' !! t with
         | Some tk, Some tk' => sublist (tk_slots tk') (tk_slots tk)
         | None, None => True
         | _, _ => False
         end.

(** ** Further concrete stores *)




(** A slot bound to a trackable whose count is the largest [int]. *)
Definition saturated_world : World :=
  mkWorld {[ 0%nat := mkSlot (FunctionSlot []) [TrackableTracker 0%nat] true true ]}
          {[ 0%nat := mkSignal [Some 0%nat] false false ]}
          {[ 0%nat := mkTrackable [Some 0%nat] (2 ^ 31 - 1) ]}
          ∅ 0 (mkConnection None) [].

(** A slot bound to two trackables: the first was never retained, the
    second was released once more than it was retained
    ([Trackable::release] is public). *)
Definition released_world : World :=
  mkWorld {[ 0%nat := mkSlot (FunctionSlot [])
                             [TrackableTracker 0%nat; TrackableTracker 1%nat] true true ]}
          {[ 0%nat := mkSignal [Some 0%nat] false false ]}
          {[ 0%nat := mkTrackable [Some 0%nat] 0;
             1%nat := (Trackable_release (mkTrackable [Some 0%nat] 0)).2 ]}
          ∅ 0 (mkConnection None) [].

(** * Lemmas and theorems *)

Lemma erase_filter {A} `{EqDecision A} (v : list A) (a : A) :
  erase v a = filter (λ b, b ≠ a) v.
Proof.
  induction v as [|b v IH]; simpl; [done|].
  destruct (decide (b = a)) as [->|Hne].
  - rewrite filter_cons_False; [done | naive_solver].
  - rewrite filter_cons_True; [by f_equal | done].
Qed.

Lemma for_each_app {A St} (f : A → St → St) (u v : list A) (s : St) :
  for_each f (u ++ v) s = for_each f v (for_each f u s).
Proof. unfold for_each. by rewrite fold_left_app. Qed.

Lemma for_each_cons {A St} (f : A → St → St) a (v : list A) (s : St) :
  for_each f (a :: v) s = for_each f v (f a s).
Proof. done. Qed.

(* Slot_disconnect effect on fields *)
Lemma for_each_detach_signals x trs w :
  let detacher tr w := tracker_detach tr x (record (EvDetach tr x) w) in
  signals (for_each detacher trs w) = signals w
  ∧ slots (for_each detacher trs w) = slots w
  ∧ alive (for_each detacher trs w) = alive w
  ∧ counter (for_each detacher trs w) = counter w
  ∧ activeConnection (for_each detacher trs w) = activeConnection w
  ∧ log (for_each detacher trs w) = log w ++ map (λ tr, EvDetach tr x) trs.
Proof.
  intros detacher. revert w. induction trs as [|tr trs IH]; intros w.
  - simpl. by rewrite app_nil_r.
  - rewrite for_each_cons. destruct (IH (detacher tr w)) as (H1&H2&H3&H4&H5&H6).
    rewrite H1, H2, H3, H4, H5, H6. unfold detacher.
    destruct tr; simpl; rewrite <- ?app_assoc; done.
Qed.



Lemma for_each_detach_trackables x trs w :
  let detacher tr w := tracker_detach tr x (record (EvDetach tr x) w) in
  trackables (for_each detacher trs w) = detach_trackables x trs (trackables w).
Proof.
  intros detacher. revert w. induction trs as [|tr trs IH]; intros w; [done|].
  rewrite for_each_cons. rewrite IH. unfold detach_trackables. rewrite for_each_cons.
  by destruct tr.
Qed.

Lemma Slot_disconnect_eq x w sl :
  slots w !! x = Some sl →
  Slot_disconnect x w =
    mkWorld (alter (set_isConnected false) x (alter (set_trackers []) x (slots w)))
            (signals w)
            (detach_trackables x (m_trackers sl) (trackables w))
            (alive w) (counter w) (activeConnection w)
            (log w ++ disconnect_trace x (m_trackers sl)).
Proof.
  intros Hx. unfold Slot_disconnect. rewrite Hx. cbv zeta.
  pose proof (for_each_detach_signals x (m_trackers sl) (record (EvLock (LSlot x)) w)) as H.
  pose proof (for_each_detach_trackables x (m_trackers sl) (record (EvLock (LSlot x)) w)) as H'.
  cbv zeta in H, H'.
  set (w1 := for_each _ _ _) in *. clearbody w1.
  destruct H as (H1&H2&H3&H4&H5&H6). destruct w1; simpl in *; subst.
  unfold disconnectOverride, set_slots, record, disconnect_trace; simpl.
  f_equal. by rewrite <- !app_assoc.
Qed.

Lemma Slot_disconnect_missing x w : slots w !! x = None → Slot_disconnect x w = w.
Proof. intros Hx. unfold Slot_disconnect. by rewrite Hx. Qed.


(** * Slot::isValid *)


Lemma tracker_retain_same tr w :
  same_but_trackables_log w (tracker_retain tr w).2
  ∧ log (tracker_retain tr w).2 = log w.
Proof.
  destruct tr; simpl; try done.
  destruct (trackables w !! t); simpl; done.
Qed.

Lemma tracker_release_same tr w :
  same_but_trackables_log w (tracker_release tr w)
  ∧ log (tracker_release tr w) = log w.
Proof.
  destruct tr; simpl; try done.
  destruct (trackables w !! t); simpl; done.
Qed.


Lemma find_if_retain_log trs w :
  match find_if retain_fails trs w with
  | (Some k, w') =>
      ∃ tr, trs !! k = Some tr
            ∧ log w' = log w ++ retain_trace k trs ++ [EvRetain tr false]
            ∧ same_but_trackables_log w w'
  | (None, w') =>
      log w' = log w ++ retain_trace (length trs) trs
      ∧ same_but_trackables_log w w'
  end.
Proof.
  revert w. induction trs as [|tr trs IH]; intros w; simpl.
  { unfold retain_trace. simpl. rewrite app_nil_r. done. }
  unfold retain_fails at 1.
  pose proof (tracker_retain_same tr w) as [Hs Hl].
  destruct (tracker_retain tr w) as [ok w1] eqn:Hr. simpl in Hs, Hl.
  destruct ok; simpl.
  - specialize (IH (record (EvRetain tr true) w1)).
    destruct (find_if retain_fails trs (record (EvRetain tr true) w1)) as [[k|] w2]; simpl.
    + destruct IH as (tr' & Hk & Hlog & Hsame). exists tr'. split; [done|]. split.
      * rewrite Hlog. simpl. rewrite Hl. unfold retain_trace. simpl.
        rewrite <- !app_assoc. done.
      * destruct Hs as (?&?&?&?&?), Hsame as (?&?&?&?&?). simpl in *.
        repeat split; congruence.
    + destruct IH as (Hlog & Hsame). split.
      * rewrite Hlog. simpl. rewrite Hl. unfold retain_trace. simpl.
        rewrite <- !app_assoc. done.
      * destruct Hs as (?&?&?&?&?), Hsame as (?&?&?&?&?). simpl in *.
        repeat split; congruence.
  - exists tr. split; [done|]. split; [by rewrite Hl|]. done.
Qed.

Lemma for_each_release_log trs w :
  log (for_each release trs w) = log w ++ map EvRelease trs
  ∧ same_but_trackables_log w (for_each release trs w).
Proof.
  revert w. induction trs as [|tr trs IH]; intros w.
  { simpl. by rewrite app_nil_r. }
  rewrite for_each_cons. destruct (IH (release tr w)) as [Hl Hs].
  pose proof (tracker_release_same tr w) as [Hs' Hl'].
  split.
  - rewrite Hl. unfold release. simpl. rewrite Hl'. by rewrite <- app_assoc.
  - destruct Hs as (?&?&?&?&?), Hs' as (?&?&?&?&?). unfold release in *. simpl in *.
    repeat split; congruence.
Qed.




Lemma wrap_int_id z : - 2 ^ 31 ≤ z < 2 ^ 31 → wrap_int z = z.
Proof. intros H. unfold wrap_int. rewrite Z.mod_small; lia. Qed.

Lemma cnt_cons tr l t :
  cnt (tr :: l) t = (if decide (tr = TrackableTracker t) then 1 else 0) + cnt l t.
Proof.
  unfold cnt, occurrences. destruct (decide (tr = TrackableTracker t)).
  - rewrite filter_cons_True by done. simpl length. lia.
  - rewrite filter_cons_False by done. lia.
Qed.

Lemma cnt_nil t : cnt [] t = 0.
Proof. done. Qed.

Lemma cnt_nonneg l t : 0 ≤ cnt l t.
Proof. unfold cnt. lia. Qed.

Lemma cnt_le_length l t : cnt l t ≤ Z.of_nat (length l).
Proof.
  unfold cnt, occurrences.
  pose proof (length_filter (λ tr, tr = TrackableTracker t) l). lia.
Qed.

Lemma bumped_ext c c' m0 m :
  (∀ t, is_Some (m0 !! t) → c t = c' t) → bumped c m0 m → bumped c' m0 m.
Proof.
  intros Hc Hb t. rewrite Hb. destruct (m0 !! t) eqn:E; simpl; [|done].
  rewrite Hc; eauto.
Qed.

Lemma bumped_zero m0 m : bumped (λ _, 0) m0 m → m = m0.
Proof.
  intros Hb. apply map_eq. intros t. rewrite Hb.
  destruct (m0 !! t) as [[l z]|]; simpl; [|done].
  unfold set_refCount. simpl. do 2 f_equal. lia.
Qed.

Lemma retain_step n c m0 tr w :
  bumped c m0 (trackables w) → counts_in_range n m0 →
  (∀ t, 0 ≤ c t ∧ c t + 1 ≤ n) →
  let r := tracker_retain tr w in
  (r.1 = true → bumped (λ t, c t + cnt [tr] t) m0 (trackables r.2))
  ∧ (r.1 = false → trackables r.2 = trackables w).
Proof.
  intros Hb Hr Hc. destruct tr as [o|o|t]; simpl.
  - split; [|done]. intros _. eapply bumped_ext; [|done]. intros t _.
    rewrite cnt_cons, cnt_nil. rewrite decide_False by done. clear. lia.
  - split; [|done]. intros _. eapply bumped_ext; [|done]. intros t _.
    rewrite cnt_cons, cnt_nil. rewrite decide_False by done. clear. lia.
  - pose proof (Hb t) as Ht.
    destruct (m0 !! t) as [tk0|] eqn:E0; simpl in Ht; rewrite Ht; simpl.
    + destruct (Hr _ _ E0) as [H0 Hn]. destruct (Hc t) as [Hc0 Hc1].
      rewrite wrap_int_id by lia.
      rewrite (proj2 (Z.ltb_lt _ _)) by lia.
      split; [|done]. intros _ t'. rewrite lookup_insert.
      rewrite cnt_cons, cnt_nil.
      case_decide as Heq.
      * subst t'. rewrite E0. simpl. rewrite decide_True by done.
        unfold set_refCount. simpl. do 2 f_equal. lia.
      * rewrite decide_False by congruence. rewrite Hb.
        destruct (m0 !! t'); simpl; [|done]. do 2 f_equal. lia.
    + split; [done|]. done.
Qed.

Lemma find_if_retain_bumped n m0 trs : ∀ c w,
  bumped c m0 (trackables w) → counts_in_range n m0 →
  (∀ t, 0 ≤ c t ∧ c t + Z.of_nat (length trs) ≤ n) →
  match find_if retain_fails trs w with
  | (Some k, w') => bumped (λ t, c t + cnt (take k trs) t) m0 (trackables w')
  | (None, w') => bumped (λ t, c t + cnt trs t) m0 (trackables w')
  end.
Proof.
  induction trs as [|tr trs IH]; intros c w Hb Hr Hc; simpl.
  { eapply bumped_ext; [|done]. intros t _. rewrite cnt_nil. clear. lia. }
  assert (Hlen : Z.of_nat (length (tr :: trs)) = 1 + Z.of_nat (length trs))
    by (change (length (tr :: trs)) with (S (length trs)); lia).
  unfold retain_fails at 1.
  pose proof (retain_step n c m0 tr w Hb Hr) as Hstep.
  destruct (tracker_retain tr w) as [ok w1] eqn:Hret. simpl in Hstep.
  destruct Hstep as [Hok Hfail]. { intros t. specialize (Hc t). clear -Hc Hlen. lia. }
  assert (Hone : ∀ t, 0 ≤ cnt [tr] t ≤ 1).
  { intros t. pose proof (cnt_nonneg [tr] t). pose proof (cnt_le_length [tr] t).
    change (length [tr]) with 1%nat in *. lia. }
  destruct ok; simpl.
  - specialize (IH (λ t, c t + cnt [tr] t) (record (EvRetain tr true) w1)).
    simpl in IH.
    destruct (find_if retain_fails trs (record (EvRetain tr true) w1)) as [[k|] w2]; simpl.
    + eapply bumped_ext; [|apply IH; auto].
      * intros t _. rewrite (cnt_cons tr (take k trs)), (cnt_cons tr []), cnt_nil.
        clear. lia.
      * intros t. specialize (Hc t). specialize (Hone t). clear -Hc Hone Hlen. lia.
    + eapply bumped_ext; [|apply IH; auto].
      * intros t _. rewrite (cnt_cons tr trs), (cnt_cons tr []), cnt_nil.
        clear. lia.
      * intros t. specialize (Hc t). specialize (Hone t). clear -Hc Hone Hlen. lia.
  - rewrite Hfail by done. eapply bumped_ext; [|done].
    intros t _. rewrite cnt_nil. clear. lia.
Qed.

Lemma for_each_release_bumped n m0 l : ∀ c w,
  bumped (λ t, c t + cnt l t) m0 (trackables w) → counts_in_range n m0 →
  (∀ t, 0 ≤ c t ∧ c t + cnt l t ≤ n) →
  bumped c m0 (trackables (for_each release l w)).
Proof.
  induction l as [|tr l IH]; intros c w Hb Hr Hc.
  { simpl. eapply bumped_ext; [|done]. intros t _. cbv beta. rewrite cnt_nil. clear. lia. }
  rewrite for_each_cons. apply IH; [|done|].
  - unfold release. simpl. destruct tr as [o|o|t]; simpl.
    + eapply bumped_ext; [|done]. intros t _. cbv beta. rewrite cnt_cons.
      rewrite decide_False by done. clear. lia.
    + eapply bumped_ext; [|done]. intros t _. cbv beta. rewrite cnt_cons.
      rewrite decide_False by done. clear. lia.
    + pose proof (Hb t) as Ht. cbv beta in Ht. rewrite cnt_cons, decide_True in Ht by done.
      destruct (m0 !! t) as [tk0|] eqn:E0; simpl in Ht; rewrite Ht; simpl.
      * destruct (Hr _ _ E0) as [H0 Hn]. specialize (Hc t).
        rewrite cnt_cons, decide_True in Hc by done.
        pose proof (cnt_nonneg l t).
        rewrite wrap_int_id by (clear -H0 Hn Hc H; lia).
        intros t'. rewrite lookup_insert. case_decide as Heq.
        -- subst t'. rewrite E0. simpl. unfold set_refCount. simpl.
           do 2 f_equal. clear. lia.
        -- rewrite Hb. cbv beta. rewrite cnt_cons, decide_False by congruence.
           destruct (m0 !! t'); simpl; [|done]. do 2 f_equal.
      * intros t'. rewrite Hb. cbv beta. rewrite cnt_cons.
        destruct (decide (TrackableTracker t = TrackableTracker t')) as [[= ->]|].
        -- rewrite E0. done.
        -- destruct (m0 !! t'); simpl; [|done]. do 2 f_equal.
  - intros t. specialize (Hc t). rewrite cnt_cons in Hc.
    pose proof (cnt_nonneg l t) as Hl. clear -Hc Hl. case_decide; lia.
Qed.



Lemma occurrences_app {A} `{EqDecision A} (a : A) l1 l2 :
  occurrences a (l1 ++ l2) = (occurrences a l1 + occurrences a l2)%nat.
Proof. unfold occurrences. by rewrite filter_app, length_app. Qed.

Lemma occurrences_map_inj {A B} `{EqDecision A} `{EqDecision B} (f : A → B) a l :
  (∀ b, f b = f a → b = a) → occurrences (f a) (map f l) = occurrences a l.
Proof.
  intros Hinj. unfold occurrences. induction l as [|b l IH]; [done|]. simpl.
  destruct (decide (b = a)) as [->|Hne].
  - rewrite !filter_cons_True by done. simpl. by rewrite IH.
  - rewrite !filter_cons_False; [done|done|]. intros Hf. by apply Hne, Hinj.
Qed.

Lemma occurrences_map_none {A B} `{EqDecision B} (f : A → B) (c : B) l :
  (∀ b, f b ≠ c) → occurrences c (map f l) = 0%nat.
Proof.
  intros Hne. unfold occurrences. induction l as [|b l IH]; [done|]. simpl.
  rewrite filter_cons_False; [done|]. apply Hne.
Qed.

Lemma occurrences_zero {A} `{EqDecision A} (a : A) l :
  occurrences a l = 0%nat ↔ a ∉ l.
Proof.
  unfold occurrences. induction l as [|b l IH]; simpl.
  - split; [intros _; apply not_elem_of_nil | done].
  - destruct (decide (b = a)) as [->|Hne].
    + rewrite filter_cons_True by done. simpl. split; [done|].
      intros H. exfalso. apply H. left.
    + rewrite filter_cons_False by done. rewrite IH. rewrite not_elem_of_cons.
      split; [intros Hn; split; [congruence | done] | intros [_ Hn]; done].
Qed.

(** C7, amended.  [Slot::isValid] retains the trackers one by one up to
    the first one whose [retain] fails; it then releases exactly the
    trackers before that one, not the one that failed, and returns false.
    When no [retain] fails it releases every tracker and returns the
    slot-specific validity.  Either way every tracker is released as
    often as its [retain] succeeded, and nothing but the intrusive counts
    and the trace is touched on the way.  When the counts are
    non-negative with room for one retain per tracker, every count is
    afterwards what it was. *)
Theorem Slot_isValid_balanced (x : SlotId) (w : World) (sl : Slot) :
  slots w !! x = Some sl →
  let trs := m_trackers sl in
  let r := Slot_isValid x w in
  ∃ evs,
    log r.2 = log w ++ evs
    ∧ ((∃ k tr, trs !! k = Some tr ∧ r.1 = false
                ∧ evs = retain_trace k trs ++ [EvRetain tr false]
                          ++ map EvRelease (take k trs))
       ∨ (r.1 = isValidOverride sl
          ∧ evs = retain_trace (length trs) trs ++ map EvRelease trs))
    ∧ (∀ tr, occurrences (EvRelease tr) evs = occurrences (EvRetain tr true) evs)
    ∧ same_but_trackables_log w r.2
    ∧ (counts_in_range (Z.of_nat (length trs)) (trackables w) →
       trackables r.2 = trackables w).
Proof.
  intros Hx trs r. subst r. unfold Slot_isValid. rewrite Hx. fold trs.
  pose proof (find_if_retain_log trs w) as Hlog.
  pose proof (find_if_retain_bumped (Z.of_nat (length trs)) (trackables w) trs (λ _, 0) w)
    as Hbump.
  assert (Hb0 : bumped (λ _, 0) (trackables w) (trackables w)).
  { intros t. destruct (trackables w !! t) as [[l z]|]; simpl; [|done].
    unfold set_refCount. simpl. do 2 f_equal. lia. }
  assert (Hinj1 : ∀ a b, EvRelease b = EvRelease a → b = a) by (intros ?? [=]; done).
  assert (Hinj2 : ∀ a b, EvRetain b true = EvRetain a true → b = a) by (intros ?? [=]; done).
  destruct (find_if retain_fails trs w) as [[k|] w1]; simpl.
  - destruct Hlog as (tr & Hk & Hl & Hs).
    pose proof (for_each_release_log (take k trs) w1) as [Hl2 Hs2].
    exists (retain_trace k trs ++ [EvRetain tr false] ++ map EvRelease (take k trs)).
    split; [rewrite Hl2, Hl; by rewrite <- !app_assoc|].
    split; [left; eauto|].
    split.
    { intros tr'. rewrite !occurrences_app. unfold retain_trace.
      rewrite (occurrences_map_inj EvRelease) by auto.
      rewrite (occurrences_map_inj (λ t, EvRetain t true)) by auto.
      rewrite (occurrences_map_none (λ t, EvRetain t true) (EvRelease tr')) by done.
      rewrite (occurrences_map_none EvRelease (EvRetain tr' true)) by done.
      assert (H1 : occurrences (EvRelease tr') [EvRetain tr false] = 0%nat)
        by (apply occurrences_zero; rewrite list_elem_of_singleton; done).
      assert (H2 : occurrences (EvRetain tr' true) [EvRetain tr false] = 0%nat)
        by (apply occurrences_zero; rewrite list_elem_of_singleton; done).
      rewrite H1, H2. clear. lia. }
    split.
    { destruct Hs as (?&?&?&?&?), Hs2 as (?&?&?&?&?). repeat split; congruence. }
    intros Hr. apply bumped_zero.
    apply (for_each_release_bumped (Z.of_nat (length trs)) _ (take k trs) (λ _, 0)); [|done|].
    + apply Hbump; [done|done|]. intros _. lia.
    + intros t. pose proof (cnt_le_length (take k trs) t) as H1.
      pose proof (cnt_nonneg (take k trs) t) as H2. rewrite length_take in H1.
      clear -H1 H2. lia.
  - destruct Hlog as (Hl & Hs).
    pose proof (for_each_release_log trs w1) as [Hl2 Hs2].
    exists (retain_trace (length trs) trs ++ map EvRelease trs).
    split; [rewrite Hl2, Hl; by rewrite <- !app_assoc|].
    split; [right; done|].
    split.
    { intros tr'. rewrite !occurrences_app. unfold retain_trace. rewrite firstn_all.
      rewrite (occurrences_map_inj EvRelease) by auto.
      rewrite (occurrences_map_inj (λ t, EvRetain t true)) by auto.
      rewrite (occurrences_map_none (λ t, EvRetain t true) (EvRelease tr')) by done.
      rewrite (occurrences_map_none EvRelease (EvRetain tr' true)) by done. lia. }
    split.
    { destruct Hs as (?&?&?&?&?), Hs2 as (?&?&?&?&?). repeat split; congruence. }
    intros Hr. apply bumped_zero.
    apply (for_each_release_bumped (Z.of_nat (length trs)) _ trs (λ _, 0)); [|done|].
    + apply Hbump; [done|done|]. intros _. lia.
    + intros t. pose proof (cnt_le_length trs t) as H1.
      pose proof (cnt_nonneg trs t) as H2. clear -H1 H2. lia.
Qed.

(** * Facts about [Slot::disconnect] *)

Lemma Slot_disconnect_signals x w : signals (Slot_disconnect x w) = signals w.
Proof.
  destruct (slots w !! x) as [sl|] eqn:E.
  - by rewrite (Slot_disconnect_eq _ _ _ E).
  - by rewrite Slot_disconnect_missing.
Qed.

Lemma Slot_disconnect_slots x w :
  slots (Slot_disconnect x w)
  = alter (λ sl, mkSlot (m_kind sl) [] (m_isEnabled sl) false) x (slots w).
Proof.
  destruct (slots w !! x) as [sl|] eqn:E.
  - rewrite (Slot_disconnect_eq _ _ _ E). simpl. by rewrite alter_alter_eq.
  - rewrite Slot_disconnect_missing by done. by rewrite alter_id'.
Qed.

Lemma Slot_disconnect_lookup x w y :
  slots (Slot_disconnect x w) !! y
  = if decide (x = y)
    then (λ sl, mkSlot (m_kind sl) [] (m_isEnabled sl) false) <$> slots w !! y
    else slots w !! y.
Proof. rewrite Slot_disconnect_slots, lookup_alter. by case_decide; subst. Qed.

Lemma Slot_disconnect_alive x w : alive (Slot_disconnect x w) = alive w.
Proof.
  destruct (slots w !! x) as [sl|] eqn:E.
  - by rewrite (Slot_disconnect_eq _ _ _ E).
  - by rewrite Slot_disconnect_missing.
Qed.

Lemma Slot_disconnect_counter x w : counter (Slot_disconnect x w) = counter w.
Proof.
  destruct (slots w !! x) as [sl|] eqn:E.
  - by rewrite (Slot_disconnect_eq _ _ _ E).
  - by rewrite Slot_disconnect_missing.
Qed.

Lemma Slot_disconnect_active x w :
  activeConnection (Slot_disconnect x w) = activeConnection w.
Proof.
  destruct (slots w !! x) as [sl|] eqn:E.
  - by rewrite (Slot_disconnect_eq _ _ _ E).
  - by rewrite Slot_disconnect_missing.
Qed.

Lemma Slot_disconnect_log x w :
  log (Slot_disconnect x w)
  = log w ++ match slots w !! x with
             | Some sl => disconnect_trace x (m_trackers sl)
             | None => []
             end.
Proof.
  destruct (slots w !! x) as [sl|] eqn:E.
  - by rewrite (Slot_disconnect_eq _ _ _ E).
  - rewrite Slot_disconnect_missing by done. by rewrite app_nil_r.
Qed.

Lemma detach_trackables_cons x tr trs m :
  detach_trackables x (tr :: trs) m
  = detach_trackables x trs
      match tr with
      | TrackableTracker t => alter (Trackable_detach (Some x)) t m
      | _ => m
      end.
Proof. done. Qed.

Lemma detach_trackables_dom x trs m t :
  is_Some (detach_trackables x trs m !! t) ↔ is_Some (m !! t).
Proof.
  revert m. induction trs as [|tr trs IH]; intros m; [done|].
  rewrite detach_trackables_cons, IH. destruct tr; try done.
  by rewrite lookup_alter_is_Some.
Qed.

Lemma Slot_disconnect_trackables_dom x w t :
  is_Some (trackables (Slot_disconnect x w) !! t) ↔ is_Some (trackables w !! t).
Proof.
  destruct (slots w !! x) as [sl|] eqn:E.
  - rewrite (Slot_disconnect_eq _ _ _ E). simpl. apply detach_trackables_dom.
  - by rewrite Slot_disconnect_missing.
Qed.

Lemma Slot_disconnect_isConnected x w : Slot_isConnected (Slot_disconnect x w) x = false.
Proof.
  unfold Slot_isConnected. rewrite Slot_disconnect_lookup, decide_True by done.
  by destruct (slots w !! x).
Qed.



(** * Signal::disconnect *)

Lemma Connection_disconnect_signals c w : signals (Connection_disconnect c w) = signals w.
Proof.
  unfold Connection_disconnect. destruct (weak_lock _ _); [|done].
  apply Slot_disconnect_signals.
Qed.

Lemma Signal_disconnect_signals s c w :
  signals (Signal_disconnect s c w)
  = alter (λ sg, set_m_slots (erase (m_slots sg) (Connection_get w c)) sg) s (signals w).
Proof.
  unfold Signal_disconnect. simpl. by rewrite Connection_disconnect_signals.
Qed.

Lemma occurrences_filter_ne {A} `{EqDecision A} (a p : A) (l : list A) :
  p ≠ a → occurrences p (filter (λ b, b ≠ a) l) = occurrences p l.
Proof.
  intros Hne. unfold occurrences. rewrite list_filter_filter.
  f_equal. apply list_filter_iff. intros b. split; [by intros [? ?]|].
  intros ->. done.
Qed.

Lemma filter_ne_id {A} `{EqDecision A} (a : A) (l : list A) :
  a ∉ l → filter (λ b, b ≠ a) l = l.
Proof.
  induction l as [|b l IH]; [done|]. rewrite not_elem_of_cons. intros [Hne Hl].
  rewrite filter_cons_True by done. by rewrite IH.
Qed.


(** C10. [Signal::disconnect(connection)] removes every occurrence of the
    slot the connection resolves to from the signal's sequence and keeps
    all other entries, in their order; when the resolved pointer does not
    occur in the sequence, the sequence is unchanged.  Other signals keep
    their sequences. *)
Theorem Signal_disconnect_erases_all (s : SigId) (c : Connection) (w : World) (sg : Signal) :
  signals w !! s = Some sg →
  let slot := Connection_get w c in
  let w' := Signal_disconnect s c w in
  ∃ sg', signals w' !! s = Some sg'
    ∧ m_slots sg' = filter (λ p, p ≠ slot) (m_slots sg)
    ∧ (slot ∉ m_slots sg')
    ∧ (∀ p, p ≠ slot → occurrences p (m_slots sg') = occurrences p (m_slots sg))
    ∧ sublist (m_slots sg') (m_slots sg)
    ∧ (slot ∉ m_slots sg → m_slots sg' = m_slots sg)
    ∧ (∀ s', s' ≠ s → signals w' !! s' = signals w !! s').
Proof.
  intros Hs slot w'. subst w'. rewrite Signal_disconnect_signals. fold slot.
  exists (set_m_slots (erase (m_slots sg) slot) sg).
  rewrite lookup_alter_eq, Hs. simpl. rewrite erase_filter.
  split; [done|]. split; [done|]. split.
  { rewrite list_elem_of_filter. by intros [? _]. }
  split; [intros p Hp; by apply occurrences_filter_ne|].
  split; [apply sublist_filter|].
  split; [apply filter_ne_id|].
  intros s' Hne. by rewrite lookup_alter_ne.
Qed.

(** * Connection::disconnect, both variants *)

(** C6, as stated, fails: on a default-constructed connection the
    [disconnect] of connection.hpp stops at its assertion (or, with the
    assertion compiled out, dereferences the null pointer); it does not
    return. *)
Lemma Connection_disconnect_invalid_aborts :
  sywu.disconnect true (sywu.mkConnection None None) empty_world = Fault AssertFailed
  ∧ sywu.disconnect false (sywu.mkConnection None None) empty_world = Fault NullDeref
  ∧ ¬ (∃ checked c', sywu.disconnect checked (sywu.mkConnection None None) empty_world
                     = Ok c' empty_world).
Proof.
  split; [done|]. split; [done|]. intros ([|] & c' & H); discriminate H.
Qed.

(** C6, amended.  Both variants resolve the weak slot reference and call
    the slot's [disconnect()] when a slot is present.  The variant of
    connection.hpp then clears the connection (slot and sender) and
    requires a live slot: without one the call does not return.  The
    variant of core/signal.hpp keeps its slot reference, reports not-live
    afterwards, and does nothing on a connection without a live slot. *)
Theorem Connection_disconnect_variants (w : World) (checked : bool)
    (c : sywu.Connection) (c' : Connection) :
  match weak_lock (sywu.m_slot c) w with
  | Some x =>
      sywu.disconnect checked c w
      = Ok (sywu.mkConnection None None) (Slot_disconnect x w)
      ∧ Slot_isConnected (Slot_disconnect x w) x = false
  | None =>
      sywu.disconnect checked c w
      = Fault (if checked then AssertFailed else NullDeref)
  end
  ∧ match weak_lock (m_slot c') w with
    | Some x =>
        Connection_disconnect c' w = Slot_disconnect x w
        ∧ Connection_get (Connection_disconnect c' w) c' = Some x
        ∧ Connection_bool (Connection_disconnect c' w) c' = false
    | None => Connection_disconnect c' w = w
    end.
Proof.
  split.
  - unfold sywu.disconnect. destruct (weak_lock _ _) as [x|]; [|by destruct checked].
    split; [done|]. apply Slot_disconnect_isConnected.
  - unfold Connection_disconnect. destruct (weak_lock (m_slot c') w) as [x|] eqn:E; [|done].
    split; [done|].
    assert (Hl : weak_lock (m_slot c') (Slot_disconnect x w) = Some x).
    { unfold weak_lock in *. destruct (m_slot c') as [y|]; [|done].
      destruct (slots w !! y) eqn:Ey; [|done]. injection E as ->.
      rewrite Slot_disconnect_lookup, decide_True, Ey by done. done. }
    unfold Connection_get, Connection_bool. rewrite Hl.
    split; [done|]. apply Slot_disconnect_isConnected.
Qed.

(** * More on [Slot::disconnect] *)

Lemma occurrences_cons {A} `{EqDecision A} (a b : A) l :
  occurrences a (b :: l) = ((if decide (b = a) then 1 else 0) + occurrences a l)%nat.
Proof.
  unfold occurrences. destruct (decide (b = a)).
  - by rewrite filter_cons_True.
  - by rewrite filter_cons_False.
Qed.

Lemma occurrences_erase_first {A} `{EqDecision A} (a : A) l :
  occurrences a (erase_first l a) = pred (occurrences a l).
Proof.
  induction l as [|b l IH]; [done|]. simpl. rewrite occurrences_cons.
  destruct (decide (b = a)); [done|]. by rewrite occurrences_cons, decide_False.
Qed.

Lemma occurrences_iter_erase_first {A} `{EqDecision A} (a : A) n l :
  occurrences a (Nat.iter n (λ l, erase_first l a) l) = (occurrences a l - n)%nat.
Proof.
  induction n as [|n IH]; simpl; [lia|]. rewrite occurrences_erase_first, IH. lia.
Qed.

Lemma detach_trackables_lookup x trs : ∀ m t,
  detach_trackables x trs m !! t
  = (λ tk, set_tk_slots
             (Nat.iter (occurrences (TrackableTracker t) trs)
                       (λ l, erase_first l (Some x)) (tk_slots tk)) tk) <$> m !! t.
Proof.
  induction trs as [|tr trs IH]; intros m t.
  { simpl. destruct (m !! t) as [[]|]; done. }
  rewrite detach_trackables_cons, IH, occurrences_cons.
  destruct tr as [o|o|t']; try (rewrite decide_False by done; done).
  rewrite lookup_alter. destruct (decide (t' = t)) as [->|Hne].
  - rewrite decide_True by done. destruct (m !! t) as [tk|]; [|done]. simpl.
    f_equal. unfold set_tk_slots. simpl. f_equal.
    apply (Nat.iter_swap _ _ (λ l, erase_first l (Some x))).
  - rewrite decide_False by congruence. done.
Qed.

Lemma Slot_disconnect_twice x w :
  let w1 := Slot_disconnect x w in
  let w2 := Slot_disconnect x w1 in
  slots w2 = slots w1 ∧ signals w2 = signals w1 ∧ trackables w2 = trackables w1
  ∧ alive w2 = alive w1 ∧ counter w2 = counter w1
  ∧ activeConnection w2 = activeConnection w1
  ∧ log w2 = log w1 ++ match slots w !! x with
                       | Some _ => disconnect_trace x []
                       | None => []
                       end.
Proof.
  intros w1 w2. subst w2.
  rewrite Slot_disconnect_signals, Slot_disconnect_alive, Slot_disconnect_counter,
    Slot_disconnect_active, Slot_disconnect_log.
  assert (Hx : slots w1 !! x
               = (λ sl, mkSlot (m_kind sl) [] (m_isEnabled sl) false) <$> slots w !! x).
  { subst w1. by rewrite Slot_disconnect_lookup, decide_True. }
  destruct (slots w !! x) as [sl|] eqn:E; simpl in Hx.
  - rewrite (Slot_disconnect_eq x w1 _ Hx). simpl. rewrite Hx. simpl.
    repeat split; try done.
    apply map_eq. intros i. rewrite alter_alter_eq, lookup_alter.
    case_decide; [|done]. subst. rewrite Hx. done.
  - rewrite (Slot_disconnect_missing x w1 Hx). rewrite Hx. by rewrite app_nil_r.
Qed.

(** * Disconnected slots and the connections that refer to them *)

Lemma disconnected_Slot_disconnect x w : disconnected (Slot_disconnect x w) x.
Proof.
  intros sl. rewrite Slot_disconnect_lookup, decide_True by done.
  destruct (slots w !! x); [|done]. simpl. by intros [= <-].
Qed.

Lemma disconnected_preserved x y w :
  disconnected w y → disconnected (Slot_disconnect x w) y.
Proof.
  intros Hd. destruct (decide (x = y)) as [->|Hne].
  - apply disconnected_Slot_disconnect.
  - intros sl. rewrite Slot_disconnect_lookup, decide_False by done. apply Hd.
Qed.

Lemma disconnected_not_connected w x : disconnected w x → Slot_isConnected w x = false.
Proof.
  intros Hd. unfold Slot_isConnected. destruct (slots w !! x) as [sl|] eqn:E; [|done].
  destruct (Hd _ E) as [-> _]. done.
Qed.

Lemma disconnected_not_valid w x : disconnected w x → (Slot_isValid x w).1 = false.
Proof.
  intros Hd. unfold Slot_isValid. destruct (slots w !! x) as [sl|] eqn:E; [|done].
  destruct (Hd _ E) as [Hc ->]. simpl. done.
Qed.

Lemma disconnected_subseteq w w' x :
  slots w' ⊆ slots w → disconnected w x → disconnected w' x.
Proof.
  intros Hsub Hd sl Hsl. apply Hd. eapply lookup_weaken; done.
Qed.

Lemma disconnected_Connection_bool w x (c : Connection) :
  disconnected w x → m_slot c = Some x → Connection_bool w c = false.
Proof.
  intros Hd Hc. unfold Connection_bool, weak_lock. rewrite Hc.
  destruct (slots w !! x); [|done]. by apply disconnected_not_connected.
Qed.

Lemma disconnected_to_bool w x (c : sywu.Connection) :
  disconnected w x → sywu.m_slot c = Some x → (sywu.to_bool c w).1 = false.
Proof.
  intros Hd Hc. unfold sywu.to_bool, weak_lock. rewrite Hc.
  destruct (sywu.m_sender c); [|done].
  destruct (slots w !! x); [|done]. by apply disconnected_not_valid.
Qed.

(** * SignalConcept::~SignalConcept *)

Lemma disconnect_trace_slot_events x trs : Forall slot_event (disconnect_trace x trs).
Proof.
  unfold disconnect_trace. apply Forall_app. split; [by repeat constructor|].
  apply Forall_app. split; [|by repeat constructor].
  apply Forall_forall. intros e. rewrite list_elem_of_In, in_map_iff.
  intros (tr & <- & _). done.
Qed.

Lemma destroy_loop_spec s : ∀ l fuel w sg,
  signals w !! s = Some sg → m_slots sg = l →
  (length l ≤ fuel)%nat → Forall is_Some l →
  ∃ w' evs,
    destroy_loop fuel s w = Ok tt w'
    ∧ signals w' = alter (set_m_slots []) s (signals w)
    ∧ log w' = log w ++ evs
    ∧ Forall slot_event evs
    ∧ (∀ x, Some x ∈ l → is_Some (slots w !! x) → EvDisconnectOverride x ∈ evs)
    ∧ (∀ x, Some x ∈ l → disconnected w' x)
    ∧ (∀ x, disconnected w x → disconnected w' x).
Proof.
  induction l as [|p l IH] using rev_ind; intros fuel w sg Hs Hl Hfuel Hsome.
  - exists w, []. destruct fuel; simpl; rewrite Hs, Hl; simpl.
    all: split; [done|]; split.
    all: try (symmetry; apply alter_id; intros sg' Hsg'; rewrite Hs in Hsg';
              injection Hsg' as <-; destruct sg; simpl in *; by subst).
    all: split; [by rewrite app_nil_r|]; split; [done|].
    all: split; [intros x Hx; by apply elem_of_nil in Hx|].
    all: split; [intros x Hx; by apply elem_of_nil in Hx|done].
  - rewrite length_app in Hfuel. simpl in Hfuel.
    destruct fuel as [|fuel]; [lia|].
    apply Forall_app in Hsome as [Hsome Hp]. apply Forall_singleton in Hp as [x ->].
    simpl. rewrite Hs, Hl, last_snoc.
    set (w1 := set_signals _ w).
    assert (Hs1 : signals w1 !! s = Some (set_m_slots l sg)).
    { subst w1. simpl. rewrite lookup_alter_eq, Hs. simpl. rewrite Hl.
      unfold pop_back. by rewrite removelast_last. }
    assert (Hs2 : signals (Slot_disconnect x w1) !! s = Some (set_m_slots l sg))
      by (by rewrite Slot_disconnect_signals).
    destruct (IH fuel (Slot_disconnect x w1) _ Hs2 eq_refl ltac:(lia) Hsome)
      as (w' & evs & Hrun & Hsig & Hlog & Hev & Hov & Hdis & Hpres).
    exists w', (match slots w !! x with
                | Some sl => disconnect_trace x (m_trackers sl) | None => [] end ++ evs).
    split; [done|]. split.
    { rewrite Hsig, Slot_disconnect_signals. subst w1. simpl.
      rewrite alter_alter_eq. apply map_eq. intros i. rewrite !lookup_alter.
      case_decide; [|done]. by destruct (signals w !! s). }
    split.
    { rewrite Hlog, Slot_disconnect_log. subst w1. simpl. by rewrite app_assoc. }
    split.
    { apply Forall_app. split; [|done]. destruct (slots w !! x); [|done].
      apply disconnect_trace_slot_events. }
    split.
    { intros y Hy Hex. apply elem_of_app in Hy as [Hy|Hy].
      - apply elem_of_app. right. apply Hov; [done|].
        rewrite Slot_disconnect_lookup. subst w1. simpl.
        case_decide; [subst; by apply fmap_is_Some|done].
      - apply list_elem_of_singleton in Hy as [= ->]. apply elem_of_app. left.
        destruct Hex as [sl ->]. unfold disconnect_trace.
        rewrite !elem_of_app. right. right. left. }
    split.
    { intros y Hy. apply elem_of_app in Hy as [Hy|Hy]; [by apply Hdis|].
      apply list_elem_of_singleton in Hy as [= ->].
      apply Hpres, disconnected_Slot_disconnect. }
    intros y Hy. apply Hpres, disconnected_preserved. done.
Qed.

(** C5. Destroying a signal whose container holds no null pointer
    returns; under the signal's lock ([evs] lies between the lock and the
    unlock and consists of slot-level calls) every slot of the container is
    disconnected, and afterwards, also once slots have been reclaimed,
    every connection of either variant that refers to one of those slots
    reports not-live. *)
Theorem Signal_destroy_invalidates (s : SigId) (w : World) (sg : Signal) :
  signals w !! s = Some sg →
  Forall is_Some (m_slots sg) →
  ∃ w' evs,
    Signal_destroy s w = Ok tt w'
    ∧ signals w' !! s = None
    ∧ log w' = log w ++ [EvLock (LSignal s)] ++ evs ++ [EvUnlock (LSignal s)]
    ∧ Forall slot_event evs
    ∧ (∀ x, Some x ∈ m_slots sg → is_Some (slots w !! x) → EvDisconnectOverride x ∈ evs)
    ∧ (∀ x w'', Some x ∈ m_slots sg → slots w'' ⊆ slots w' →
         (∀ c : Connection, m_slot c = Some x → Connection_bool w'' c = false)
         ∧ (∀ c : sywu.Connection, sywu.m_slot c = Some x →
              (sywu.to_bool c w'').1 = false)).
Proof.
  intros Hs Hsome. unfold Signal_destroy. rewrite Hs.
  destruct (destroy_loop_spec s (m_slots sg) (length (m_slots sg))
              (record (EvLock (LSignal s)) w) sg Hs eq_refl (le_n _) Hsome)
    as (w1 & evs & Hrun & Hsig & Hlog & Hev & Hov & Hdis & _).
  rewrite Hrun. simpl.
  eexists _, evs. split; [done|]. simpl.
  split; [by rewrite lookup_delete_eq|].
  split; [rewrite Hlog; simpl; by rewrite <- !app_assoc|].
  split; [done|]. split; [exact Hov|].
  intros x w'' Hx Hsub.
  assert (Hd : disconnected w'' x).
  { eapply disconnected_subseteq; [exact Hsub|]. intros sl Hsl. by apply (Hdis x Hx). }
  split; intros c Hc.
  - by eapply disconnected_Connection_bool.
  - by eapply disconnected_to_bool.
Qed.

(** * Trackable::disconnectSlots and Trackable::~Trackable *)

Lemma iter_erase_first_sublist {A} `{EqDecision A} (a : A) n l :
  sublist (Nat.iter n (λ l, erase_first l a) l) l.
Proof.
  induction n as [|n IH]; simpl; [done|].
  etrans; [|exact IH]. generalize (Nat.iter n (λ l0, erase_first l0 a) l).
  intros l'. induction l' as [|b l' IH']; simpl; [done|].
  destruct (decide (b = a)); [by apply sublist_cons|by apply sublist_skip].
Qed.

Lemma erase_first_elem_ne {A} `{EqDecision A} (a b : A) l :
  b ≠ a → b ∈ l → b ∈ erase_first l a.
Proof.
  intros Hne. induction l as [|c l IH]; simpl; [done|].
  rewrite elem_of_cons. intros [->|Hin].
  - rewrite decide_False by done. left.
  - destruct (decide (c = a)); [done|]. right. by apply IH.
Qed.

Lemma iter_erase_first_elem_ne {A} `{EqDecision A} (a b : A) n l :
  b ≠ a → b ∈ l → b ∈ Nat.iter n (λ l, erase_first l a) l.
Proof.
  intros Hne Hin. induction n as [|n IH]; simpl; [done|].
  by apply erase_first_elem_ne.
Qed.

Lemma Slot_disconnect_trackables_lookup x w t :
  ∃ n, trackables (Slot_disconnect x w) !! t
       = (λ tk, set_tk_slots (Nat.iter n (λ l, erase_first l (Some x)) (tk_slots tk)) tk)
           <$> trackables w !! t.
Proof.
  destruct (slots w !! x) as [sl|] eqn:E.
  - rewrite (Slot_disconnect_eq _ _ _ E). simpl. eexists. apply detach_trackables_lookup.
  - rewrite Slot_disconnect_missing by done. exists 0%nat. simpl.
    by destruct (trackables w !! t) as [[]|].
Qed.

Lemma trackers_shrink_Slot_disconnect x w : trackers_shrink w (Slot_disconnect x w).
Proof.
  intros y sl'. rewrite Slot_disconnect_lookup. case_decide.
  - subst. destruct (slots w !! y) as [sl|]; [|done]. simpl. intros [= <-].
    exists sl. split; [done|]. by right.
  - intros ->. eexists. split; [done|]. by left.
Qed.

Lemma trackers_shrink_trans w1 w2 w3 :
  trackers_shrink w1 w2 → trackers_shrink w2 w3 → trackers_shrink w1 w3.
Proof.
  intros H12 H23 x sl3 H3. destruct (H23 _ _ H3) as (sl2 & H2 & Ht).
  destruct (H12 _ _ H2) as (sl1 & H1 & Ht'). exists sl1. split; [done|].
  destruct Ht as [->| ->]; [done|by right].
Qed.

Lemma disconnectSlots_loop_spec t : ∀ fuel w tk,
  trackables w !! t = Some tk →
  (length (tk_slots tk) ≤ fuel)%nat → Forall is_Some (tk_slots tk) →
  ∃ w',
    disconnectSlots_loop fuel t w = Ok tt w'
    ∧ (∃ tk', trackables w' !! t = Some tk' ∧ tk_slots tk' = [])
    ∧ (∀ x, Some x ∈ tk_slots tk → disconnected w' x)
    ∧ (∀ x, disconnected w x → disconnected w' x)
    ∧ trackers_shrink w w'
    ∧ signals w' = signals w.
Proof.
  induction fuel as [|fuel IH]; intros w tk Ht Hfuel Hsome.
  - destruct (tk_slots tk) as [|p l] eqn:El; [|simpl in Hfuel; lia].
    exists w. simpl. rewrite Ht, El. simpl. split; [done|].
    split; [by exists tk|]. split; [intros x Hx; by apply elem_of_nil in Hx|].
    split; [done|]. split; [|done]. intros x sl' ?. exists sl'. auto.
  - simpl. rewrite Ht.
    destruct (last (tk_slots tk)) as [p|] eqn:Elast.
    2:{ apply last_None in Elast. exists w. split; [done|].
        split; [by exists tk|]. rewrite Elast.
        split; [intros x Hx; by apply elem_of_nil in Hx|].
        split; [done|]. split; [|done]. intros x sl' ?. exists sl'. auto. }
    apply last_Some in Elast as [l El]. rewrite El in Hsome, Hfuel.
    rewrite length_app in Hfuel. simpl in Hfuel.
    apply Forall_app in Hsome as [Hsome Hp]. apply Forall_singleton in Hp as [x ->].
    set (w1 := set_trackables _ w).
    assert (Ht1 : trackables w1 !! t = Some (set_tk_slots l tk)).
    { subst w1. simpl. rewrite lookup_alter_eq, Ht. simpl. rewrite El.
      unfold pop_back. by rewrite removelast_last. }
    destruct (Slot_disconnect_trackables_lookup x w1 t) as [n Hn].
    rewrite Ht1 in Hn. simpl in Hn.
    pose proof (iter_erase_first_sublist (Some x) n l) as Hsub.
    destruct (IH (Slot_disconnect x w1) _ Hn) as (w' & Hrun & Hempty & Hdis & Hpres & Hshr & Hsig).
    { apply sublist_length in Hsub.
      change (length (Nat.iter n (λ l, erase_first l (Some x)) l) ≤ fuel)%nat.
      lia. }
    { change (Forall is_Some (Nat.iter n (λ l, erase_first l (Some x)) l)).
      rewrite Forall_forall in Hsome |- *. intros z Hz. apply Hsome.
      eapply elem_of_sublist; done. }
    exists w'. split; [done|]. split; [done|]. split.
    { intros y. rewrite El, elem_of_app, list_elem_of_singleton. intros [Hy|[= ->]].
      - destruct (decide (y = x)) as [->|Hne].
        + apply Hpres, disconnected_Slot_disconnect.
        + apply Hdis.
          change (Some y ∈ Nat.iter n (λ l, erase_first l (Some x)) l).
          apply iter_erase_first_elem_ne; [congruence|done].
      - apply Hpres, disconnected_Slot_disconnect. }
    split; [intros y Hy; by apply Hpres, disconnected_preserved|].
    split.
    { eapply trackers_shrink_trans; [|exact Hshr].
      eapply trackers_shrink_trans; [|apply trackers_shrink_Slot_disconnect].
      intros y sl' Hy. exists sl'. auto. }
    by rewrite Hsig, Slot_disconnect_signals.
Qed.

(** C9. [disconnectSlots()] on a trackable whose list holds no null
    pointer returns with the list empty and every slot that was attached
    disconnected and without trackers; when every slot tracking the
    trackable was attached to it, no slot is left with a tracker on it.
    The destructor does exactly that before the object goes away. *)
Theorem Trackable_destroy_detaches (t : TrackableId) (w : World) (tk : Trackable) :
  trackables w !! t = Some tk →
  Forall is_Some (tk_slots tk) →
  ∃ w1,
    Trackable_disconnectSlots t w = Ok tt w1
    ∧ (∃ tk1, trackables w1 !! t = Some tk1 ∧ tk_slots tk1 = [])
    ∧ (∀ x, Some x ∈ tk_slots tk →
         Slot_isConnected w1 x = false
         ∧ ∀ sl, slots w1 !! x = Some sl → m_trackers sl = [])
    ∧ ((∀ x sl, slots w !! x = Some sl → TrackableTracker t ∈ m_trackers sl →
                Some x ∈ tk_slots tk) →
       ∀ x sl, slots w1 !! x = Some sl → TrackableTracker t ∉ m_trackers sl)
    ∧ Trackable_destroy t w = Ok tt (set_trackables (delete t) w1)
    ∧ trackables (set_trackables (delete t) w1) !! t = None.
Proof.
  intros Ht Hsome.
  destruct (disconnectSlots_loop_spec t (length (tk_slots tk)) w tk Ht (le_n _) Hsome)
    as (w1 & Hrun & Hempty & Hdis & _ & Hshr & _).
  assert (Hrun' : Trackable_disconnectSlots t w = Ok tt w1)
    by (unfold Trackable_disconnectSlots; by rewrite Ht).
  exists w1. split; [done|]. split; [done|]. split.
  { intros x Hx. split; [by apply disconnected_not_connected, Hdis|].
    intros sl Hsl. by destruct (Hdis x Hx sl Hsl). }
  split.
  { intros Hwf x sl1 Hsl1 Hin. destruct (Hshr _ _ Hsl1) as (sl & Hsl & [Heq|Heq]).
    - pose proof Hin as Hin'. rewrite Heq in Hin'. pose proof (Hwf _ _ Hsl Hin') as Hx.
      destruct (Hdis x Hx _ Hsl1) as [_ Hnil]. rewrite Hnil in Hin.
      by apply elem_of_nil in Hin.
    - rewrite Heq in Hin. by apply elem_of_nil in Hin. }
  split; [unfold Trackable_destroy; by rewrite Hrun'|].
  simpl. by rewrite lookup_delete_eq.
Qed.

(** * Proof rules for the emission *)

Lemma Slot_isConnected_same w w' x :
  slots w' = slots w → alive w' = alive w → trackables w' = trackables w →
  Slot_isConnected w' x = Slot_isConnected w x.
Proof.
  intros Hs Ha Ht. unfold Slot_isConnected. rewrite Hs.
  destruct (slots w !! x) as [sl|]; [|done]. f_equal.
  induction (m_trackers sl) as [|tr l IH]; [done|]. simpl. rewrite IH. f_equal.
  destruct tr; simpl; by rewrite ?Ha, ?Ht.
Qed.

Section rules.
Variable emit_rec : SigId → Args → World → Result nat.
Variable F : Prop.
Variable I : World → Prop.

Hypothesis I_atomic : ∀ w w', atomic w w' → I w → I w'.
Hypothesis I_emit : ∀ s a w, I w →
  match emit_rec s a w with
  | Ok n w' => I (record (EvEmitted s a n) w')
  | Throw _ w' => I w'
  | Fault _ => True
  | OutOfFuel => F
  end.
Hypothesis I_forward : ∀ s a w, I w → post_gen F I (emit_rec s a w).

Lemma I_Connection_disconnect c w : I w → I (Connection_disconnect c w).
Proof.
  intros H. unfold Connection_disconnect. destruct (weak_lock _ _); [|done].
  eapply I_atomic; [apply at_disconnect|done].
Qed.

Lemma I_Signal_disconnect s c w : I w → I (Signal_disconnect s c w).
Proof.
  intros H. unfold Signal_disconnect.
  eapply I_atomic; [apply at_unlock|].
  eapply I_atomic; [apply (at_m_slots s (λ l, erase l _))|].
  apply I_Connection_disconnect.
  eapply I_atomic; [apply at_lock|done].
Qed.

Lemma I_connect_function s f w : I w → post_gen F I (connect_function s f w).
Proof.
  intros H. unfold connect_function.
  pose proof (I_atomic _ _ (at_make_shared (FunctionSlot f) w) H) as H1.
  destruct (make_shared (FunctionSlot f) w) as [x w1]. simpl in H1.
  unfold addSlot. destruct (signals w1 !! s); [|done]. simpl.
  eapply I_atomic; [apply at_unlock|].
  eapply I_atomic; [apply (at_m_slots s (λ l, l ++ [Some x]))|].
  eapply I_atomic; [apply at_lock|done].
Qed.

Lemma run_action_rule act args w : I w → post_gen F I (run_action emit_rec act args w).
Proof.
  intros H. destruct act as [i|s f|c| |s c|s a|o|e]; simpl.
  - eapply I_atomic; [apply at_counter|done].
  - pose proof (I_connect_function s f w H) as Hc.
    destruct (connect_function s f w); done.
  - by apply I_Connection_disconnect.
  - by apply I_Connection_disconnect.
  - destruct (signals w !! s); [|done]. by apply I_Signal_disconnect.
  - pose proof (I_emit s a w H) as He. destruct (emit_rec s a w); done.
  - eapply I_atomic; [apply at_alive|done].
  - done.
Qed.

Lemma run_actions_rule acts args : ∀ w, I w → post_gen F I (run_actions emit_rec acts args w).
Proof.
  induction acts as [|act acts IH]; intros w H; [done|]. simpl.
  pose proof (run_action_rule act args w H) as Ha.
  destruct (run_action emit_rec act args w); simpl; try done.
  by apply IH.
Qed.

Lemma activate_rule x args w : I w → post_gen F I (activate emit_rec x args w).
Proof.
  intros H. unfold activate, activateOverride.
  destruct (slots w !! x) as [sl|]; [|done].
  destruct (m_kind sl) as [f|target f|receiver].
  - apply run_actions_rule. eapply I_atomic; [apply at_invoke|done].
  - case_bool_decide; [|done].
    apply run_actions_rule. eapply I_atomic; [apply at_invoke|done].
  - assert (H1 : I (record (EvInvoke x args) w))
      by (eapply I_atomic; [apply at_invoke|done]).
    pose proof (I_forward receiver args _ H1) as Hf.
    destruct (emit_rec receiver args _); done.
Qed.

Section loop.
Variable s : SigId.
Variable args : Args.
Variable S : SlotId → Prop.
Hypothesis I_activate : ∀ x w,
  S x → Slot_isConnected w x = true → I w → I (record (EvActivate s x args) w).

Lemma emit_loop_rule : ∀ snapshot count w,
  (∀ x, Some x ∈ snapshot → S x) →
  I w → post_gen F I (emit_loop emit_rec s args snapshot count w).
Proof.
  induction snapshot as [|[x|] rest IH]; intros count w HS H; simpl; [done| |done].
  assert (HSx : S x) by (apply HS; left).
  assert (HSrest : ∀ y, Some y ∈ rest → S y) by (intros y Hy; apply HS; by right).
  assert (H1 : I (record (EvLock (LSlot x)) w))
    by (eapply I_atomic; [apply at_lock|done]).
  destruct (Slot_isConnected (record (EvLock (LSlot x)) w) x) eqn:Hc; simpl.
  2:{ apply IH; [done|]. eapply I_atomic; [apply at_unlock|done]. }
  set (w3 := record (EvUnlock (LSlot x)) (set_active _ _)).
  assert (H3 : I w3).
  { eapply I_atomic; [apply at_unlock|]. eapply I_atomic; [apply at_active|done]. }
  assert (Hc3 : Slot_isConnected w3 x = true) by (rewrite <- Hc; by apply Slot_isConnected_same).
  pose proof (activate_rule x args _ (I_activate x w3 HSx Hc3 H3)) as Ha.
  destruct (activate emit_rec x args (record (EvActivate s x args) w3)) as [[] w4|e w4| |];
    simpl in Ha; try done.
  - apply IH; [done|]. eapply I_atomic; [apply at_unlock|].
    eapply I_atomic; [apply at_active|]. eapply I_atomic; [apply at_lock|done].
  - assert (H6 : I (set_active (activeConnection (record (EvLock (LSlot x)) w))
                      (record (EvLock (LSlot x)) w4))).
    { eapply I_atomic; [apply at_active|]. eapply I_atomic; [apply at_lock|done]. }
    destruct e; simpl.
    + apply IH; [done|]. eapply I_atomic; [apply at_unlock|].
      eapply I_atomic; [apply at_lock|]. apply I_Signal_disconnect.
      eapply I_atomic; [apply at_unlock|done].
    + apply IH; [done|]. eapply I_atomic; [apply at_unlock|].
      eapply I_atomic; [apply at_lock|]. apply I_Signal_disconnect.
      eapply I_atomic; [apply at_unlock|done].
    + eapply I_atomic; [apply at_unlock|done].
Qed.
End loop.
End rules.

(** * Invariants of every emission *)

Section emit_rule.
Variable I : World → Prop.
Hypothesis I_atomic : ∀ w w', atomic w w' → I w → I w'.
Hypothesis I_activate : ∀ s x a w,
  Slot_isConnected w x = true → I w → I (record (EvActivate s x a) w).
Hypothesis I_emitted : ∀ s a n w, I w → I (record (EvEmitted s a n) w).
Hypothesis I_guard : ∀ s b w, I w → I (set_signals (alter (set_emitGuard b) s) w).

Lemma emit_body_rule emit_rec s args w :
  (∀ s a w, I w → post I (emit_rec s a w)) →
  I w → post I (emit_body emit_rec s args w).
Proof.
  intros Hrec H. unfold emit_body. destruct (signals w !! s) as [sg|]; [|done].
  destruct (m_blocked sg || m_emitGuard sg); [done|].
  match goal with |- context [emit_loop _ _ _ ?l _ ?w1] =>
    assert (H1 : I w1); [|pose proof (emit_loop_rule emit_rec True I I_atomic
      ltac:(intros s' a' w' Hw'; pose proof (Hrec s' a' w' Hw') as Hr;
            destruct (emit_rec s' a' w'); simpl in *; auto)
      Hrec s args (λ _, True) (λ x w _, I_activate s x args w) l 0%nat w1
      (λ _ _, Logic.I) H1) as Hl;
      destruct (emit_loop emit_rec s args l 0%nat w1); simpl in *; auto]
  end.
  eapply I_atomic; [apply at_unlock|].
  eapply I_atomic; [apply (at_m_slots s (λ l, erase_if l _))|].
  eapply I_atomic; [apply at_lock|]. by apply I_guard.
Qed.

Theorem emit_rule : ∀ fuel s args w, I w → post I (emit fuel s args w).
Proof.
  induction fuel as [|fuel IH]; intros s args w H; [done|].
  simpl. by apply emit_body_rule.
Qed.
End emit_rule.

(** ** The flags of the signals *)

Lemma guards_atomic w w' : atomic w w' → guards w' = guards w.
Proof.
  intros [l ?|l ?|x a ?|c ?|f ?|o ?|s g ?|x ?|k ?]; try done.
  - unfold guards. simpl. apply map_eq. intros i. rewrite !lookup_fmap, lookup_alter.
    case_decide; [|done]. subst. by destruct (signals w0 !! i).
  - unfold guards. by rewrite Slot_disconnect_signals.
Qed.

Lemma guards_toggle s b w sg :
  signals w !! s = Some sg →
  guards (set_signals (alter (set_emitGuard b) s) w) = <[s := (m_blocked sg, b)]> (guards w).
Proof.
  intros Hs. unfold guards. simpl. apply map_eq. intros i.
  rewrite lookup_fmap, lookup_alter, lookup_insert.
  case_decide; [|by rewrite lookup_fmap]. subst. by rewrite Hs.
Qed.

Lemma guards_lookup w s sg :
  signals w !! s = Some sg → guards w !! s = Some (m_blocked sg, m_emitGuard sg).
Proof. intros Hs. unfold guards. by rewrite lookup_fmap, Hs. Qed.

Lemma emit_body_guards emit_rec s args w :
  (∀ s a w, post (λ w', guards w' = guards w) (emit_rec s a w)) →
  post (λ w', guards w' = guards w) (emit_body emit_rec s args w).
Proof.
  intros Hrec. unfold emit_body. destruct (signals w !! s) as [sg|] eqn:Hs; [|done].
  destruct (m_blocked sg || m_emitGuard sg) eqn:Hfree; [done|].
  apply orb_false_elim in Hfree as [Hb Hg].
  match goal with |- context [emit_loop _ _ _ ?l _ ?w1] =>
    set (G := guards w1);
    assert (HG : G = <[s := (false, true)]> (guards w));
    [|pose proof (emit_loop_rule emit_rec True (λ w', guards w' = G)) as Hl;
      specialize (Hl (λ w w' Hat Hw, eq_trans (guards_atomic w w' Hat) Hw));
      specialize (Hl
        ltac:(intros s' a' w' Hw'; pose proof (Hrec s' a' w') as Hr;
              destruct (emit_rec s' a' w'); unfold guards in *; simpl in *; auto;
              congruence)
        ltac:(intros s' a' w' Hw'; pose proof (Hrec s' a' w') as Hr;
              destruct (emit_rec s' a' w'); simpl in *; auto; congruence)
        s args (λ _, True) (λ _ _ _ _ Hw, Hw) l 0%nat w1 (λ _ _, Logic.I) eq_refl);
      destruct (emit_loop emit_rec s args l 0%nat w1) as [n w5|e w5| |]; simpl in *; auto]
  end.
  - subst G. rewrite (guards_atomic _ _ (at_unlock _ _)).
    rewrite (guards_atomic _ _ (at_m_slots s (λ l, erase_if l _) _)).
    rewrite (guards_atomic _ _ (at_lock _ _)).
    rewrite (guards_toggle _ _ _ _ Hs). by rewrite Hb.
  - assert (Hs5 : ∃ sg5, signals w5 !! s = Some sg5 ∧ m_blocked sg5 = false) .
    { assert (H5 : guards w5 !! s = Some (false, true)) by (rewrite Hl, HG; apply lookup_insert_eq).
      unfold guards in H5. rewrite lookup_fmap in H5.
      destruct (signals w5 !! s) as [sg5|]; [|done]. exists sg5. split; [done|].
      simpl in H5. congruence. }
    destruct Hs5 as (sg5 & Hs5 & Hb5).
    rewrite (guards_toggle _ _ _ _ Hs5), Hl, HG, Hb5, insert_insert_eq.
    apply insert_id. rewrite (guards_lookup _ _ _ Hs). by rewrite Hb, Hg.
  - assert (Hs5 : ∃ sg5, signals w5 !! s = Some sg5 ∧ m_blocked sg5 = false) .
    { assert (H5 : guards w5 !! s = Some (false, true)) by (rewrite Hl, HG; apply lookup_insert_eq).
      unfold guards in H5. rewrite lookup_fmap in H5.
      destruct (signals w5 !! s) as [sg5|]; [|done]. exists sg5. split; [done|].
      simpl in H5. congruence. }
    destruct Hs5 as (sg5 & Hs5 & Hb5).
    rewrite (guards_toggle _ _ _ _ Hs5), Hl, HG, Hb5, insert_insert_eq.
    apply insert_id. rewrite (guards_lookup _ _ _ Hs). by rewrite Hb, Hg.
Qed.

(** Every emission leaves the blocked flags and the guards as they were. *)
Theorem emit_guards : ∀ fuel s args w, post (λ w', guards w' = guards w) (emit fuel s args w).
Proof.
  induction fuel as [|fuel IH]; intros s args w; [done|].
  simpl. apply emit_body_guards. apply IH.
Qed.

(** ** Slots only move towards disconnected *)

Lemma slots_monotone_refl w : slots_monotone w w.
Proof. intros x sl Hx. exists sl. auto. Qed.

Lemma slots_monotone_same w w' : slots w' = slots w → slots_monotone w w'.
Proof. intros Hs x sl Hx. exists sl. rewrite Hs. auto. Qed.

Lemma slots_monotone_trans w1 w2 w3 :
  slots_monotone w1 w2 → slots_monotone w2 w3 → slots_monotone w1 w3.
Proof.
  intros H12 H23 x sl1 H1. destruct (H12 _ _ H1) as (sl2 & H2 & Hk & Hc & Ht).
  destruct (H23 _ _ H2) as (sl3 & H3 & Hk' & Hc' & Ht'). exists sl3.
  split; [done|]. split; [congruence|]. split; [auto|].
  destruct Ht' as [->| ->]; [done|by right].
Qed.

Lemma grows_refl w : grows w w.
Proof. split; [exists []; by rewrite app_nil_r|apply slots_monotone_refl]. Qed.

Lemma grows_trans w1 w2 w3 : grows w1 w2 → grows w2 w3 → grows w1 w3.
Proof.
  intros [[e1 H1] M1] [[e2 H2] M2]. split.
  - exists (e1 ++ e2). by rewrite H2, H1, app_assoc.
  - by eapply slots_monotone_trans.
Qed.

Lemma grows_record e w : grows w (record e w).
Proof. split; [by exists [e]|by apply slots_monotone_same]. Qed.

Lemma grows_set_signals f w : grows w (set_signals f w).
Proof. split; [exists []; simpl; by rewrite app_nil_r|by apply slots_monotone_same]. Qed.

Lemma grows_atomic w w' : atomic w w' → grows w w'.
Proof.
  intros [l ?|l ?|x a ?|c ?|f ?|o ?|s g ?|x ?|k ?];
    try apply grows_record; try apply grows_set_signals;
    try (split; [exists []; simpl; by rewrite app_nil_r|by apply slots_monotone_same]).
  - split; [rewrite Slot_disconnect_log; eauto|].
    intros y sl Hy. rewrite Slot_disconnect_lookup. case_decide.
    + subst. rewrite Hy. simpl. eexists. split; [done|]. simpl. auto.
    + exists sl. auto.
  - split; [exists []; simpl; by rewrite app_nil_r|].
    intros y sl Hy. exists sl. simpl. split; [|auto].
    rewrite lookup_insert_ne; [done|]. intros <-.
    apply (is_fresh (dom (slots w0))). apply elem_of_dom. eauto.
Qed.

(** Whatever an emission does, the trace is extended and the slots only
    move towards disconnected. *)
Theorem emit_grows fuel s args w : post (grows w) (emit fuel s args w).
Proof.
  apply (emit_rule (grows w)); [| | | |apply grows_refl].
  - intros w1 w2 Hat H. eapply grows_trans; [done|by apply grows_atomic].
  - intros s' x a w1 _ H. eapply grows_trans; [done|apply grows_record].
  - intros s' a n w1 H. eapply grows_trans; [done|apply grows_record].
  - intros s' b w1 H. eapply grows_trans; [done|apply grows_set_signals].
Qed.

(** ** No activation after a disconnection *)

Lemma no_activation_after_disconnect_snoc evs e :
  no_activation_after_disconnect evs →
  (∀ s x a, e = EvActivate s x a → EvDisconnectOverride x ∉ evs) →
  no_activation_after_disconnect (evs ++ [e]).
Proof.
  intros Hn He l1 l2 x Heq s a Hin.
  destruct l2 as [|e' l2 _] using rev_ind; [by apply elem_of_nil in Hin|].
  change (l1 ++ EvDisconnectOverride x :: l2 ++ [e'])
    with (l1 ++ (EvDisconnectOverride x :: l2) ++ [e']) in Heq.
  rewrite app_assoc in Heq. apply app_inj_tail in Heq as [-> ->].
  apply elem_of_app in Hin as [Hin|Hin].
  - by apply (Hn _ _ _ eq_refl s a).
  - apply list_elem_of_singleton in Hin. apply (He s x a (eq_sym Hin)).
    apply elem_of_app. right. left.
Qed.

Lemma no_activation_after_disconnect_app evs l :
  no_activation_after_disconnect evs →
  Forall (λ e, ∀ s x a, e ≠ EvActivate s x a) l →
  no_activation_after_disconnect (evs ++ l).
Proof.
  intros Hn Hl. induction l as [|e l IH] using rev_ind; [by rewrite app_nil_r|].
  apply Forall_app in Hl as [Hl He]. apply Forall_inv in He.
  rewrite app_assoc. apply no_activation_after_disconnect_snoc; [by apply IH|].
  intros s x a ->. by destruct (He s x a).
Qed.

Lemma ordered_since_refl w : ordered_since w w.
Proof.
  exists []. split; [by rewrite app_nil_r|]. split.
  - intros x Hx. by apply elem_of_nil in Hx.
  - intros l1 l2 x Heq. by destruct l1.
Qed.

Lemma ordered_since_same w0 w w' :
  log w' = log w → slots w' = slots w → ordered_since w0 w → ordered_since w0 w'.
Proof. intros Hl Hs (evs & Hlog & Hd & Hn). exists evs. by rewrite Hl, Hs. Qed.

Lemma ordered_since_record w0 w e :
  (∀ s x a, e ≠ EvActivate s x a) → (∀ x, e ≠ EvDisconnectOverride x) →
  ordered_since w0 w → ordered_since w0 (record e w).
Proof.
  intros Ha Hd (evs & Hlog & Hdis & Hn). exists (evs ++ [e]). simpl.
  split; [by rewrite Hlog, app_assoc|]. split.
  - intros x Hx. apply elem_of_app in Hx as [Hx|Hx]; [by apply Hdis|].
    apply list_elem_of_singleton in Hx. by destruct (Hd x).
  - apply no_activation_after_disconnect_snoc; [done|]. intros s x a ->.
    by destruct (Ha s x a).
Qed.

Lemma ordered_since_activate w0 w s x a :
  Slot_isConnected w x = true →
  ordered_since w0 w → ordered_since w0 (record (EvActivate s x a) w).
Proof.
  intros Hc (evs & Hlog & Hdis & Hn). exists (evs ++ [EvActivate s x a]). simpl.
  split; [by rewrite Hlog, app_assoc|]. split.
  - intros y Hy. apply elem_of_app in Hy as [Hy|Hy]; [by apply Hdis|].
    by apply list_elem_of_singleton in Hy.
  - apply no_activation_after_disconnect_snoc; [done|]. intros s' x' a' [= -> -> ->] Hin.
    destruct (Hdis _ Hin) as (sl & Hsl & Hfalse).
    unfold Slot_isConnected in Hc. rewrite Hsl, Hfalse in Hc. done.
Qed.

Lemma ordered_since_atomic w0 w w' :
  atomic w w' → ordered_since w0 w → ordered_since w0 w'.
Proof.
  intros [l ?|l ?|x a ?|c ?|f ?|o ?|s g ?|x ?|k ?] H;
    try (by apply ordered_since_record);
    try (by eapply ordered_since_same; [| |exact H]).
  - destruct H as (evs & Hlog & Hdis & Hn).
    destruct (slots w1 !! x) as [sl|] eqn:Hx.
    2:{ rewrite Slot_disconnect_missing by done. by exists evs. }
    exists (evs ++ disconnect_trace x (m_trackers sl)).
    split; [by rewrite Slot_disconnect_log, Hx, Hlog, app_assoc|]. split.
    + intros y Hy. rewrite Slot_disconnect_lookup. apply elem_of_app in Hy as [Hy|Hy].
      * destruct (Hdis _ Hy) as (sl' & Hsl' & Hf). case_decide.
        -- subst. rewrite Hsl'. simpl. eauto.
        -- eauto.
      * unfold disconnect_trace in Hy. rewrite !elem_of_app in Hy.
        destruct Hy as [Hy|[Hy|Hy]].
        -- by apply list_elem_of_singleton in Hy.
        -- apply list_elem_of_In, in_map_iff in Hy as (tr & Htr & _). done.
        -- apply elem_of_cons in Hy as [[= ->]|Hy].
           ++ rewrite decide_True, Hx by done. simpl. eauto.
           ++ by apply list_elem_of_singleton in Hy.
    + apply no_activation_after_disconnect_app; [done|].
      eapply Forall_impl; [apply disconnect_trace_slot_events|].
      intros e He s' x' a' ->. done.
  - destruct H as (evs & Hlog & Hdis & Hn). exists evs. split; [done|].
    split; [|done]. intros y Hy. destruct (Hdis _ Hy) as (sl & Hsl & Hf).
    exists sl. split; [|done]. simpl. rewrite lookup_insert_ne; [done|]. intros <-.
    apply (is_fresh (dom (slots w1))). apply elem_of_dom. eauto.
Qed.

(** Whatever an emission does, it activates no slot after that slot's
    disconnection. *)
Theorem emit_ordered fuel s args w0 w :
  ordered_since w0 w → post (ordered_since w0) (emit fuel s args w).
Proof.
  apply (emit_rule (ordered_since w0)).
  - intros w1 w2 Hat H. by eapply ordered_since_atomic.
  - intros s' x a w1 Hc H. by apply ordered_since_activate.
  - intros s' a n w1 H. by apply ordered_since_record.
  - intros s' b w1 H. by eapply ordered_since_same; [| |exact H].
Qed.

(** * The shape of an emission *)

Lemma erase_if_ext {A} (p q : A → bool) (l : list A) :
  (∀ a, p a = q a) → erase_if l p = erase_if l q.
Proof. intros H. induction l as [|a l IH]; simpl; [done|]. by rewrite H, IH. Qed.

Lemma erase_if_elem {A} (p : A → bool) (l : list A) a :
  a ∈ erase_if l p ↔ a ∈ l ∧ p a = false.
Proof.
  induction l as [|b l IH]; simpl.
  - split; [intros H; by apply elem_of_nil in H|intros [H _]; by apply elem_of_nil in H].
  - destruct (p b) eqn:Hb.
    + rewrite IH, elem_of_cons. split; [intros [? ?]; auto|].
      intros [[->|?] ?]; [congruence|auto].
    + rewrite !elem_of_cons, IH. split.
      * intros [->|[? ?]]; auto.
      * intros [[->|?] ?]; auto.
Qed.

Lemma is_stale_same w w' p :
  slots w' = slots w → alive w' = alive w → trackables w' = trackables w →
  is_stale w' p = is_stale w p.
Proof. intros. destruct p; [|done]. simpl. f_equal. by apply Slot_isConnected_same. Qed.

Lemma emit_body_unfold emit_rec s args w sg :
  signals w !! s = Some sg → m_blocked sg || m_emitGuard sg = false →
  emit_body emit_rec s args w
  = loop_end s (emit_loop emit_rec s args (snapshot_of w sg) 0%nat (loop_start s w)).
Proof.
  intros Hs Hfree. unfold emit_body. rewrite Hs, Hfree. simpl.
  rewrite !lookup_alter_eq, Hs. simpl. unfold snapshot_of.
  rewrite (erase_if_ext _ (is_stale w)) by (intros p; by apply is_stale_same).
  unfold loop_start. simpl. done.
Qed.

Lemma emit_body_closed emit_rec s args w sg :
  signals w !! s = Some sg → m_blocked sg || m_emitGuard sg = true →
  emit_body emit_rec s args w = Ok 0%nat w.
Proof. intros Hs Hc. unfold emit_body. by rewrite Hs, Hc. Qed.

Lemma loop_start_guards s w sg :
  signals w !! s = Some sg → m_blocked sg = false →
  guards (loop_start s w) = <[s := (false, true)]> (guards w).
Proof.
  intros Hs Hb. unfold loop_start.
  rewrite (guards_atomic _ _ (at_unlock _ _)).
  rewrite (guards_atomic _ _ (at_m_slots s (λ l, erase_if l _) _)).
  rewrite (guards_atomic _ _ (at_lock _ _)).
  rewrite (guards_toggle _ _ _ _ Hs). by rewrite Hb.
Qed.

Lemma loop_start_log s w :
  log (loop_start s w) = log w ++ [EvLock (LSignal s); EvUnlock (LSignal s)].
Proof. unfold loop_start. simpl. by rewrite <- app_assoc. Qed.

Lemma loop_start_slots s w : slots (loop_start s w) = slots w.
Proof. done. Qed.

Lemma loop_start_signal s w sg :
  signals w !! s = Some sg →
  signals (loop_start s w) !! s = Some (mkSignal (snapshot_of w sg) (m_blocked sg) true).
Proof.
  intros Hs. unfold loop_start. simpl. rewrite !lookup_alter_eq, Hs. simpl.
  done.
Qed.

Lemma closed_lookup s w :
  closed s (guards w) ↔ ∃ sg, signals w !! s = Some sg ∧ m_blocked sg || m_emitGuard sg = true.
Proof.
  unfold closed, guards. rewrite lookup_fmap. split.
  - intros (b & g & H & Hbg). destruct (signals w !! s) as [sg|]; [|done].
    exists sg. split; [done|]. simpl in H. by injection H as -> ->.
  - intros (sg & -> & H). simpl. eauto.
Qed.

(** An emission of a blocked or emitting signal returns zero at once. *)
Lemma emit_closed fuel s args w :
  closed s (guards w) → emit (S fuel) s args w = Ok 0%nat w.
Proof.
  intros (sg & Hs & Hc)%closed_lookup. simpl. by eapply emit_body_closed.
Qed.

Lemma atomic_log w w' :
  atomic w w' → ∃ evs, log w' = log w ++ evs ∧ Forall plain_event evs.
Proof.
  intros [l ?|l ?|x a ?|c ?|f ?|o ?|s g ?|x ?|k ?];
    try (by eexists [_]; split; [done|repeat constructor]);
    try (by exists []; split; [simpl; by rewrite app_nil_r|constructor]).
  rewrite Slot_disconnect_log. eexists. split; [done|].
  destruct (slots w0 !! x); [|constructor].
  eapply Forall_impl; [apply disconnect_trace_slot_events|]. by intros [].
Qed.

Lemma plain_nested_ok s0 e : plain_event e → nested_ok s0 e.
Proof. by destruct e. Qed.

Lemma quiet_since_refl s0 w : quiet_since s0 w w.
Proof. exists []. by rewrite app_nil_r. Qed.

Lemma quiet_since_app s0 w0 w w' evs :
  log w' = log w ++ evs → Forall (nested_ok s0) evs →
  quiet_since s0 w0 w → quiet_since s0 w0 w'.
Proof.
  intros Hl He (evs0 & Hl0 & He0). exists (evs0 ++ evs).
  split; [by rewrite Hl, Hl0, app_assoc|by apply Forall_app].
Qed.

Lemma quiet_since_atomic s0 w0 w w' :
  atomic w w' → quiet_since s0 w0 w → quiet_since s0 w0 w'.
Proof.
  intros (evs & Hl & He)%atomic_log. apply (quiet_since_app _ _ _ _ evs); [done|].
  eapply Forall_impl; [done|]. intros e. apply plain_nested_ok.
Qed.

(** Below the loop of a blocked or emitting signal [s0], nothing is
    activated by [s0], and every attempt to emit [s0] returns zero. *)
Theorem emit_quiet s0 : ∀ fuel s args w0 w,
  closed s0 (guards w) → quiet_since s0 w0 w →
  post (quiet_since s0 w0) (emit fuel s args w).
Proof.
  induction fuel as [|fuel IH]; intros s args w0 w Hclosed Hq; [done|]. simpl.
  destruct (signals w !! s) as [sg|] eqn:Hs; [|unfold emit_body; by rewrite Hs].
  destruct (m_blocked sg || m_emitGuard sg) eqn:Hfree.
  { by rewrite (emit_body_closed _ _ _ _ _ Hs Hfree). }
  rewrite (emit_body_unfold _ _ _ _ _ Hs Hfree).
  apply orb_false_elim in Hfree as [Hb Hg].
  assert (Hne : s ≠ s0).
  { intros ->. apply closed_lookup in Hclosed as (sg' & Hs' & Hc').
    rewrite Hs in Hs'. injection Hs' as <-. rewrite Hb, Hg in Hc'. done. }
  set (G1 := <[s := (false, true)]> (guards w)).
  assert (Hc1 : closed s0 G1).
  { destruct Hclosed as (b & g & HG & Hbg). exists b, g. split; [|done].
    subst G1. by rewrite lookup_insert_ne. }
  pose proof (emit_loop_rule (emit fuel) True
                (λ w', guards w' = G1 ∧ quiet_since s0 w0 w')) as Hl.
  specialize (Hl ltac:(intros w1 w2 Hat [HG Hq1]; split;
                       [by rewrite (guards_atomic _ _ Hat)|by eapply quiet_since_atomic])).
  assert (Hrec : ∀ s' a' w', guards w' = G1 ∧ quiet_since s0 w0 w' →
            post (λ w'', guards w'' = G1 ∧ quiet_since s0 w0 w'') (emit fuel s' a' w')).
  { intros s' a' w' [HG Hq1]. pose proof (emit_guards fuel s' a' w') as Hgu.
    pose proof (IH s' a' w0 w' ltac:(by rewrite HG) Hq1) as Hqu.
    destruct (emit fuel s' a' w'); simpl in *; auto; split; congruence. }
  specialize (Hl
    ltac:(intros s' a' w' [HG Hq1]; pose proof (Hrec s' a' w' (conj HG Hq1)) as Hr;
          destruct (emit fuel s' a' w') as [n w''| | |] eqn:He; simpl in *; auto;
          destruct Hr as [HG' Hq']; split; [done|];
          apply (quiet_since_app _ _ w'' _ [EvEmitted s' a' n]); [done| |done];
          constructor; [|constructor]; simpl; intros ->;
          destruct fuel; [done|];
          rewrite emit_closed in He by (by rewrite HG); congruence)
    Hrec s args (λ _, True)
    ltac:(intros x w' _ _ [HG Hq1]; split; [done|];
          apply (quiet_since_app _ _ w' _ [EvActivate s x args]); [done| |done];
          by repeat constructor)
    (snapshot_of w sg) 0%nat (loop_start s w) (λ _ _, Logic.I)).
  specialize (Hl ltac:(split; [by apply (loop_start_guards _ _ sg)|];
    apply (quiet_since_app _ _ w _ _ (loop_start_log s w)); [by repeat constructor|done])).
  destruct (emit_loop (emit fuel) s args (snapshot_of w sg) 0%nat (loop_start s w))
    as [n w5|e w5| |]; simpl in *; try done.
  - destruct Hl as [_ (evs & Hlog & Hev)]. by exists evs.
  - destruct Hl as [_ (evs & Hlog & Hev)]. by exists evs.
Qed.

(** * What one emission activates *)

Lemma activations_app s l1 l2 :
  activations s (l1 ++ l2) = activations s l1 ++ activations s l2.
Proof. unfold activations. apply omap_app. Qed.

Lemma activations_cons s e evs :
  activations s (e :: evs)
  = match e with
    | EvActivate s' x a =>
        if decide (s' = s) then (x, a) :: activations s evs else activations s evs
    | _ => activations s evs
    end.
Proof. destruct e; try done. unfold activations. simpl. by destruct (decide _). Qed.

Lemma activations_nested_ok s evs : Forall (nested_ok s) evs → activations s evs = [].
Proof.
  induction 1 as [|e evs He _ IH]; [done|]. rewrite activations_cons, IH.
  destruct e; try done. simpl in He. by rewrite decide_False.
Qed.

Lemma nested_ok_emitted_zero s e : nested_ok s e → emitted_zero s e.
Proof. by destruct e. Qed.

Lemma emit_quiet_emitted fuel s0 s a w0 w :
  closed s0 (guards w) → quiet_since s0 w0 w →
  match emit fuel s a w with
  | Ok n w' => guards w' = guards w ∧ quiet_since s0 w0 (record (EvEmitted s a n) w')
  | Throw _ w' => guards w' = guards w ∧ quiet_since s0 w0 w'
  | _ => True
  end.
Proof.
  intros Hc Hq. pose proof (emit_guards fuel s a w) as Hgu.
  pose proof (emit_quiet s0 fuel s a w0 w Hc Hq) as Hqu.
  destruct (emit fuel s a w) as [n w'|e w'| |] eqn:He; simpl in *; auto.
  split; [done|]. apply (quiet_since_app _ _ w' _ [EvEmitted s a n]); [done| |done].
  constructor; [|constructor]. simpl. intros ->.
  destruct fuel; [done|]. rewrite emit_closed in He by done. congruence.
Qed.

Lemma activate_quiet fuel s0 x args w :
  closed s0 (guards w) →
  post (λ w', guards w' = guards w ∧ quiet_since s0 w w') (activate (emit fuel) x args w).
Proof.
  intros Hc.
  apply (activate_rule (emit fuel) True (λ w', guards w' = guards w ∧ quiet_since s0 w w')).
  - intros w1 w2 Hat [HG Hq]. split; [by rewrite (guards_atomic _ _ Hat)|].
    by eapply quiet_since_atomic.
  - intros s' a' w' [HG Hq].
    pose proof (emit_quiet_emitted fuel s0 s' a' w w' ltac:(by rewrite HG) Hq) as He.
    destruct (emit fuel s' a' w'); simpl in *; auto.
    + destruct He as [HG' Hq']. split; [|done]. unfold guards in *. simpl. congruence.
    + destruct He as [HG' Hq']. split; [|done]. congruence.
  - intros s' a' w' [HG Hq]. pose proof (emit_guards fuel s' a' w') as Hgu.
    pose proof (emit_quiet s0 fuel s' a' w w' ltac:(by rewrite HG) Hq) as Hqu.
    destruct (emit fuel s' a' w'); simpl in *; auto; split; congruence.
  - split; [done|apply quiet_since_refl].
Qed.

Lemma Signal_disconnect_quiet s0 s c w :
  guards (Signal_disconnect s c w) = guards w ∧ quiet_since s0 w (Signal_disconnect s c w).
Proof.
  apply (I_Signal_disconnect (λ w', guards w' = guards w ∧ quiet_since s0 w w')).
  - intros w1 w2 Hat [HG Hq]. split; [by rewrite (guards_atomic _ _ Hat)|].
    by eapply quiet_since_atomic.
  - split; [done|apply quiet_since_refl].
Qed.

(** The loop of an emitting signal activates slots of its container only,
    each entry at most once and in the container's order, always with the
    arguments of the emission; emissions of the same signal attempted in
    between return zero. *)
Lemma emit_loop_activations fuel s args G :
  closed s G → ∀ snapshot count w,
  guards w = G →
  post (λ w', guards w' = G
              ∧ ∃ evs, log w' = log w ++ evs
                       ∧ Forall (emitted_zero s) evs
                       ∧ ∃ xs, activations s evs = map (λ x, (x, args)) xs
                               ∧ sublist (Some <$> xs) snapshot)
       (emit_loop (emit fuel) s args snapshot count w).
Proof.
  intros Hclosed. induction snapshot as [|[x|] rest IH]; intros count w HG; simpl; [|  |done].
  { split; [done|]. exists []. rewrite app_nil_r. split; [done|]. split; [done|].
    by exists []. }
  (* a general step: extend by quiet events, then continue with the rest *)
  assert (Hskip : ∀ count' w1, guards w1 = G → quiet_since s w w1 →
    post (λ w', guards w' = G
              ∧ ∃ evs, log w' = log w ++ evs
                       ∧ Forall (emitted_zero s) evs
                       ∧ ∃ xs, activations s evs = map (λ x, (x, args)) xs
                               ∧ sublist (Some <$> xs) (Some x :: rest))
         (emit_loop (emit fuel) s args rest count' w1)).
  { intros count' w1 HG1 (ev1 & Hl1 & He1). pose proof (IH count' w1 HG1) as Hr.
    destruct (emit_loop (emit fuel) s args rest count' w1) as [n w'|e w'| |];
      simpl in *; try done.
    all: destruct Hr as (HG' & evs & Hl & Hz & xs & Hact & Hsub); split; [done|].
    all: exists (ev1 ++ evs); split; [by rewrite Hl, Hl1, app_assoc|].
    all: split; [apply Forall_app; split;
                 [eapply Forall_impl; [done|apply nested_ok_emitted_zero]|done]|].
    all: exists xs; rewrite activations_app, (activations_nested_ok _ _ He1); simpl.
    all: split; [done|by apply sublist_cons]. }
  assert (Hq1 : quiet_since s w (record (EvLock (LSlot x)) w)).
  { exists [EvLock (LSlot x)]. split; [done|by repeat constructor]. }
  destruct (Slot_isConnected (record (EvLock (LSlot x)) w) x) eqn:Hc; simpl.
  2:{ apply Hskip; [done|]. eapply quiet_since_atomic; [apply at_unlock|done]. }
  set (w3 := record (EvUnlock (LSlot x)) (set_active _ _)).
  set (w3' := record (EvActivate s x args) w3).
  assert (Hl3 : log w3' = log w ++ [EvLock (LSlot x); EvUnlock (LSlot x); EvActivate s x args]).
  { subst w3' w3. simpl. by rewrite <- !app_assoc. }
  assert (HG3 : guards w3' = G) by done.
  pose proof (activate_quiet fuel s x args w3' ltac:(by rewrite HG3)) as Ha.
  (* after the activation: continue with the rest from a store reached by
     quiet events from [w3'] *)
  assert (Hcont : ∀ count' w1, guards w1 = G → quiet_since s w3' w1 →
    post (λ w', guards w' = G
              ∧ ∃ evs, log w' = log w ++ evs
                       ∧ Forall (emitted_zero s) evs
                       ∧ ∃ xs, activations s evs = map (λ x, (x, args)) xs
                               ∧ sublist (Some <$> xs) (Some x :: rest))
         (emit_loop (emit fuel) s args rest count' w1)).
  { intros count' w1 HG1 (ev1 & Hl1 & He1). pose proof (IH count' w1 HG1) as Hr.
    destruct (emit_loop (emit fuel) s args rest count' w1) as [n w'|e w'| |];
      simpl in *; try done.
    all: destruct Hr as (HG' & evs & Hl & Hz & xs & Hact & Hsub); split; [done|].
    all: exists ([EvLock (LSlot x); EvUnlock (LSlot x); EvActivate s x args] ++ ev1 ++ evs).
    all: split; [by rewrite Hl, Hl1, Hl3, <- !app_assoc|].
    all: split; [repeat (apply Forall_cons; split; [done|]); apply Forall_app; split;
                 [eapply Forall_impl; [done|apply nested_ok_emitted_zero]|done]|].
    all: exists (x :: xs); cbn [app]; rewrite !activations_cons, decide_True by done.
    all: rewrite activations_app, (activations_nested_ok _ _ He1); simpl.
    all: split; [by rewrite Hact|by apply sublist_skip]. }
  fold w3 w3'.
  destruct (activate (emit fuel) x args w3') as [[] w4|e w4| |]; simpl in Ha; try done.
  - destruct Ha as [HG4 Hq4]. apply Hcont; [by rewrite <- HG3, <- HG4|].
    eapply quiet_since_atomic; [apply at_unlock|].
    eapply quiet_since_atomic; [apply at_active|].
    eapply quiet_since_atomic; [apply at_lock|done].
  - destruct Ha as [HG4 Hq4].
    set (w6 := set_active (activeConnection (record (EvLock (LSlot x)) w))
                 (record (EvLock (LSlot x)) w4)).
    assert (Hq6 : quiet_since s w3' w6).
    { eapply quiet_since_atomic; [apply at_active|].
      eapply quiet_since_atomic; [apply at_lock|done]. }
    assert (HG6 : guards w6 = G) by (by rewrite <- HG3, <- HG4).
    assert (Hh : ∀ w7, guards w7 = G → quiet_since s w3' w7 →
              guards (record (EvUnlock (LSlot x)) (record (EvLock (LSlot x))
                        (Signal_disconnect s (mkConnection (Some x))
                           (record (EvUnlock (LSlot x)) w7)))) = G
              ∧ quiet_since s w3'
                  (record (EvUnlock (LSlot x)) (record (EvLock (LSlot x))
                        (Signal_disconnect s (mkConnection (Some x))
                           (record (EvUnlock (LSlot x)) w7))))).
    { intros w7 HG7 Hq7'.
      destruct (Signal_disconnect_quiet s s (mkConnection (Some x))
                  (record (EvUnlock (LSlot x)) w7)) as [HGd (evd & Hld & Hed)].
      split; [unfold guards in *; simpl in *; congruence|].
      eapply quiet_since_atomic; [apply at_unlock|].
      eapply quiet_since_atomic; [apply at_lock|].
      eapply (quiet_since_app _ _ _ _ evd); [done|done|].
      eapply quiet_since_atomic; [apply at_unlock|done]. }
    destruct e; simpl.
    + destruct (Hh w6 HG6 Hq6) as [HGh Hqh]. by apply Hcont.
    + destruct (Hh w6 HG6 Hq6) as [HGh Hqh]. by apply Hcont.
    + split; [done|].
      assert (Hq7 : quiet_since s w3' (record (EvUnlock (LSlot x)) w6))
        by (eapply quiet_since_atomic; [apply at_unlock|done]).
      destruct Hq7 as (ev1 & Hl1 & He1).
      exists ([EvLock (LSlot x); EvUnlock (LSlot x); EvActivate s x args] ++ ev1).
      split; [etrans; [exact Hl1|]; by rewrite Hl3, <- !app_assoc|].
      split; [repeat (apply Forall_cons; split; [done|]);
              eapply Forall_impl; [done|apply nested_ok_emitted_zero]|].
      exists [x]. cbn [app]. rewrite !activations_cons, decide_True by done.
      rewrite (activations_nested_ok _ _ He1). simpl.
      split; [done|]. apply sublist_skip, sublist_nil_l.
Qed.

(** * Every emission returns *)

Lemma free_count_lock G s b b' :
  G !! s = Some (b, false) →
  (free_count (<[s := (b', true)]> G) < free_count G)%nat.
Proof.
  intros Hs. unfold free_count.
  rewrite map_filter_insert_False by (simpl; done).
  rewrite map_filter_delete.
  assert (Hin : filter (λ p : nat * (bool * bool), p.2.2 = false) G !! s = Some (b, false))
    by (by apply map_lookup_filter_Some).
  rewrite map_size_delete, Hin.
  assert (size (filter (λ p : nat * (bool * bool), p.2.2 = false) G) ≠ 0)%nat
    by (apply map_size_ne_0_lookup; eauto).
  simpl. lia.
Qed.

Lemma post_gen_False_not_out {A} P (r : Result A) : post_gen False P r → r ≠ OutOfFuel.
Proof. by destruct r. Qed.

(** With a budget above the number of free guards the emission does not
    run out of budget: nested emissions only go through free guards, and
    each holds one while it runs. *)
Theorem emit_terminates : ∀ fuel s args w,
  (free_count (guards w) < fuel)%nat → emit fuel s args w ≠ OutOfFuel.
Proof.
  induction fuel as [|fuel IH]; intros s args w Hlt; [lia|]. simpl.
  destruct (signals w !! s) as [sg|] eqn:Hs; [|unfold emit_body; by rewrite Hs].
  destruct (m_blocked sg || m_emitGuard sg) eqn:Hfree.
  { by rewrite (emit_body_closed _ _ _ _ _ Hs Hfree). }
  rewrite (emit_body_unfold _ _ _ _ _ Hs Hfree).
  apply orb_false_elim in Hfree as [Hb Hg].
  set (G1 := <[s := (false, true)]> (guards w)).
  assert (Hlt1 : (free_count G1 < fuel)%nat).
  { pose proof (free_count_lock (guards w) s false false) as Hl.
    rewrite (guards_lookup _ _ _ Hs), Hb, Hg in Hl. specialize (Hl eq_refl).
    fold G1 in Hl. lia. }
  assert (Hrec : ∀ s' a' w', guards w' = G1 →
            post_gen False (λ w'', guards w'' = G1) (emit fuel s' a' w')).
  { intros s' a' w' HG. pose proof (emit_guards fuel s' a' w') as Hgu.
    pose proof (IH s' a' w' ltac:(by rewrite HG)) as Hne.
    destruct (emit fuel s' a' w'); simpl in *; auto; congruence. }
  pose proof (emit_loop_rule (emit fuel) False (λ w', guards w' = G1)
    (λ w1 w2 Hat HG, eq_trans (guards_atomic w1 w2 Hat) HG)
    ltac:(intros s' a' w' HG; pose proof (Hrec s' a' w' HG) as Hr;
          destruct (emit fuel s' a' w'); simpl in *; auto)
    Hrec s args (λ _, True) (λ _ _ _ _ Hw, Hw)
    (snapshot_of w sg) 0%nat (loop_start s w) (λ _ _, Logic.I)
    (loop_start_guards _ _ _ Hs Hb)) as Hl.
  destruct (emit_loop (emit fuel) s args (snapshot_of w sg) 0%nat (loop_start s w));
    simpl in *; done.
Qed.

(** * Lifetime failures stay inside the emission *)



(** * The claims about the emission *)

(** What the signal itself activates during one emission, and what the
    callables see when they try to emit it. *)
Lemma emit_activations fuel s args w sg :
  signals w !! s = Some sg →
  post (λ w', ∃ evs, log w' = log w ++ evs
                     ∧ Forall (emitted_zero s) evs
                     ∧ ∃ xs, activations s evs = map (λ x, (x, args)) xs
                             ∧ sublist (Some <$> xs) (snapshot_of w sg))
       (emit fuel s args w).
Proof.
  intros Hs. destruct fuel as [|fuel]; [done|]. simpl.
  destruct (m_blocked sg || m_emitGuard sg) eqn:Hfree.
  { rewrite (emit_body_closed _ _ _ _ _ Hs Hfree). simpl.
    exists []. rewrite app_nil_r. split; [done|]. split; [done|].
    exists []. split; [done|apply sublist_nil_l]. }
  rewrite (emit_body_unfold _ _ _ _ _ Hs Hfree).
  apply orb_false_elim in Hfree as [Hb Hg].
  assert (Hc : closed s (guards (loop_start s w))).
  { rewrite (loop_start_guards _ _ _ Hs Hb). exists false, true.
    by rewrite lookup_insert_eq. }
  pose proof (emit_loop_activations fuel s args _ Hc (snapshot_of w sg) 0%nat
                (loop_start s w) eq_refl) as Hl.
  destruct (emit_loop (emit fuel) s args (snapshot_of w sg) 0%nat (loop_start s w))
    as [n w5|e w5| |]; cbn [loop_end post_gen] in *; try done.
  all: destruct Hl as (_ & evs & Hlog & Hz & xs & Hact & Hsub).
  all: exists ([EvLock (LSignal s); EvUnlock (LSignal s)] ++ evs).
  all: split; [cbn [log set_signals]; by rewrite Hlog, loop_start_log, <- app_assoc|].
  all: split; [by repeat (apply Forall_cons; split; [done|])|].
  all: exists xs; split; [|done].
  all: cbn [app]; by rewrite !activations_cons.
Qed.

(** C2. A blocked or emitting signal returns zero at once and leaves the
    store as it is, so no slot is invoked.  With a budget above the number
    of free guards the emission returns.  While a signal emits, every
    emission of the same signal attempted by a callable returns zero, and
    the signal activates only entries of its container, each at most once,
    in order, with the arguments of the outer emission. *)
Theorem emission_guard (fuel : nat) (s : SigId) (args : Args) (w : World) (sg : Signal) :
  signals w !! s = Some sg →
  (m_blocked sg || m_emitGuard sg = true → emit (S fuel) s args w = Ok 0%nat w)
  ∧ ((free_count (guards w) < fuel)%nat → emit fuel s args w ≠ OutOfFuel)
  ∧ post (λ w', ∃ evs, log w' = log w ++ evs
                       ∧ Forall (emitted_zero s) evs
                       ∧ ∃ xs, activations s evs = map (λ x, (x, args)) xs
                               ∧ sublist (Some <$> xs) (snapshot_of w sg))
         (emit fuel s args w).
Proof.
  intros Hs. split; [intros Hc; simpl; by eapply emit_body_closed|].
  split; [apply emit_terminates|by apply emit_activations].
Qed.

Lemma snapshot_of_elem w sg p :
  p ∈ snapshot_of w sg ↔ p ∈ m_slots sg ∧ ∃ x, p = Some x ∧ Slot_isConnected w x = true.
Proof.
  unfold snapshot_of. rewrite erase_if_elem. split.
  - intros [Hin Hst]. split; [done|]. destruct p as [x|]; [|done].
    exists x. split; [done|]. simpl in Hst. by apply negb_false_iff.
  - intros [Hin (x & -> & Hc)]. split; [done|]. simpl. by rewrite Hc.
Qed.

Lemma emit_loop_skip emit_rec s args x rest count w :
  Slot_isConnected w x = false →
  emit_loop emit_rec s args (Some x :: rest) count w
  = emit_loop emit_rec s args rest count
      (record (EvUnlock (LSlot x)) (record (EvLock (LSlot x)) w)).
Proof.
  intros Hc. simpl.
  rewrite (Slot_isConnected_same w (record (EvLock (LSlot x)) w)) by done.
  by rewrite Hc.
Qed.

(** C3. An emission of a free signal first, between the lock and the
    unlock of the signal, prunes the container down to the non-null,
    connected entries and runs its loop over a copy of it.  It returns
    when the budget exceeds the number of free guards.  The signal
    activates only entries of that copy, each at most once and in order:
    a slot created during the emission is not activated in that round.
    An entry found disconnected at its turn is skipped and the loop goes
    on with the rest of the copy; no slot is activated after its
    disconnection. *)
Theorem emission_snapshot (fuel : nat) (s : SigId) (args : Args) (w : World) (sg : Signal) :
  signals w !! s = Some sg →
  m_blocked sg || m_emitGuard sg = false →
  emit (S fuel) s args w
  = loop_end s (emit_loop (emit fuel) s args (snapshot_of w sg) 0%nat (loop_start s w))
  ∧ signals (loop_start s w) !! s
    = Some (mkSignal (snapshot_of w sg) (m_blocked sg) true)
  ∧ log (loop_start s w) = log w ++ [EvLock (LSignal s); EvUnlock (LSignal s)]
  ∧ (∀ p, p ∈ snapshot_of w sg
          ↔ p ∈ m_slots sg ∧ ∃ x, p = Some x ∧ Slot_isConnected w x = true)
  ∧ ((free_count (guards w) ≤ fuel)%nat → emit (S fuel) s args w ≠ OutOfFuel)
  ∧ (∀ emit_rec x rest count w1,
       Slot_isConnected w1 x = false →
       emit_loop emit_rec s args (Some x :: rest) count w1
       = emit_loop emit_rec s args rest count
           (record (EvUnlock (LSlot x)) (record (EvLock (LSlot x)) w1)))
  ∧ post (λ w', ∃ evs,
            log w' = log w ++ evs
            ∧ (∃ xs, activations s evs = map (λ x, (x, args)) xs
                     ∧ sublist (Some <$> xs) (snapshot_of w sg))
            ∧ (∀ x a, slots w !! x = None → (x, a) ∉ activations s evs)
            ∧ no_activation_after_disconnect evs)
         (emit (S fuel) s args w).
Proof.
  intros Hs Hfree.
  split; [simpl; by apply emit_body_unfold|].
  split; [by apply loop_start_signal|].
  split; [apply loop_start_log|].
  split; [apply snapshot_of_elem|].
  split; [intros Hle; apply emit_terminates; lia|].
  split; [intros; by apply emit_loop_skip|].
  pose proof (emit_activations (S fuel) s args w sg Hs) as Hact.
  pose proof (emit_ordered (S fuel) s args w w (ordered_since_refl w)) as Hord.
  destruct (emit (S fuel) s args w) as [n w'|e w'| |]; cbn [post_gen] in *; try done.
  all: destruct Hact as (evs & Hlog & _ & xs & Hxs & Hsub).
  all: destruct Hord as (evs' & Hlog' & _ & Hno).
  all: assert (evs' = evs) as -> by (rewrite Hlog in Hlog'; by apply app_inv_head in Hlog').
  all: exists evs; split; [done|]; split; [by exists xs|]; split; [|done].
  all: intros x a Hx Hin; rewrite Hxs in Hin.
  all: apply list_elem_of_In, in_map_iff in Hin as (y & [= -> _] & Hy).
  all: apply list_elem_of_In in Hy.
  all: assert (Hin : Some x ∈ snapshot_of w sg)
         by (eapply elem_of_sublist; [|exact Hsub]; by apply list_elem_of_fmap_2).
  all: apply snapshot_of_elem in Hin as (_ & x' & [= <-] & Hc).
  all: unfold Slot_isConnected in Hc; by rewrite Hx in Hc.
Qed.

(** * Stale targets *)







Lemma Signal_disconnect_log s x w :
  ∃ evs, log (Signal_disconnect s (mkConnection (Some x)) w)
         = log w ++ [EvLock (LSignal s)] ++ evs ++ [EvUnlock (LSignal s)]
         ∧ Forall slot_event evs.
Proof.
  unfold Signal_disconnect, Connection_disconnect, weak_lock. simpl.
  destruct (slots w !! x) as [sl|] eqn:Hx.
  - rewrite Slot_disconnect_log. simpl. rewrite Hx.
    exists (disconnect_trace x (m_trackers sl)). rewrite <- !app_assoc.
    split; [done|apply disconnect_trace_slot_events].
  - exists []. simpl. by rewrite <- app_assoc.
Qed.


(** * Emission with callables that only update user data *)







Lemma Signal_disconnect_fields s c w :
  alive (Signal_disconnect s c w) = alive w
  ∧ counter (Signal_disconnect s c w) = counter w
  ∧ (∀ t, is_Some (trackables (Signal_disconnect s c w) !! t) ↔ is_Some (trackables w !! t))
  ∧ slots (Signal_disconnect s c w)
    = slots (Connection_disconnect c (record (EvLock (LSignal s)) w)).
Proof.
  unfold Signal_disconnect, Connection_disconnect. simpl.
  destruct (weak_lock _ _) as [x|]; [|done]. simpl.
  rewrite Slot_disconnect_alive, Slot_disconnect_counter.
  split; [done|]. split; [done|]. split; [|done].
  intros t. by rewrite Slot_disconnect_trackables_dom.
Qed.














(** * Slot::disconnect *)

Lemma disconnected_grows w w' x sl :
  slots w !! x = Some sl → disconnected w x → grows w w' → disconnected w' x.
Proof.
  intros Hx Hd [_ Hm] sl' Hsl'. destruct (Hd _ Hx) as [Hc Ht].
  destruct (Hm _ _ Hx) as (sl'' & Hsl'' & _ & Hc' & Ht').
  rewrite Hsl' in Hsl''. injection Hsl'' as <-. split; [auto|].
  destruct Ht' as [Heq|Heq]; congruence.
Qed.

Lemma Slot_disconnect_trackable x w sl t tk :
  slots w !! x = Some sl → trackables w !! t = Some tk →
  ∃ tk1, trackables (Slot_disconnect x w) !! t = Some tk1
         ∧ occurrences (Some x) (tk_slots tk1)
           = (occurrences (Some x) (tk_slots tk)
              - occurrences (TrackableTracker t) (m_trackers sl))%nat
         ∧ sublist (tk_slots tk1) (tk_slots tk)
         ∧ m_refCount tk1 = m_refCount tk.
Proof.
  intros Hx Ht. rewrite (Slot_disconnect_eq _ _ _ Hx). simpl.
  rewrite detach_trackables_lookup, Ht. simpl. eexists. split; [done|]. simpl.
  split; [apply occurrences_iter_erase_first|].
  split; [apply iter_erase_first_sublist|done].
Qed.

(** C8. [Slot::disconnect()], between the lock and the unlock of the
    slot, sends [detach] to every tracker and then calls the teardown
    override; the slot is left without trackers and marked disconnected,
    each trackable has lost one entry for the slot per tracker bound to
    it, a second call changes nothing but the trace of its own calls, and
    whatever is emitted afterwards the slot stays disconnected. *)
Theorem Slot_disconnect_spec (x : SlotId) (w : World) (sl : Slot) :
  slots w !! x = Some sl →
  let w1 := Slot_disconnect x w in
  let w2 := Slot_disconnect x w1 in
  log w1 = log w ++ disconnect_trace x (m_trackers sl)
  ∧ slots w1 !! x = Some (mkSlot (m_kind sl) [] (m_isEnabled sl) false)
  ∧ Slot_isConnected w1 x = false
  ∧ (Slot_isValid x w1).1 = false
  ∧ (∀ t tk, trackables w !! t = Some tk →
       ∃ tk1, trackables w1 !! t = Some tk1
              ∧ occurrences (Some x) (tk_slots tk1)
                = (occurrences (Some x) (tk_slots tk)
                   - occurrences (TrackableTracker t) (m_trackers sl))%nat
              ∧ sublist (tk_slots tk1) (tk_slots tk)
              ∧ m_refCount tk1 = m_refCount tk)
  ∧ (slots w2 = slots w1 ∧ signals w2 = signals w1 ∧ trackables w2 = trackables w1
     ∧ alive w2 = alive w1 ∧ counter w2 = counter w1
     ∧ activeConnection w2 = activeConnection w1
     ∧ log w2 = log w1 ++ disconnect_trace x [])
  ∧ (∀ fuel s args,
       post (λ w', Slot_isConnected w' x = false ∧ (Slot_isValid x w').1 = false)
            (emit fuel s args w1)).
Proof.
  intros Hx w1 w2.
  assert (Hd : disconnected w1 x) by apply disconnected_Slot_disconnect.
  assert (Hx1 : slots w1 !! x = Some (mkSlot (m_kind sl) [] (m_isEnabled sl) false)).
  { subst w1. by rewrite Slot_disconnect_lookup, decide_True, Hx. }
  split; [subst w1; by rewrite Slot_disconnect_log, Hx|].
  split; [done|].
  split; [by apply disconnected_not_connected|].
  split; [by apply disconnected_not_valid|].
  split; [intros t tk Ht; by apply Slot_disconnect_trackable|].
  split.
  { pose proof (Slot_disconnect_twice x w) as Htw. cbv zeta in Htw. rewrite Hx in Htw.
    exact Htw. }
  intros fuel s args. pose proof (emit_grows fuel s args w1) as Hg.
  destruct (emit fuel s args w1); simpl in *; try done.
  all: pose proof (disconnected_grows _ _ _ _ Hx1 Hd Hg) as Hd'.
  all: split; [by apply disconnected_not_connected|by apply disconnected_not_valid].
Qed.

(** * The claims on concrete stores *)


Lemma emission_guard_witness :
  signals emitting_world !! 0%nat = Some (mkSignal [Some 0%nat; Some 1%nat] false true)
  ∧ emit 1 0%nat [3; 4] emitting_world = Ok 0%nat emitting_world.
Proof.
  assert (Hs : signals emitting_world !! 0%nat
               = Some (mkSignal [Some 0%nat; Some 1%nat] false true))
    by (vm_compute; reflexivity).
  split; [exact Hs|].
  exact (proj1 (emission_guard 0 0%nat [3; 4] emitting_world _ Hs) eq_refl).
Defined.

(** The slot of [reentrant_world] emits its own signal: the inner call
    returns zero, the slot runs once and the outer call returns one. *)
Example reentrant_emission :
  ∃ w', emit 2 0%nat [5] reentrant_world = Ok 1%nat w'
        ∧ log w' = [EvLock (LSignal 0%nat); EvUnlock (LSignal 0%nat);
                    EvLock (LSlot 0%nat); EvUnlock (LSlot 0%nat);
                    EvActivate 0%nat 0%nat [5]; EvInvoke 0%nat [5];
                    EvEmitted 0%nat [9] 0%nat;
                    EvLock (LSlot 0%nat); EvUnlock (LSlot 0%nat)]
        ∧ counter w' = 5.
Proof. eexists. vm_compute. done. Qed.

Lemma emission_snapshot_witness :
  signals churn_world !! 0%nat = Some (mkSignal [Some 0%nat; Some 1%nat] false false)
  ∧ emit 2 0%nat [5] churn_world ≠ OutOfFuel
  ∧ emit 2 0%nat [5] churn_world
    = loop_end 0%nat (emit_loop (emit 1) 0%nat [5] [Some 0%nat; Some 1%nat] 0%nat
                        (loop_start 0%nat churn_world)).
Proof.
  assert (Hs : signals churn_world !! 0%nat
               = Some (mkSignal [Some 0%nat; Some 1%nat] false false))
    by (vm_compute; reflexivity).
  split; [exact Hs|].
  destruct (emission_snapshot 1 0%nat [5] churn_world _ Hs eq_refl)
    as (Hunfold & _ & _ & _ & Hterm & _).
  split; [|exact Hunfold].
  apply Hterm. vm_compute. constructor.
Defined.

(** In [churn_world] the first slot runs, the slot it disconnects is
    skipped, and the slot it connects is in the container afterwards but
    was not activated: the emission returns one and the counter is
    untouched. *)
Example emission_with_churn :
  ∃ w', emit 1 0%nat [5] churn_world = Ok 1%nat w'
        ∧ activations 0%nat (log w') = [(0%nat, [5])]
        ∧ (m_slots <$> signals w' !! 0%nat) = Some [Some 0%nat; Some 1%nat; Some 2%nat]
        ∧ Slot_isConnected w' 1%nat = false
        ∧ Slot_isConnected w' 2%nat = true
        ∧ counter w' = 0.
Proof. eexists. vm_compute. done. Qed.


(** In [stale_world] the emission skips the stale method slot, takes it
    out of the container, runs the next slot and returns one. *)
Example emission_with_stale_target :
  ∃ w', emit 1 0%nat [5] stale_world = Ok 1%nat w'
        ∧ invocations (log w') = [(1%nat, [5])]
        ∧ (m_slots <$> signals w' !! 0%nat) = Some [Some 1%nat]
        ∧ Slot_isConnected w' 0%nat = false
        ∧ counter w' = 5.
Proof. eexists. vm_compute. done. Qed.

Lemma Signal_destroy_invalidates_witness :
  signals sum_world !! 0%nat = Some (mkSignal [Some 0%nat; Some 1%nat] false false)
  ∧ Forall is_Some [Some 0%nat; Some 1%nat]
  ∧ ∃ w', Signal_destroy 0%nat sum_world = Ok tt w'
          ∧ Connection_bool w' (mkConnection (Some 0%nat)) = false
          ∧ (sywu.to_bool (sywu.mkConnection (Some 0%nat) (Some 1%nat)) w').1 = false.
Proof.
  assert (Hs : signals sum_world !! 0%nat
               = Some (mkSignal [Some 0%nat; Some 1%nat] false false))
    by (vm_compute; reflexivity).
  assert (Hsome : Forall is_Some [Some 0%nat; Some 1%nat])
    by (repeat constructor; by eexists).
  split; [exact Hs|]. split; [exact Hsome|].
  destruct (Signal_destroy_invalidates 0%nat sum_world _ Hs Hsome)
    as (w' & evs & Hrun & _ & _ & _ & _ & Hconn).
  exists w'. split; [exact Hrun|]. split.
  - apply (proj1 (Hconn 0%nat w' ltac:(left) ltac:(reflexivity))). reflexivity.
  - apply (proj2 (Hconn 1%nat w' ltac:(right; left) ltac:(reflexivity))). reflexivity.
Defined.

Lemma Slot_isValid_balanced_witness :
  slots tracked_world !! 0%nat
  = Some (mkSlot (FunctionSlot [])
                 [TrackableTracker 0%nat; WeakPtrTracker 5%nat; TrackableTracker 1%nat]
                 true true)
  ∧ counts_in_range 3 (trackables tracked_world)
  ∧ (Slot_isValid 0%nat tracked_world).1 = false
  ∧ log (Slot_isValid 0%nat tracked_world).2
    = [EvRetain (TrackableTracker 0%nat) true; EvRetain (WeakPtrTracker 5%nat) false;
       EvRelease (TrackableTracker 0%nat)]
  ∧ trackables (Slot_isValid 0%nat tracked_world).2 = trackables tracked_world.
Proof.
  assert (Hx : slots tracked_world !! 0%nat
               = Some (mkSlot (FunctionSlot [])
                         [TrackableTracker 0%nat; WeakPtrTracker 5%nat;
                          TrackableTracker 1%nat] true true))
    by (vm_compute; reflexivity).
  assert (Hr : counts_in_range 3 (trackables tracked_world)).
  { intros t tk Ht. simpl in Ht.
    apply lookup_insert_Some in Ht as [[_ <-]|[_ Ht]]; [simpl; lia|].
    apply lookup_singleton_Some in Ht as [_ <-]. simpl. lia. }
  split; [exact Hx|]. split; [exact Hr|].
  destruct (Slot_isValid_balanced 0%nat tracked_world _ Hx)
    as (evs & Hlog & _ & _ & _ & Hkeep).
  split; [vm_compute; reflexivity|]. split; [vm_compute; reflexivity|].
  exact (Hkeep Hr).
Defined.

Lemma Slot_disconnect_spec_witness :
  slots tracked_world !! 0%nat
  = Some (mkSlot (FunctionSlot [])
                 [TrackableTracker 0%nat; WeakPtrTracker 5%nat; TrackableTracker 1%nat]
                 true true)
  ∧ Slot_isConnected (Slot_disconnect 0%nat tracked_world) 0%nat = false
  ∧ slots (Slot_disconnect 0%nat (Slot_disconnect 0%nat tracked_world))
    = slots (Slot_disconnect 0%nat tracked_world)
  ∧ (tk_slots <$> trackables (Slot_disconnect 0%nat tracked_world) !! 0%nat) = Some [].
Proof.
  assert (Hx : slots tracked_world !! 0%nat
               = Some (mkSlot (FunctionSlot [])
                         [TrackableTracker 0%nat; WeakPtrTracker 5%nat;
                          TrackableTracker 1%nat] true true))
    by (vm_compute; reflexivity).
  split; [exact Hx|].
  destruct (Slot_disconnect_spec 0%nat tracked_world _ Hx)
    as (_ & _ & Hc & _ & _ & (Hidem & _) & _).
  split; [exact Hc|]. split; [exact Hidem|]. vm_compute. reflexivity.
Defined.

Lemma Trackable_destroy_detaches_witness :
  trackables tracked_world !! 0%nat = Some (mkTrackable [Some 0%nat] 0)
  ∧ Forall is_Some [Some 0%nat]
  ∧ ∃ w1, Trackable_disconnectSlots 0%nat tracked_world = Ok tt w1
          ∧ Slot_isConnected w1 0%nat = false
          ∧ Trackable_destroy 0%nat tracked_world
            = Ok tt (set_trackables (delete 0%nat) w1).
Proof.
  assert (Ht : trackables tracked_world !! 0%nat = Some (mkTrackable [Some 0%nat] 0))
    by (vm_compute; reflexivity).
  assert (Hsome : Forall is_Some [Some 0%nat]) by (repeat constructor; by eexists).
  split; [exact Ht|]. split; [exact Hsome|].
  destruct (Trackable_destroy_detaches 0%nat tracked_world _ Ht Hsome)
    as (w1 & Hrun & _ & Hdis & _ & Hdestroy & _).
  exists w1. split; [exact Hrun|]. split; [|exact Hdestroy].
  apply (Hdis 0%nat). left.
Defined.

Lemma Signal_disconnect_erases_all_witness :
  signals duplicate_world !! 0%nat
  = Some (mkSignal [Some 0%nat; Some 1%nat; Some 0%nat] false false)
  ∧ ∃ sg', signals (Signal_disconnect 0%nat (mkConnection (Some 0%nat)) duplicate_world)
             !! 0%nat = Some sg'
           ∧ m_slots sg' = [Some 1%nat].
Proof.
  assert (Hs : signals duplicate_world !! 0%nat
               = Some (mkSignal [Some 0%nat; Some 1%nat; Some 0%nat] false false))
    by (vm_compute; reflexivity).
  split; [exact Hs|].
  destruct (Signal_disconnect_erases_all 0%nat (mkConnection (Some 0%nat))
              duplicate_world _ Hs)
    as (sg' & Hsg' & Hm & _).
  exists sg'. split; [exact Hsg'|]. rewrite Hm. vm_compute. reflexivity.
Defined.

(** * The vector helpers on their own *)

Lemma state_after_cons {A St} (p : A → St → bool * St) a (v : list A) (s : St) j :
  state_after p (a :: v) s (S j) = state_after p v (p a s).2 j.
Proof. done. Qed.

(** X20.  [find_if] answers with the position of the first element the
    predicate accepts, the predicate being asked in the state its earlier
    calls left; it is not called beyond that element.  When no element is
    accepted the answer is [end()] and the predicate ran on every
    element. *)
Theorem find_if_first {A St} (p : A → St → bool * St) (v : list A) (s : St) :
  match (find_if p v s).1 with
  | Some k =>
      (∃ a, v !! k = Some a ∧ (p a (state_after p v s k)).1 = true)
      ∧ (∀ j a, (j < k)%nat → v !! j = Some a → (p a (state_after p v s j)).1 = false)
      ∧ (find_if p v s).2 = state_after p v s (S k)
  | None =>
      (∀ j a, v !! j = Some a → (p a (state_after p v s j)).1 = false)
      ∧ (find_if p v s).2 = state_after p v s (length v)
  end.
Proof.
  revert s. induction v as [|a v IH]; intros s.
  { simpl. split; [|done]. intros j a Hj. by rewrite lookup_nil in Hj. }
  cbn [find_if]. destruct (p a s) as [b s1] eqn:Hp. destruct b.
  { simpl. split; [exists a; split; [done|]; unfold state_after; simpl; by rewrite Hp|].
    split; [intros j a' Hj; lia|]. unfold state_after. simpl. by rewrite Hp. }
  specialize (IH s1). destruct (find_if p v s1) as [[k|] s2]; simpl in *.
  - destruct IH as ((a' & Hk & Hacc) & Hbefore & Hst).
    assert (Hs1 : s1 = (p a s).2) by (by rewrite Hp).
    split; [exists a'; split; [done|]; by rewrite state_after_cons, <- Hs1|].
    split; [|by rewrite state_after_cons, <- Hs1].
    intros [|j] a'' Hj Hl.
    + simpl in Hl. injection Hl as <-. unfold state_after. simpl. by rewrite Hp.
    + rewrite state_after_cons, <- Hs1. apply Hbefore; [lia|done].
  - destruct IH as (Hall & Hst).
    assert (Hs1 : s1 = (p a s).2) by (by rewrite Hp).
    split; [|by rewrite state_after_cons, <- Hs1].
    intros [|j] a'' Hl.
    + simpl in Hl. injection Hl as <-. unfold state_after. simpl. by rewrite Hp.
    + rewrite state_after_cons, <- Hs1. by apply Hall.
Qed.

Lemma erase_first_absent {A} `{EqDecision A} (l : list A) (a : A) :
  a ∉ l → erase_first l a = l.
Proof.
  induction l as [|b l IH]; [done|]. intros Hn. apply not_elem_of_cons in Hn as [Hne Hn].
  simpl. rewrite decide_False by done. by rewrite IH.
Qed.

Lemma erase_first_app {A} `{EqDecision A} (l1 l2 : list A) (a : A) :
  erase_first (l1 ++ l2) a
  = if decide (a ∈ l1) then erase_first l1 a ++ l2 else l1 ++ erase_first l2 a.
Proof.
  induction l1 as [|b l1 IH].
  { destruct (decide (a ∈ [])) as [H|H]; [by apply elem_of_nil in H|done]. }
  cbn [app erase_first]. destruct (decide (b = a)) as [->|Hne].
  - rewrite decide_True; [done|]. left.
  - rewrite IH. destruct (decide (a ∈ l1)) as [Hin|Hnin].
    + rewrite decide_True; [done|]. by right.
    + rewrite decide_False; [done|]. rewrite not_elem_of_cons. split; [congruence|done].
Qed.

Lemma occurrences_erase_first_ne {A} `{EqDecision A} (a b : A) (l : list A) :
  b ≠ a → occurrences b (erase_first l a) = occurrences b l.
Proof.
  intros Hne. induction l as [|c l IH]; [done|]. simpl. destruct (decide (c = a)) as [->|Hc].
  - rewrite occurrences_cons. rewrite decide_False by congruence. done.
  - by rewrite !occurrences_cons, IH.
Qed.

(** X21.  [erase_first] removes the first occurrence of the value and nothing
    else: the elements before and after it keep their places, a vector
    without the value is left as it is, and no other value loses an
    occurrence. *)
Theorem erase_first_spec {A} `{EqDecision A} (l : list A) (a : A) :
  (a ∉ l → erase_first l a = l)
  ∧ (∀ l1 l2, l = l1 ++ a :: l2 → a ∉ l1 → erase_first l a = l1 ++ l2)
  ∧ (a ∈ l → S (length (erase_first l a)) = length l)
  ∧ occurrences a (erase_first l a) = pred (occurrences a l)
  ∧ ∀ b, b ≠ a → occurrences b (erase_first l a) = occurrences b l.
Proof.
  split; [apply erase_first_absent|]. split.
  { intros l1 l2 -> Hn. rewrite erase_first_app, decide_False by done.
    simpl. by rewrite decide_True. }
  split.
  { induction l as [|b l IH]; intros Hin; [by apply elem_of_nil in Hin|].
    simpl. destruct (decide (b = a)) as [->|Hne]; [done|].
    apply elem_of_cons in Hin as [->|Hin]; [done|]. simpl. by rewrite IH. }
  split; [apply occurrences_erase_first|].
  intros b Hne. by apply occurrences_erase_first_ne.
Qed.

(** * Trackable on its own *)

Lemma wrap_int_max : wrap_int (2 ^ 31) = - 2 ^ 31.
Proof. reflexivity. Qed.

Lemma wrap_int_min : wrap_int (- 2 ^ 31 - 1) = 2 ^ 31 - 1.
Proof. reflexivity. Qed.

Lemma wrap_int_succ_pred z : int_range z → wrap_int (wrap_int (z + 1) - 1) = z.
Proof.
  intros Hz. unfold int_range in Hz.
  destruct (decide (z = 2 ^ 31 - 1)) as [->|Hne]; [reflexivity|].
  rewrite (wrap_int_id (z + 1)) by lia. replace (z + 1 - 1) with z by lia.
  by apply wrap_int_id.
Qed.

Lemma wrap_int_pred_succ z : int_range z → wrap_int (wrap_int (z - 1) + 1) = z.
Proof.
  intros Hz. unfold int_range in Hz.
  destruct (decide (z = - 2 ^ 31)) as [->|Hne]; [reflexivity|].
  rewrite (wrap_int_id (z - 1)) by lia. replace (z - 1 + 1) with z by lia.
  by apply wrap_int_id.
Qed.

(** X16.  [retain] followed by [release], and [release] followed by [retain],
    leave the trackable exactly as it was, for every value of the count:
    the atomic counter wraps around in both directions. *)
Theorem Trackable_retain_release (t : Trackable) :
  int_range (m_refCount t) →
  (Trackable_release (Trackable_retain t).2).2 = t
  ∧ (Trackable_retain (Trackable_release t).2).2 = t.
Proof.
  intros Hr. destruct t as [l c]. unfold Trackable_release, Trackable_retain, set_refCount.
  simpl in *. split; f_equal; [by apply wrap_int_succ_pred|by apply wrap_int_pred_succ].
Qed.

(** X17.  [retain] reports success exactly when the count was non-negative and
    below the largest [int]: at the largest [int] the increment wraps to
    the smallest one and [retain] reports failure.  [release] asks for
    the deletion exactly when the count was at most one, except at the
    smallest [int], where the decrement wraps to the largest one. *)
Theorem Trackable_count_edges (t : Trackable) :
  int_range (m_refCount t) →
  ((Trackable_retain t).1 = true ↔ 0 ≤ m_refCount t < 2 ^ 31 - 1)
  ∧ ((Trackable_release t).1 = true ↔ - 2 ^ 31 < m_refCount t ≤ 1)
  ∧ int_range (m_refCount (Trackable_retain t).2)
  ∧ int_range (m_refCount (Trackable_release t).2).
Proof.
  intros Hr. destruct t as [l c]. unfold Trackable_release, Trackable_retain, set_refCount,
    int_range in *. simpl in *.
  assert (Hup : c = 2 ^ 31 - 1 ∨ c < 2 ^ 31 - 1) by lia.
  assert (Hdown : c = - 2 ^ 31 ∨ - 2 ^ 31 < c) by lia.
  split; [|split; [|split]].
  - destruct Hup as [->|Hlt].
    + replace (2 ^ 31 - 1 + 1) with (2 ^ 31) by lia. rewrite wrap_int_max.
      split; [intros H; discriminate H|lia].
    + rewrite wrap_int_id by lia. rewrite Z.ltb_lt. lia.
  - destruct Hdown as [->|Hlt].
    + rewrite wrap_int_min. split; [intros H; discriminate H|lia].
    + rewrite wrap_int_id by lia. rewrite Z.leb_le. lia.
  - destruct Hup as [->|Hlt].
    + replace (2 ^ 31 - 1 + 1) with (2 ^ 31) by lia. rewrite wrap_int_max. lia.
    + rewrite wrap_int_id by lia. lia.
  - destruct Hdown as [->|Hlt].
    + rewrite wrap_int_min. lia.
    + rewrite wrap_int_id by lia. lia.
Qed.

Lemma Trackable_retain_fails (t : Trackable) :
  int_range (m_refCount t) → ¬ (0 ≤ m_refCount t < 2 ^ 31 - 1) →
  (Trackable_retain t).1 = false.
Proof.
  intros Hr Hout. destruct t as [l c]. unfold Trackable_retain, set_refCount, int_range in *.
  simpl in *. destruct (decide (c = 2 ^ 31 - 1)) as [->|Hne]; [reflexivity|].
  rewrite wrap_int_id by lia. apply Z.ltb_ge. lia.
Qed.

(** X18.  [attach] followed by [detach] of the same slot leaves every slot
    attached as often as before, and the trackable as it was when the
    slot had not been attached before; the count is not touched.
    [detach] takes away one entry of the slot, and nothing when the slot
    is not attached. *)
Theorem Trackable_attach_detach (slot : SlotPtr) (t : Trackable) :
  let t' := Trackable_detach slot (Trackable_attach slot t) in
  (∀ p, occurrences p (tk_slots t') = occurrences p (tk_slots t))
  ∧ m_refCount t' = m_refCount t
  ∧ (slot ∉ tk_slots t → t' = t)
  ∧ (slot ∉ tk_slots t → Trackable_detach slot t = t)
  ∧ occurrences slot (tk_slots (Trackable_detach slot t))
    = pred (occurrences slot (tk_slots t))
  ∧ ∀ p, p ≠ slot →
      occurrences p (tk_slots (Trackable_detach slot t)) = occurrences p (tk_slots t).
Proof.
  destruct t as [l c]. unfold Trackable_detach, Trackable_attach, set_tk_slots. simpl.
  split.
  { intros p. rewrite erase_first_app. destruct (decide (slot ∈ l)) as [Hin|Hnin].
    - rewrite !occurrences_app. destruct (decide (p = slot)) as [->|Hne].
      + rewrite occurrences_erase_first.
        assert (Hpos : (0 < occurrences slot l)%nat).
        { destruct (occurrences slot l) eqn:E; [|lia].
          apply occurrences_zero in E. done. }
        rewrite occurrences_cons, decide_True by done.
        change (occurrences slot []) with 0%nat. lia.
      + rewrite occurrences_erase_first_ne by done.
        rewrite occurrences_cons, decide_False by congruence.
        change (occurrences p []) with 0%nat. lia.
    - simpl. rewrite decide_True by done. rewrite app_nil_r. done. }
  split; [done|]. split.
  { intros Hn. rewrite erase_first_app, decide_False by done. simpl.
    rewrite decide_True by done. by rewrite app_nil_r. }
  split; [intros Hn; by rewrite erase_first_absent|].
  split; [apply occurrences_erase_first|].
  intros p Hne. by apply occurrences_erase_first_ne.
Qed.

(** X15.  An intrusive pointer taken on a trackable and given up again: when
    other references exist the store is exactly as before; when it was
    the only one, giving it up deletes the trackable, whose destructor
    first disconnects every slot attached to it. *)
Theorem intrusive_ptr_pairing (t : TrackableId) (w : World) (tk : Trackable) :
  trackables w !! t = Some tk →
  0 ≤ m_refCount tk < 2 ^ 31 - 1 →
  Forall is_Some (tk_slots tk) →
  ∃ w1,
    intrusive_ptr_add_ref t w = Ok tt w1
    ∧ trackables w1 !! t = Some (set_refCount (m_refCount tk + 1) tk)
    ∧ if decide (m_refCount tk = 0) then
        ∃ w2, intrusive_ptr_release t w1 = Ok tt w2
              ∧ trackables w2 !! t = None
              ∧ (∀ x, Some x ∈ tk_slots tk → Slot_isConnected w2 x = false)
              ∧ signals w2 = signals w
      else intrusive_ptr_release t w1 = Ok tt w.
Proof.
  intros Ht Hc Hsome. unfold intrusive_ptr_add_ref. rewrite Ht.
  eexists. split; [done|].
  assert (Hret : (Trackable_retain tk).2 = set_refCount (m_refCount tk + 1) tk).
  { unfold Trackable_retain. simpl. by rewrite wrap_int_id by lia. }
  rewrite Hret. split; [simpl; by rewrite lookup_insert_eq|].
  unfold intrusive_ptr_release. cbn [trackables set_trackables]. rewrite lookup_insert_eq.
  unfold Trackable_release. cbn [m_refCount set_refCount tk_slots].
  replace (m_refCount tk + 1 - 1) with (m_refCount tk) by lia.
  rewrite wrap_int_id by lia.
  destruct (decide (m_refCount tk = 0)) as [Hz|Hnz].
  - rewrite Hz. cbn [Z.leb Z.compare].
    set (tk0 := set_refCount 0 (set_refCount (0 + 1) tk)).
    set (w1 := set_trackables (insert t tk0) (set_trackables _ w)).
    assert (Ht1 : trackables w1 !! t = Some tk0) by (subst w1; simpl; by rewrite lookup_insert_eq).
    destruct (disconnectSlots_loop_spec t (length (tk_slots tk0)) w1 tk0 Ht1 (le_n _) Hsome)
      as (w2 & Hrun & _ & Hdis & _ & _ & Hsig).
    unfold Trackable_destroy, Trackable_disconnectSlots. rewrite Ht1, Hrun. simpl.
    eexists. split; [done|]. split; [simpl; by rewrite lookup_delete_eq|].
    split; [|exact Hsig].
    intros x Hx. apply disconnected_not_connected. exact (Hdis x Hx).
  - rewrite (proj2 (Z.leb_gt _ _)) by lia.
    f_equal. destruct w as [sl sg tr al cn ac lg]. unfold set_trackables. simpl in *.
    f_equal. rewrite insert_insert_eq. apply insert_id. rewrite Ht. by destruct tk.
Qed.

(** * Connecting *)

Lemma make_shared_fresh k w : slots w !! (make_shared k w).1 = None.
Proof.
  unfold make_shared. simpl. apply not_elem_of_dom. apply is_fresh.
Qed.

Lemma connect_function_eq s f w sg :
  signals w !! s = Some sg →
  let x := fresh (dom (slots w)) in
  connect_function s f w
  = Ok (mkConnection (Some x))
       (mkWorld (<[x := mkSlot (FunctionSlot f) [] true true]> (slots w))
                (<[s := set_m_slots (m_slots sg ++ [Some x]) sg]> (signals w))
                (trackables w) (alive w) (counter w) (activeConnection w)
                (log w ++ [EvLock (LSignal s); EvUnlock (LSignal s)])).
Proof.
  intros Hs x. unfold connect_function, make_shared, addSlot. fold x. simpl.
  rewrite Hs. f_equal. unfold record, set_signals, set_slots. simpl. f_equal.
  - apply map_eq. intros i. rewrite lookup_alter, lookup_insert.
    case_decide; [subst; by rewrite Hs|done].
  - by rewrite <- app_assoc.
Qed.

(** X10.  [connect(function)] on a signal makes a new slot object for the
    callable, enabled and connected, without trackers, puts it at the end
    of the signal's container under the signal's lock and returns a live
    connection to it; no other slot, no other signal and nothing else in
    the store is touched.  A null slot handed to [addSlot] is refused by
    the assertion. *)
Theorem connect_function_appends (s : SigId) (f : list Action) (w : World) (sg : Signal) :
  signals w !! s = Some sg →
  (∃ x w',
    connect_function s f w = Ok (mkConnection (Some x)) w'
    ∧ slots w !! x = None
    ∧ slots w' = <[x := mkSlot (FunctionSlot f) [] true true]> (slots w)
    ∧ signals w' = <[s := set_m_slots (m_slots sg ++ [Some x]) sg]> (signals w)
    ∧ Connection_get w' (mkConnection (Some x)) = Some x
    ∧ Connection_bool w' (mkConnection (Some x)) = true
    ∧ log w' = log w ++ [EvLock (LSignal s); EvUnlock (LSignal s)]
    ∧ trackables w' = trackables w ∧ alive w' = alive w ∧ counter w' = counter w
    ∧ activeConnection w' = activeConnection w)
  ∧ addSlot s None w = Fault AssertFailed.
Proof.
  intros Hs. split; [|unfold addSlot; by rewrite Hs].
  eexists _, _. split; [by apply connect_function_eq|].
  split; [apply (make_shared_fresh (FunctionSlot f))|].
  cbn [slots signals log trackables alive counter activeConnection].
  split; [done|]. split; [done|].
  unfold Connection_get, Connection_bool, weak_lock, Slot_isConnected.
  cbn [m_slot slots]. rewrite !lookup_insert_eq. by repeat split.
Qed.

Lemma connect_method_eq s receiver method w sg :
  signals w !! s = Some sg →
  let x := fresh (dom (slots w)) in
  connect_method s receiver method w
  = Ok (mkConnection (Some x))
       (mkWorld (<[x := mkSlot (MethodSlot receiver method) [SharedPtrTracker receiver]
                           true true]> (slots w))
                (<[s := set_m_slots (m_slots sg ++ [Some x]) sg]> (signals w))
                (trackables w) (alive w) (counter w) (activeConnection w)
                (log w ++ [EvLock (LSignal s); EvUnlock (LSignal s)])).
Proof.
  intros Hs x. unfold connect_method, make_shared, addSlot, Slot_bind. fold x. simpl.
  rewrite Hs. f_equal. unfold record, set_signals, set_slots. simpl. f_equal.
  - apply map_eq. intros i. rewrite lookup_alter.
    case_decide; [subst; by rewrite !lookup_insert_eq|by rewrite !lookup_insert_ne].
  - apply map_eq. intros i. rewrite lookup_alter, lookup_insert.
    case_decide; [subst; by rewrite Hs|done].
  - by rewrite <- app_assoc.
Qed.

(** X11.  [connect(receiver, method)] makes a new method slot bound to the
    receiver, puts it at the end of the container and returns a
    connection to it that is live exactly when the receiver is alive; no
    other slot and no other signal is touched. *)
Theorem connect_method_appends (s : SigId) (receiver : ObjId) (method : list Action)
    (w : World) (sg : Signal) :
  signals w !! s = Some sg →
  ∃ x w',
    connect_method s receiver method w = Ok (mkConnection (Some x)) w'
    ∧ slots w !! x = None
    ∧ slots w' = <[x := mkSlot (MethodSlot receiver method) [SharedPtrTracker receiver]
                           true true]> (slots w)
    ∧ signals w' = <[s := set_m_slots (m_slots sg ++ [Some x]) sg]> (signals w)
    ∧ Connection_bool w' (mkConnection (Some x)) = bool_decide (receiver ∈ alive w)
    ∧ trackables w' = trackables w ∧ alive w' = alive w ∧ counter w' = counter w.
Proof.
  intros Hs. eexists _, _. split; [by apply connect_method_eq|].
  split; [apply (make_shared_fresh (MethodSlot receiver method))|].
  cbn [slots signals log trackables alive counter activeConnection].
  split; [done|]. split; [done|]. split; [|done].
  unfold Connection_bool, weak_lock, Slot_isConnected.
  cbn [m_slot slots]. rewrite !lookup_insert_eq. simpl.
  by destruct (bool_decide (receiver ∈ alive w)).
Qed.

Lemma owned_not_fresh w l : owned w l → Some (fresh (dom (slots w))) ∉ l.
Proof.
  intros Ho Hin. unfold owned in Ho. rewrite Forall_forall in Ho.
  destruct (Ho _ Hin) as (x & [= <-] & Hx).
  apply elem_of_dom in Hx. by apply is_fresh in Hx.
Qed.

Lemma erase_app_last {A} `{EqDecision A} (l : list A) (a : A) :
  a ∉ l → erase (l ++ [a]) a = l.
Proof.
  intros Hn. rewrite erase_filter, filter_app, filter_cons_False by naive_solver.
  rewrite filter_nil, app_nil_r. rewrite <- erase_filter.
  rewrite erase_filter. apply filter_ne_id. done.
Qed.

(** X12.  Connecting a callable and disconnecting the connection that came
    back leaves the container of the signal, and every signal, as they
    were; the slot object made in between is left disconnected, so the
    connection reports not-live; every other slot is as before. *)
Theorem connect_disconnect_round_trip (s : SigId) (f : list Action) (w : World)
    (sg : Signal) :
  signals w !! s = Some sg →
  owned w (m_slots sg) →
  ∃ x w1,
    connect_function s f w = Ok (mkConnection (Some x)) w1
    ∧ let w2 := Signal_disconnect s (mkConnection (Some x)) w1 in
      signals w2 = signals w
      ∧ Connection_bool w2 (mkConnection (Some x)) = false
      ∧ slots w2 = <[x := mkSlot (FunctionSlot f) [] true false]> (slots w)
      ∧ slots w !! x = None
      ∧ trackables w2 = trackables w ∧ alive w2 = alive w ∧ counter w2 = counter w.
Proof.
  intros Hs Ho. eexists _, _. split; [by apply connect_function_eq|].
  set (x := fresh (dom (slots w))).
  set (w1 := mkWorld _ _ _ _ _ _ _). cbv zeta.
  assert (Hx1 : slots w1 !! x = Some (mkSlot (FunctionSlot f) [] true true))
    by (subst w1; simpl; by rewrite lookup_insert_eq).
  assert (Hget : Connection_get w1 (mkConnection (Some x)) = Some x)
    by (unfold Connection_get, weak_lock; simpl; by rewrite lookup_insert_eq).
  assert (Hsl : slots (Signal_disconnect s (mkConnection (Some x)) w1)
                = <[x := mkSlot (FunctionSlot f) [] true false]> (slots w)).
  { destruct (Signal_disconnect_fields s (mkConnection (Some x)) w1) as (_ & _ & _ & ->).
    unfold Connection_disconnect, weak_lock. cbn [m_slot record slots].
    rewrite Hx1. rewrite Slot_disconnect_slots. cbn [record slots].
    subst w1. cbn [slots]. apply map_eq. intros i. rewrite lookup_alter.
    case_decide; [subst; by rewrite !lookup_insert_eq|by rewrite !lookup_insert_ne]. }
  split.
  { rewrite Signal_disconnect_signals, Hget. subst w1. cbn [signals].
    apply map_eq. intros i. rewrite lookup_alter.
    case_decide; [|by rewrite lookup_insert_ne]. subst i. rewrite lookup_insert_eq. simpl.
    rewrite erase_app_last by (by apply owned_not_fresh). rewrite Hs. by destruct sg. }
  split.
  { unfold Connection_bool, weak_lock, Slot_isConnected. cbn [m_slot]. rewrite Hsl.
    rewrite lookup_insert_eq. by rewrite lookup_insert_eq. }
  split; [done|]. split; [apply (make_shared_fresh (FunctionSlot f))|].
  destruct (Signal_disconnect_fields s (mkConnection (Some x)) w1) as (Ha & Hc & _ & _).
  split; [|by rewrite Ha, Hc].
  unfold Signal_disconnect, Connection_disconnect, weak_lock. cbn [m_slot record slots].
  rewrite Hx1. cbn [trackables set_signals record].
  erewrite Slot_disconnect_eq by exact Hx1. done.
Qed.

(** * What every emission leaves as it was *)

(** X2.  Whatever is emitted, and whether the emission returns or throws,
    every signal is still there, with its blocked flag and its emission
    guard as before: the guard taken by an emission is released on every
    way out, and a signal found free can be emitted again. *)
Theorem emission_releases_guards (fuel : nat) (s : SigId) (args : Args) (w : World) :
  post (λ w', ∀ s0 sg0, signals w !! s0 = Some sg0 →
                ∃ sg', signals w' !! s0 = Some sg'
                       ∧ m_blocked sg' = m_blocked sg0
                       ∧ m_emitGuard sg' = m_emitGuard sg0)
       (emit fuel s args w).
Proof.
  pose proof (emit_guards fuel s args w) as Hg.
  destruct (emit fuel s args w) as [n w'|e w'| |]; cbn [post_gen] in *; try done.
  all: intros s0 sg0 Hs0.
  all: pose proof (guards_lookup _ _ _ Hs0) as Hl; rewrite <- Hg in Hl.
  all: unfold guards in Hl; rewrite lookup_fmap in Hl.
  all: destruct (signals w' !! s0) as [sg'|]; [|done].
  all: exists sg'; simpl in Hl; split; [done|]; split; congruence.
Qed.

Lemma Signal_disconnect_active s c w :
  activeConnection (Signal_disconnect s c w) = activeConnection w.
Proof.
  unfold Signal_disconnect, Connection_disconnect. simpl.
  destruct (weak_lock _ _); [|done]. simpl. by rewrite Slot_disconnect_active.
Qed.

Section active.
Variable emit_rec : SigId → Args → World → Result nat.
Hypothesis Hrec : ∀ s a w,
  post (λ w', activeConnection w' = activeConnection w) (emit_rec s a w).

Lemma run_action_active act args w :
  post (λ w', activeConnection w' = activeConnection w) (run_action emit_rec act args w).
Proof.
  destruct act as [i|s f|c| |s c|s a|o|e]; cbn [run_action]; try done.
  - unfold connect_function, make_shared, addSlot. simpl.
    by destruct (signals w !! s).
  - cbn [post_gen]. unfold Connection_disconnect. destruct (weak_lock _ _); [|done].
    by rewrite Slot_disconnect_active.
  - cbn [post_gen]. unfold Connection_disconnect. destruct (weak_lock _ _); [|done].
    by rewrite Slot_disconnect_active.
  - destruct (signals w !! s); [|done]. cbn [post_gen].
    by rewrite Signal_disconnect_active.
  - pose proof (Hrec s a w) as H. by destruct (emit_rec s a w).
Qed.

Lemma run_actions_active acts args : ∀ w,
  post (λ w', activeConnection w' = activeConnection w) (run_actions emit_rec acts args w).
Proof.
  induction acts as [|act acts IH]; intros w; [done|]. simpl.
  pose proof (run_action_active act args w) as Ha.
  destruct (run_action emit_rec act args w) as [[] w1|e w1| |]; simpl in *; try done.
  pose proof (IH w1) as Hr.
  destruct (run_actions emit_rec acts args w1); simpl in *; congruence.
Qed.

Lemma activate_active x args w :
  post (λ w', activeConnection w' = activeConnection w) (activate emit_rec x args w).
Proof.
  unfold activate, activateOverride. destruct (slots w !! x) as [sl|]; [|done].
  destruct (m_kind sl) as [f|target f|receiver].
  - apply (run_actions_active f args (record (EvInvoke x args) w)).
  - case_bool_decide; [|done].
    apply (run_actions_active f args (record (EvInvoke x args) w)).
  - pose proof (Hrec receiver args (record (EvInvoke x args) w)) as H.
    by destruct (emit_rec receiver args _).
Qed.

End active.



(** * The count an emission returns *)

Lemma erase_if_length {A} (p : A → bool) (l : list A) :
  (length (erase_if l p) ≤ length l)%nat.
Proof. induction l as [|a l IH]; simpl; [done|]. destruct (p a); simpl; lia. Qed.

Lemma activations_length_app s l1 l2 :
  length (activations s (l1 ++ l2))
  = (length (activations s l1) + length (activations s l2))%nat.
Proof. by rewrite activations_app, length_app. Qed.

Lemma log_grows_atomic w0 w w' :
  atomic w w' → (∃ evs, log w = log w0 ++ evs) → ∃ evs, log w' = log w0 ++ evs.
Proof.
  intros Hat (evs & Hl). destruct (atomic_log _ _ Hat) as (ev1 & Hl1 & _).
  exists (evs ++ ev1). by rewrite Hl1, Hl, app_assoc.
Qed.

Lemma emit_log_grows fuel s args w :
  post (λ w', ∃ evs, log w' = log w ++ evs) (emit fuel s args w).
Proof.
  pose proof (emit_grows fuel s args w) as Hg.
  destruct (emit fuel s args w); simpl in *; try done; by destruct Hg.
Qed.

Lemma activate_log_grows fuel x args w :
  post (λ w', ∃ evs, log w' = log w ++ evs) (activate (emit fuel) x args w).
Proof.
  apply (activate_rule (emit fuel) True (λ w', ∃ evs, log w' = log w ++ evs)).
  - intros w1 w2. apply log_grows_atomic.
  - intros s a w1 (evs & Hl). pose proof (emit_log_grows fuel s a w1) as He.
    destruct (emit fuel s a w1) as [n w2|e w2| |]; simpl in *; try done.
    + destruct He as (ev2 & Hl2). exists (evs ++ ev2 ++ [EvEmitted s a n]).
      rewrite Hl2, Hl. by rewrite <- !app_assoc.
    + destruct He as (ev2 & Hl2). exists (evs ++ ev2). by rewrite Hl2, Hl, app_assoc.
  - intros s a w1 (evs & Hl). pose proof (emit_log_grows fuel s a w1) as He.
    destruct (emit fuel s a w1) as [n w2|e w2| |]; simpl in *; try done.
    all: destruct He as (ev2 & Hl2); exists (evs ++ ev2); by rewrite Hl2, Hl, app_assoc.
  - exists []. by rewrite app_nil_r.
Qed.

Lemma emit_loop_count fuel s args : ∀ snapshot count w n w',
  emit_loop (emit fuel) s args snapshot count w = Ok n w' →
  ∃ evs, log w' = log w ++ evs
         ∧ (count ≤ n)%nat
         ∧ (n ≤ count + length (activations s evs))%nat.
Proof.
  induction snapshot as [|[x|] rest IH]; intros count w n w'; simpl; [| |done].
  { intros [= <- <-]. exists []. rewrite app_nil_r. simpl. split; [done|lia]. }
  destruct (Slot_isConnected (record (EvLock (LSlot x)) w) x); simpl.
  2:{ intros Hrun. destruct (IH _ _ _ _ Hrun) as (evs & Hl & Hlo & Hhi).
      exists ([EvLock (LSlot x); EvUnlock (LSlot x)] ++ evs).
      split; [rewrite Hl; simpl; by rewrite <- !app_assoc|]. split; [done|].
      cbn [app]. by rewrite !activations_cons. }
  match goal with |- context [activate _ x args ?w3] =>
    pose proof (activate_log_grows fuel x args w3) as Hact;
    destruct (activate (emit fuel) x args w3) as [[] w4|e w4| |]; simpl in *; try done
  end.
  - destruct Hact as (ev1 & Hl1). intros Hrun.
    destruct (IH _ _ _ _ Hrun) as (evs & Hl & Hlo & Hhi).
    eexists. split.
    { rewrite Hl. simpl. rewrite Hl1. simpl. rewrite <- !app_assoc. done. }
    split; [lia|]. cbn [app]. rewrite !activations_cons, decide_True by done.
    cbn [length]. rewrite activations_length_app, !activations_cons. lia.
  - destruct Hact as (ev1 & Hl1). destruct e; simpl; try done.
    all: intros Hrun; destruct (IH _ _ _ _ Hrun) as (evs & Hl & Hlo & Hhi).
    all: match type of Hl with context [Signal_disconnect ?s0 (mkConnection (Some ?x0)) ?w6] =>
           destruct (Signal_disconnect_log s0 x0 w6) as (ev2 & Hl2 & _) end.
    all: eexists; split;
      [rewrite Hl; cbn [log record]; rewrite Hl2; cbn [log record set_active];
       rewrite Hl1; cbn [log record set_active]; rewrite <- !app_assoc; done|].
    all: split; [done|].
    all: cbn [app]; rewrite !activations_cons, decide_True by done.
    all: cbn [length];
      repeat (rewrite activations_length_app || rewrite activations_cons); lia.
Qed.

(** X5.  The count an emission returns is at most the number of slots the
    signal activated in that emission, which is at most the number of
    connected entries the container had when the emission started, which
    is at most the size of the container. *)
Theorem emit_count_bound (fuel : nat) (s : SigId) (args : Args) (w w' : World)
    (sg : Signal) (n : nat) :
  signals w !! s = Some sg →
  emit fuel s args w = Ok n w' →
  ∃ evs, log w' = log w ++ evs
         ∧ (n ≤ length (activations s evs))%nat
         ∧ (length (activations s evs) ≤ length (snapshot_of w sg))%nat
         ∧ (length (snapshot_of w sg) ≤ length (m_slots sg))%nat.
Proof.
  intros Hs Hrun. pose proof (emit_activations fuel s args w sg Hs) as Hact.
  rewrite Hrun in Hact. cbn [post_gen] in Hact.
  destruct Hact as (evs & Hlog & _ & xs & Hxs & Hsub).
  exists evs. split; [done|].
  assert (Hmid : (length (activations s evs) ≤ length (snapshot_of w sg))%nat).
  { rewrite Hxs, length_map. apply sublist_length in Hsub. by rewrite length_fmap in Hsub. }
  split; [|split; [done|apply erase_if_length]].
  destruct fuel as [|fuel]; [done|]. simpl in Hrun.
  destruct (m_blocked sg || m_emitGuard sg) eqn:Hfree.
  { rewrite (emit_body_closed _ _ _ _ _ Hs Hfree) in Hrun. injection Hrun as <- <-. lia. }
  rewrite (emit_body_unfold _ _ _ _ _ Hs Hfree) in Hrun.
  destruct (emit_loop (emit fuel) s args (snapshot_of w sg) 0%nat (loop_start s w))
    as [n5 w5| | |] eqn:Hloop; try done.
  cbn [loop_end] in Hrun. injection Hrun as <- <-.
  destruct (emit_loop_count _ _ _ _ _ _ _ _ Hloop) as (ev5 & Hl5 & _ & Hhi).
  cbn [log set_signals] in Hlog. rewrite Hl5, loop_start_log, <- app_assoc in Hlog.
  apply app_inv_head in Hlog. subst evs. cbn [app].
  rewrite !activations_cons. simpl in Hhi. lia.
Qed.

(** * The enabled flag *)

Lemma enabled_kept_refl w : enabled_kept w w.
Proof.
  split.
  - intros x sl Hx. by exists sl.
  - intros x sl' Hx Hn. congruence.
Qed.

Lemma enabled_kept_same w w1 w2 :
  slots w2 = slots w1 → enabled_kept w w1 → enabled_kept w w2.
Proof. intros Hs [H1 H2]. split; intros x; rewrite Hs; [apply H1|apply H2]. Qed.

Lemma enabled_kept_Slot_disconnect w w1 x :
  enabled_kept w w1 → enabled_kept w (Slot_disconnect x w1).
Proof.
  intros [H1 H2]. split.
  - intros y sl Hy. destruct (H1 y sl Hy) as (sl1 & Hy1 & He).
    rewrite Slot_disconnect_lookup. case_decide.
    + rewrite Hy1. eexists. split; [done|]. exact He.
    + by exists sl1.
  - intros y sl' Hy Hn. rewrite Slot_disconnect_lookup in Hy. case_decide.
    + destruct (slots w1 !! y) as [sl1|] eqn:Hy1; [|done].
      injection Hy as <-. simpl. by apply (H2 y sl1).
    + by apply (H2 y sl').
Qed.

Lemma enabled_kept_make_shared w w1 k :
  enabled_kept w w1 → enabled_kept w (make_shared k w1).2.
Proof.
  intros [H1 H2]. pose proof (make_shared_fresh k w1) as Hfresh.
  assert (Hs : slots (make_shared k w1).2
               = <[(make_shared k w1).1 := mkSlot k [] true true]> (slots w1))
    by (by destruct w1).
  split.
  - intros y sl Hy. destruct (H1 y sl Hy) as (sl1 & Hy1 & He).
    exists sl1. split; [|done]. rewrite Hs, lookup_insert_ne; [done|].
    intros <-. congruence.
  - intros y sl' Hy Hn. rewrite Hs in Hy.
    apply lookup_insert_Some in Hy as [[_ <-]|[_ Hy]]; [done|].
    by apply (H2 y sl').
Qed.

Lemma enabled_kept_atomic w w1 w2 :
  atomic w1 w2 → enabled_kept w w1 → enabled_kept w w2.
Proof.
  intros Hat Hk. destruct Hat as [l ?|l ?|x a ?|c ?|f ?|o ?|s g ?|x ?|k ?];
    try (by apply (enabled_kept_same w w0)).
  - by apply enabled_kept_Slot_disconnect.
  - by apply enabled_kept_make_shared.
Qed.

Lemma emit_enabled_kept fuel s args w : post (enabled_kept w) (emit fuel s args w).
Proof.
  apply (emit_rule (enabled_kept w)).
  - intros w1 w2. apply enabled_kept_atomic.
  - intros s' x a w1 _. by apply enabled_kept_same.
  - intros s' a n w1. by apply enabled_kept_same.
  - intros s' b w1. by apply enabled_kept_same.
  - apply enabled_kept_refl.
Qed.

Lemma setEnabled_lookup b x w y :
  slots (set_slots (alter (Slot_setEnabled b) x) w) !! y
  = if decide (x = y) then Slot_setEnabled b <$> slots w !! y else slots w !! y.
Proof. cbn [slots set_slots]. rewrite lookup_alter. by case_decide; subst. Qed.

Lemma tracker_isValid_setEnabled b x w tr :
  tracker_isValid (set_slots (alter (Slot_setEnabled b) x) w) tr = tracker_isValid w tr.
Proof. by destruct tr. Qed.

Lemma Slot_isConnected_setEnabled b x w y :
  Slot_isConnected (set_slots (alter (Slot_setEnabled b) x) w) y = Slot_isConnected w y.
Proof.
  unfold Slot_isConnected. rewrite setEnabled_lookup.
  assert (Hall : ∀ l, forallb (tracker_isValid (set_slots (alter (Slot_setEnabled b) x) w)) l
                      = forallb (tracker_isValid w) l).
  { induction l as [|tr l IH]; [done|]. simpl. by rewrite tracker_isValid_setEnabled, IH. }
  case_decide; [|destruct (slots w !! y); [by rewrite Hall|done]].
  destruct (slots w !! y) as [sl|]; [|done]. simpl. by rewrite Hall.
Qed.

Lemma snapshot_of_setEnabled b x w sg :
  snapshot_of (set_slots (alter (Slot_setEnabled b) x) w) sg = snapshot_of w sg.
Proof.
  unfold snapshot_of. apply erase_if_ext. intros [y|]; [|done]. simpl.
  by rewrite Slot_isConnected_setEnabled.
Qed.

(** X1.  Nothing but [setEnabled] writes an enabled flag, and [setEnabled]
    writes nothing else.  After an emission whose callables add to user
    data, connect, disconnect, emit, destroy objects or throw, and after
    [Slot::disconnect], every slot has the flag it had, and the slots
    connected meanwhile are enabled.  After [setEnabled(b)] on a slot
    [isEnabled] answers [b] for it, the other slots are as they were, and
    the connected state of every slot and the container an emission
    prunes and copies are the same. *)
Theorem enabled_flag_kept (fuel : nat) (s : SigId) (args : Args) (w : World) :
  post (enabled_kept w) (emit fuel s args w)
  ∧ (∀ x, enabled_kept w (Slot_disconnect x w))
  ∧ ∀ b x,
      (Slot_isEnabled <$> slots (set_slots (alter (Slot_setEnabled b) x) w) !! x)
      = (λ _, b) <$> slots w !! x
      ∧ (∀ y, y ≠ x → slots (set_slots (alter (Slot_setEnabled b) x) w) !! y = slots w !! y)
      ∧ (∀ y, Slot_isConnected (set_slots (alter (Slot_setEnabled b) x) w) y
              = Slot_isConnected w y)
      ∧ ∀ sg, snapshot_of (set_slots (alter (Slot_setEnabled b) x) w) sg = snapshot_of w sg.
Proof.
  split; [apply emit_enabled_kept|].
  split; [intros x; apply enabled_kept_Slot_disconnect, enabled_kept_refl|].
  intros b x. split.
  - rewrite setEnabled_lookup, decide_True by done. by destruct (slots w !! x).
  - split; [|split].
    + intros y Hne. rewrite setEnabled_lookup, decide_False; [done|]. by intros <-.
    + intros y. apply Slot_isConnected_setEnabled.
    + intros sg. apply snapshot_of_setEnabled.
Qed.

(** * The loop of the emission, piece by piece *)





Lemma snapshot_is_Some w l : Forall is_Some (erase_if l (is_stale w)).
Proof.
  apply Forall_forall. intros p Hp. apply erase_if_elem in Hp as [_ Hp].
  destruct p; [done|discriminate Hp].
Qed.









(** * An exception thrown by a slot *)



(** * Connecting, then emitting *)


(** * The container after an emission *)
















(** * A signal connected to a signal *)




(** * The order of the teardown *)

Lemma overrides_app l1 l2 : overrides (l1 ++ l2) = overrides l1 ++ overrides l2.
Proof. unfold overrides. apply omap_app. Qed.

Lemma overrides_detach x trs : overrides (map (λ tr, EvDetach tr x) trs) = [].
Proof. induction trs as [|tr trs IH]; [done|]. simpl. exact IH. Qed.

Lemma overrides_disconnect_trace x trs : overrides (disconnect_trace x trs) = [x].
Proof.
  unfold disconnect_trace. rewrite !overrides_app, overrides_detach. done.
Qed.

Lemma lock_run_app h l1 l2 :
  lock_run h (l1 ++ l2)
  = match lock_run h l1 with Some h' => lock_run h' l2 | None => None end.
Proof.
  revert h. induction l1 as [|e l1 IH]; intros h; [done|]. simpl.
  destruct (lock_step h e); [apply IH|done].
Qed.

Lemma lock_run_detach h x trs : lock_run h (map (λ tr, EvDetach tr x) trs) = Some h.
Proof. induction trs as [|tr trs IH]; [done|]. simpl. exact IH. Qed.

Lemma lock_run_disconnect_trace h x trs :
  LSlot x ∉ h → lock_run h (disconnect_trace x trs) = Some h.
Proof.
  intros Hn. unfold disconnect_trace. cbn [app lock_run lock_step].
  rewrite decide_False by done. rewrite lock_run_app, lock_run_detach.
  cbn [lock_run lock_step]. rewrite decide_True by left.
  rewrite filter_cons_False by naive_solver. by rewrite filter_ne_id.
Qed.

Lemma owned_Slot_disconnect x w l : owned w l → owned (Slot_disconnect x w) l.
Proof.
  unfold owned. intros H. eapply Forall_impl; [exact H|].
  intros p (y & -> & Hy). exists y. split; [done|].
  rewrite Slot_disconnect_lookup. case_decide; [by apply fmap_is_Some|done].
Qed.

Lemma destroy_loop_order s : ∀ l fuel w sg,
  signals w !! s = Some sg → m_slots sg = l →
  (length l ≤ fuel)%nat → owned w l →
  ∃ w' evs,
    destroy_loop fuel s w = Ok tt w'
    ∧ log w' = log w ++ evs
    ∧ Some <$> overrides evs = reverse l
    ∧ ∀ h, (∀ x, LSlot x ∉ h) → lock_run h evs = Some h.
Proof.
  induction l as [|p l IH] using rev_ind; intros fuel w sg Hs Hl Hfuel Ho.
  - exists w, []. destruct fuel; simpl; rewrite Hs, Hl; simpl.
    all: split; [done|]; split; [by rewrite app_nil_r|done].
  - rewrite length_app in Hfuel. simpl in Hfuel.
    destruct fuel as [|fuel]; [lia|].
    apply Forall_app in Ho as [Ho Hp]. apply Forall_inv in Hp as (x & -> & [sl Hx]).
    simpl. rewrite Hs, Hl, last_snoc.
    set (w1 := set_signals _ w).
    assert (Hs1 : signals w1 !! s = Some (set_m_slots l sg)).
    { subst w1. simpl. rewrite lookup_alter_eq, Hs. simpl. rewrite Hl.
      unfold pop_back. by rewrite removelast_last. }
    assert (Hs2 : signals (Slot_disconnect x w1) !! s = Some (set_m_slots l sg))
      by (by rewrite Slot_disconnect_signals).
    destruct (IH fuel (Slot_disconnect x w1) _ Hs2 eq_refl ltac:(lia)
                (owned_Slot_disconnect x w1 l Ho))
      as (w' & evs & Hrun & Hlog & Hord & Hlock).
    exists w', (disconnect_trace x (m_trackers sl) ++ evs).
    split; [done|]. split.
    { rewrite Hlog, Slot_disconnect_log. subst w1. simpl. rewrite Hx.
      by rewrite <- app_assoc. }
    split.
    { rewrite overrides_app, overrides_disconnect_trace, reverse_snoc.
      cbn [app]. rewrite fmap_cons. by rewrite Hord. }
    intros h Hh. rewrite lock_run_app, lock_run_disconnect_trace by apply Hh.
    by apply Hlock.
Qed.

(** X14.  The destructor of a signal disconnects the slots of its container
    from the last one connected to the first, all of it under the lock
    of the signal, taking and releasing the lock of each slot in turn. *)
Theorem Signal_destroy_order (s : SigId) (w : World) (sg : Signal) :
  signals w !! s = Some sg →
  owned w (m_slots sg) →
  ∃ w' evs,
    Signal_destroy s w = Ok tt w'
    ∧ log w' = log w ++ [EvLock (LSignal s)] ++ evs ++ [EvUnlock (LSignal s)]
    ∧ Some <$> overrides evs = reverse (m_slots sg)
    ∧ balanced ([EvLock (LSignal s)] ++ evs ++ [EvUnlock (LSignal s)]).
Proof.
  intros Hs Ho. unfold Signal_destroy. rewrite Hs.
  destruct (destroy_loop_order s (m_slots sg) (length (m_slots sg))
              (record (EvLock (LSignal s)) w) sg Hs eq_refl (le_n _) Ho)
    as (w1 & evs & Hrun & Hlog & Hord & Hlock).
  rewrite Hrun. simpl. eexists _, evs. split; [done|]. simpl.
  split; [rewrite Hlog; simpl; by rewrite <- !app_assoc|]. split; [done|].
  unfold balanced. cbn [app lock_run lock_step].
  rewrite decide_False by apply not_elem_of_nil.
  rewrite lock_run_app, Hlock.
  - cbn [lock_run lock_step]. rewrite decide_True by left.
    by rewrite filter_cons_False by naive_solver.
  - intros x Hin. apply list_elem_of_singleton in Hin. discriminate Hin.
Qed.

(** * The locks *)

Lemma balanced_app l1 l2 : balanced l1 → balanced l2 → balanced (l1 ++ l2).
Proof. unfold balanced. intros H1 H2. by rewrite lock_run_app, H1. Qed.

Lemma locks_kept_refl w : locks_kept w w.
Proof. exists []. by rewrite app_nil_r. Qed.

Lemma locks_kept_same w w' : log w' = log w → locks_kept w w'.
Proof. intros H. exists []. by rewrite app_nil_r. Qed.

Lemma locks_kept_trans w1 w2 w3 : locks_kept w1 w2 → locks_kept w2 w3 → locks_kept w1 w3.
Proof.
  intros (e1 & H1 & B1) (e2 & H2 & B2). exists (e1 ++ e2).
  split; [by rewrite H2, H1, app_assoc|by apply balanced_app].
Qed.

Lemma locks_kept_step w w' evs :
  log w' = log w ++ evs → balanced evs → locks_kept w w'.
Proof. intros H1 H2. by exists evs. Qed.

Lemma post_locks_kept_trans {A} w1 w2 (r : Result A) :
  locks_kept w1 w2 → post (locks_kept w2) r → post (locks_kept w1) r.
Proof.
  intros H12. destruct r; simpl; try done; by apply locks_kept_trans.
Qed.

Lemma locks_kept_Slot_disconnect x w : locks_kept w (Slot_disconnect x w).
Proof.
  eapply locks_kept_step; [apply Slot_disconnect_log|].
  destruct (slots w !! x); [|done].
  apply lock_run_disconnect_trace, not_elem_of_nil.
Qed.

Lemma locks_kept_Connection_disconnect c w : locks_kept w (Connection_disconnect c w).
Proof.
  unfold Connection_disconnect. destruct (weak_lock _ _).
  - apply locks_kept_Slot_disconnect.
  - apply locks_kept_refl.
Qed.

Lemma Signal_disconnect_trace s c w :
  log (Signal_disconnect s c w)
  = log w ++ [EvLock (LSignal s)]
      ++ match weak_lock (m_slot c) w with
         | Some x => match slots w !! x with
                     | Some sl => disconnect_trace x (m_trackers sl)
                     | None => []
                     end
         | None => []
         end ++ [EvUnlock (LSignal s)].
Proof.
  unfold Signal_disconnect, Connection_disconnect. cbn [log record set_signals].
  change (weak_lock (m_slot c) (record (EvLock (LSignal s)) w))
    with (weak_lock (m_slot c) w).
  destruct (weak_lock (m_slot c) w) as [x|].
  - rewrite Slot_disconnect_log. cbn [log record slots]. by rewrite <- !app_assoc.
  - cbn [log record]. by rewrite <- !app_assoc.
Qed.

Lemma locks_kept_Signal_disconnect s c w : locks_kept w (Signal_disconnect s c w).
Proof.
  eapply locks_kept_step; [apply Signal_disconnect_trace|].
  unfold balanced. cbn [app lock_run lock_step].
  rewrite decide_False by apply not_elem_of_nil. rewrite lock_run_app.
  assert (Hmid : ∀ evs, (evs = [] ∨ ∃ x trs, evs = disconnect_trace x trs) →
            lock_run [LSignal s] evs = Some [LSignal s]).
  { intros evs [->|(x & trs & ->)]; [done|]. apply lock_run_disconnect_trace.
    intros Hin. apply list_elem_of_singleton in Hin. discriminate Hin. }
  rewrite Hmid.
  - cbn [lock_run lock_step]. rewrite decide_True by left.
    by rewrite filter_cons_False by naive_solver.
  - destruct (weak_lock _ _) as [x|]; [|by left].
    destruct (slots w !! x); [right; eauto|by left].
Qed.

Lemma locks_kept_connect_function s f w : post (locks_kept w) (connect_function s f w).
Proof.
  destruct (signals w !! s) as [sg|] eqn:Hs.
  - rewrite (connect_function_eq s f w sg Hs). cbn [post_gen].
    eapply locks_kept_step; [done|]. unfold balanced. cbn [lock_run lock_step].
    rewrite decide_False by apply not_elem_of_nil. rewrite decide_True by left.
    by rewrite filter_cons_False by naive_solver.
  - unfold connect_function, make_shared, addSlot. simpl. by rewrite Hs.
Qed.

Lemma locks_kept_record w e :
  lock_step [] e = Some [] → locks_kept w (record e w).
Proof.
  intros He. eapply locks_kept_step; [done|]. unfold balanced. simpl. by rewrite He.
Qed.

Lemma locks_kept_lock_unlock w l c :
  locks_kept w (record (EvUnlock l) (set_active c (record (EvLock l) w))).
Proof.
  eapply (locks_kept_step _ _ [EvLock l; EvUnlock l]).
  - cbn [log record set_active]. by rewrite <- app_assoc.
  - unfold balanced. cbn [lock_run lock_step].
    rewrite decide_False by apply not_elem_of_nil. rewrite decide_True by left.
    by rewrite filter_cons_False by naive_solver.
Qed.

Section locks.
Variable emit_rec : SigId → Args → World → Result nat.
Hypothesis Hrec : ∀ s a w, post (locks_kept w) (emit_rec s a w).

Lemma run_action_locks act args w :
  post (locks_kept w) (run_action emit_rec act args w).
Proof.
  destruct act as [i|s f|c| |s c|s a|o|e]; cbn [run_action].
  - by apply locks_kept_same.
  - pose proof (locks_kept_connect_function s f w) as H.
    by destruct (connect_function s f w).
  - apply locks_kept_Connection_disconnect.
  - apply locks_kept_Connection_disconnect.
  - destruct (signals w !! s); [|done]. apply locks_kept_Signal_disconnect.
  - pose proof (Hrec s a w) as H. destruct (emit_rec s a w) as [n w1|e w1| |]; try done.
    cbn [bind post_gen] in *. eapply locks_kept_trans; [exact H|].
    by apply locks_kept_record.
  - by apply locks_kept_same.
  - apply locks_kept_refl.
Qed.

Lemma run_actions_locks acts args : ∀ w,
  post (locks_kept w) (run_actions emit_rec acts args w).
Proof.
  induction acts as [|act acts IH]; intros w; [apply locks_kept_refl|].
  cbn [run_actions]. pose proof (run_action_locks act args w) as Ha.
  destruct (run_action emit_rec act args w) as [[] w1|e w1| |]; cbn [bind]; try done.
  eapply post_locks_kept_trans; [exact Ha|apply IH].
Qed.

Lemma activate_locks x args w : post (locks_kept w) (activate emit_rec x args w).
Proof.
  unfold activate, activateOverride. destruct (slots w !! x) as [sl|]; [|done].
  assert (Hi : locks_kept w (record (EvInvoke x args) w)) by (by apply locks_kept_record).
  destruct (m_kind sl) as [f|target f|receiver].
  - eapply post_locks_kept_trans; [exact Hi|apply run_actions_locks].
  - case_bool_decide; [|apply locks_kept_refl].
    eapply post_locks_kept_trans; [exact Hi|apply run_actions_locks].
  - pose proof (Hrec receiver args (record (EvInvoke x args) w)) as H.
    destruct (emit_rec receiver args _) as [n w1|e w1| |]; cbn [bind post_gen] in *;
      try done; by eapply locks_kept_trans.
Qed.

Lemma locks_kept_before_activation s x args w :
  locks_kept w (before_activation s x args w).
Proof.
  eapply (locks_kept_step _ _ [EvLock (LSlot x); EvUnlock (LSlot x); EvActivate s x args]).
  - unfold before_activation. cbn [log record set_active]. by rewrite <- !app_assoc.
  - unfold balanced. cbn [lock_run lock_step].
    rewrite decide_False by apply not_elem_of_nil. rewrite decide_True by left.
    by rewrite filter_cons_False by naive_solver.
Qed.

Lemma emit_loop_locks s args : ∀ snapshot count w,
  post (locks_kept w) (emit_loop emit_rec s args snapshot count w).
Proof.
  induction snapshot as [|[x|] rest IH]; intros count w; [apply locks_kept_refl| |done].
  cbn [emit_loop].
  destruct (negb (Slot_isConnected (record (EvLock (LSlot x)) w) x)).
  { eapply post_locks_kept_trans; [|apply IH].
    apply (locks_kept_lock_unlock w (LSlot x) (activeConnection w)). }
  pose proof (locks_kept_before_activation s x args w) as H3.
  unfold before_activation in H3.
  match goal with |- context [activate emit_rec x args ?w3] =>
    pose proof (activate_locks x args w3) as Ha;
    destruct (activate emit_rec x args w3) as [[] w4|e w4| |]; cbn [post_gen] in Ha;
      try done
  end.
  - eapply post_locks_kept_trans; [|apply IH].
    eapply locks_kept_trans; [exact H3|]. eapply locks_kept_trans; [exact Ha|].
    apply locks_kept_lock_unlock.
  - assert (H6 : locks_kept w
             (record (EvUnlock (LSlot x))
                (set_active (activeConnection (record (EvLock (LSlot x)) w))
                   (record (EvLock (LSlot x)) w4)))).
    { eapply locks_kept_trans; [exact H3|]. eapply locks_kept_trans; [exact Ha|].
      apply locks_kept_lock_unlock. }
    destruct e; try exact H6.
    all: eapply post_locks_kept_trans; [|apply IH].
    all: eapply locks_kept_trans; [exact H6|].
    all: eapply locks_kept_trans; [apply locks_kept_Signal_disconnect|].
    all: match goal with |- locks_kept ?w6 _ =>
           apply (locks_kept_lock_unlock w6 (LSlot x) (activeConnection w6)) end.
Qed.
End locks.

Lemma locks_kept_loop_start s w : locks_kept w (loop_start s w).
Proof.
  eapply (locks_kept_step _ _ [EvLock (LSignal s); EvUnlock (LSignal s)]).
  - apply loop_start_log.
  - unfold balanced. cbn [lock_run lock_step].
    rewrite decide_False by apply not_elem_of_nil. rewrite decide_True by left.
    by rewrite filter_cons_False by naive_solver.
Qed.

Lemma emit_locks : ∀ fuel s args w, post (locks_kept w) (emit fuel s args w).
Proof.
  induction fuel as [|fuel IH]; intros s args w; [done|]. simpl.
  destruct (signals w !! s) as [sg|] eqn:Hs; [|unfold emit_body; by rewrite Hs].
  destruct (m_blocked sg || m_emitGuard sg) eqn:Hfree.
  { rewrite (emit_body_closed _ _ _ _ _ Hs Hfree). apply locks_kept_refl. }
  rewrite (emit_body_unfold _ _ _ _ _ Hs Hfree).
  pose proof (emit_loop_locks (emit fuel) IH s args (snapshot_of w sg) 0%nat
                (loop_start s w)) as Hl.
  pose proof (locks_kept_loop_start s w) as H1.
  destruct (emit_loop (emit fuel) s args (snapshot_of w sg) 0%nat (loop_start s w))
    as [n w5|e w5| |]; cbn [loop_end post_gen] in *; try done.
  all: apply (locks_kept_trans _ _ _ H1), (locks_kept_trans _ _ _ Hl).
  all: by apply locks_kept_same.
Qed.

(** X4.  The locks are taken and released in a disciplined way by every
    emission, whatever the slots do: no lock is taken while it is held,
    none is released that is not held, no lock is held when control
    passes to a slot or comes back from a nested emission, and when the
    emission returns or throws every lock it took has been released.
    The same holds of [Slot::disconnect] and of [disconnect] on a
    signal. *)
Theorem lock_discipline (fuel : nat) (s : SigId) (args : Args) (w : World) :
  post (λ w', ∃ evs, log w' = log w ++ evs ∧ lock_run [] evs = Some [])
       (emit fuel s args w)
  ∧ (∀ x, ∃ evs, log (Slot_disconnect x w) = log w ++ evs ∧ lock_run [] evs = Some [])
  ∧ (∀ c, ∃ evs, log (Signal_disconnect s c w) = log w ++ evs
                 ∧ lock_run [] evs = Some []).
Proof.
  split; [apply emit_locks|]. split.
  - intros x. apply locks_kept_Slot_disconnect.
  - intros c. apply locks_kept_Signal_disconnect.
Qed.

(** * More on the helpers and on Trackable *)

(** X22.  [erase_if] keeps exactly the elements the predicate rejects, in
    their order; applying it again changes nothing; and [erase] is
    [erase_if] with the test for equality. *)
Theorem erase_if_spec {A} `{EqDecision A} (l : list A) (p : A → bool) :
  erase_if l p = filter (λ a, p a = false) l
  ∧ sublist (erase_if l p) l
  ∧ erase_if (erase_if l p) p = erase_if l p
  ∧ (length (erase_if l p) + length (filter (λ a, p a = true) l) = length l)%nat
  ∧ ∀ a, erase l a = erase_if l (λ b, bool_decide (b = a)).
Proof.
  assert (Hf : ∀ l' : list A, erase_if l' p = filter (λ a, p a = false) l').
  { induction l' as [|a l' IH]; [done|]. simpl. destruct (p a) eqn:E.
    - rewrite filter_cons_False; [done|]. by rewrite E.
    - by rewrite filter_cons_True, IH. }
  split; [apply Hf|]. split; [rewrite Hf; apply sublist_filter|]. split.
  { rewrite !Hf. induction l as [|a l IH]; [done|]. destruct (p a) eqn:E.
    - rewrite filter_cons_False; [done|]. by rewrite E.
    - rewrite !filter_cons_True by done. by rewrite IH. }
  split.
  { rewrite Hf. induction l as [|a l IH]; [done|]. destruct (p a) eqn:E.
    - rewrite filter_cons_False by (by rewrite E). rewrite filter_cons_True by done.
      simpl. lia.
    - rewrite filter_cons_True by done. rewrite filter_cons_False by (by rewrite E).
      simpl. lia. }
  intros a. induction l as [|b l IH]; [done|]. simpl.
  destruct (decide (b = a)) as [->|Hne].
  - by rewrite bool_decide_eq_true_2.
  - rewrite bool_decide_eq_false_2 by done. by rewrite IH.
Qed.

(** X19.  [disconnectSlots()] called ahead of the destruction leaves nothing
    to do: a second call returns at once with the store as it is, and
    the destructor then only takes the object away. *)
Theorem disconnectSlots_twice (t : TrackableId) (w : World) (tk : Trackable) :
  trackables w !! t = Some tk →
  Forall is_Some (tk_slots tk) →
  ∃ w1,
    Trackable_disconnectSlots t w = Ok tt w1
    ∧ Trackable_disconnectSlots t w1 = Ok tt w1
    ∧ Trackable_destroy t w1 = Ok tt (set_trackables (delete t) w1).
Proof.
  intros Ht Hsome.
  destruct (disconnectSlots_loop_spec t (length (tk_slots tk)) w tk Ht (le_n _) Hsome)
    as (w1 & Hrun & (tk1 & Ht1 & Hempty) & _).
  exists w1.
  assert (H1 : Trackable_disconnectSlots t w = Ok tt w1)
    by (unfold Trackable_disconnectSlots; by rewrite Ht).
  assert (H2 : Trackable_disconnectSlots t w1 = Ok tt w1).
  { unfold Trackable_disconnectSlots. rewrite Ht1, Hempty. simpl. by rewrite Ht1, Hempty. }
  split; [done|]. split; [done|]. unfold Trackable_destroy. by rewrite H2.
Qed.

(** * A slot that disconnects itself *)



(** * A retain that fails *)

(** X23.  [Slot::isValid] releases the trackers before the one whose
    [retain] failed, not that one.  A [Trackable] has counted the failed
    [retain] all the same: when the slot's only tracker is a trackable
    whose count is negative or the largest [int], [isValid] answers false
    and leaves the count one step further, where it was not before. *)
Theorem Slot_isValid_failed_retain (x : SlotId) (t : TrackableId) (w : World)
    (sl : Slot) (tk : Trackable) :
  slots w !! x = Some sl →
  m_trackers sl = [TrackableTracker t] →
  trackables w !! t = Some tk →
  int_range (m_refCount tk) →
  ¬ (0 ≤ m_refCount tk < 2 ^ 31 - 1) →
  (Slot_isValid x w).1 = false
  ∧ trackables (Slot_isValid x w).2
    = <[t := set_refCount (wrap_int (m_refCount tk + 1)) tk]> (trackables w)
  ∧ wrap_int (m_refCount tk + 1) ≠ m_refCount tk
  ∧ log (Slot_isValid x w).2 = log w ++ [EvRetain (TrackableTracker t) false].
Proof.
  intros Hx Htr Ht Hr Hout.
  pose proof (Trackable_retain_fails tk Hr Hout) as Hfail.
  unfold Slot_isValid. rewrite Hx, Htr. unfold find_if, retain_fails, tracker_retain.
  rewrite Ht. destruct (Trackable_retain tk) as [ok tk'] eqn:Eret.
  cbn [fst] in Hfail. subst ok. cbn [negb]. cbn [take for_each fold_left fst snd].
  split; [done|].
  assert (Htk' : tk' = set_refCount (wrap_int (m_refCount tk + 1)) tk).
  { unfold Trackable_retain in Eret. by injection Eret as _ <-. }
  split; [by rewrite Htk'|]. split; [|done].
  unfold int_range in Hr.
  destruct (decide (m_refCount tk = 2 ^ 31 - 1)) as [->|Hne].
  - by vm_compute.
  - rewrite wrap_int_id by lia. lia.
Qed.

(** C7, as stated, fails: the tracker whose [retain] fails is not
    released.  The check of the slot of [released_world] retains and
    releases the first trackable, fails on the second, whose count is -1,
    and leaves that count at 0. *)
Lemma Slot_isValid_keeps_failed_retain :
  (Slot_isValid 0%nat released_world).1 = false
  ∧ log (Slot_isValid 0%nat released_world).2
    = [EvRetain (TrackableTracker 0%nat) true; EvRetain (TrackableTracker 1%nat) false;
       EvRelease (TrackableTracker 0%nat)]
  ∧ (m_refCount <$> trackables released_world !! 0%nat) = Some 0
  ∧ (m_refCount <$> trackables (Slot_isValid 0%nat released_world).2 !! 0%nat) = Some 0
  ∧ (m_refCount <$> trackables released_world !! 1%nat) = Some (-1)
  ∧ (m_refCount <$> trackables (Slot_isValid 0%nat released_world).2 !! 1%nat) = Some 0.
Proof. vm_compute. repeat split; reflexivity. Qed.

(** * Faults *)

Section faults.
Variable emit_rec : SigId → Args → World → Result nat.
Hypothesis Hrec : ∀ s a w, only_dangling (emit_rec s a w).

Lemma run_action_faults act args w : only_dangling (run_action emit_rec act args w).
Proof.
  destruct act as [i|s f|c| |s c|s a|o|e]; cbn [run_action]; try done.
  - unfold connect_function, make_shared, addSlot. simpl. by destruct (signals w !! s).
  - by destruct (signals w !! s).
  - pose proof (Hrec s a w) as H. by destruct (emit_rec s a w).
Qed.

Lemma run_actions_faults acts args : ∀ w, only_dangling (run_actions emit_rec acts args w).
Proof.
  induction acts as [|act acts IH]; intros w; [done|]. cbn [run_actions].
  pose proof (run_action_faults act args w) as Ha.
  destruct (run_action emit_rec act args w) as [[] w1|e w1|f|]; cbn [bind];
    [apply IH|done..].
Qed.

Lemma activate_faults x args w : only_dangling (activate emit_rec x args w).
Proof.
  unfold activate, activateOverride. destruct (slots w !! x) as [sl|]; [|done].
  destruct (m_kind sl) as [f|target f|receiver].
  - apply run_actions_faults.
  - case_bool_decide; [apply run_actions_faults|done].
  - pose proof (Hrec receiver args (record (EvInvoke x args) w)) as H.
    by destruct (emit_rec receiver args _).
Qed.

Lemma emit_loop_faults s args : ∀ snapshot count w,
  Forall is_Some snapshot → only_dangling (emit_loop emit_rec s args snapshot count w).
Proof.
  induction snapshot as [|p rest IH]; intros count w Hsome; [done|].
  apply Forall_cons in Hsome as [[x ->] Hsome]. cbn [emit_loop].
  destruct (negb (Slot_isConnected (record (EvLock (LSlot x)) w) x)); [by apply IH|].
  match goal with |- context [activate emit_rec x args ?w3] =>
    pose proof (activate_faults x args w3) as Ha;
    destruct (activate emit_rec x args w3) as [[] w4|e w4|f|]
  end.
  - by apply IH.
  - destruct e; [by apply IH|by apply IH|done].
  - exact Ha.
  - done.
Qed.
End faults.

Lemma emit_faults : ∀ fuel s args w, only_dangling (emit fuel s args w).
Proof.
  induction fuel as [|fuel IH]; intros s args w; [done|]. simpl.
  destruct (signals w !! s) as [sg|] eqn:Hs; [|unfold emit_body; by rewrite Hs].
  destruct (m_blocked sg || m_emitGuard sg) eqn:Hfree.
  { by rewrite (emit_body_closed _ _ _ _ _ Hs Hfree). }
  rewrite (emit_body_unfold _ _ _ _ _ Hs Hfree).
  pose proof (emit_loop_faults (emit fuel) IH s args (snapshot_of w sg) 0%nat
                (loop_start s w) (snapshot_is_Some w (m_slots sg))) as Hl.
  by destruct (emit_loop (emit fuel) s args (snapshot_of w sg) 0%nat (loop_start s w)).
Qed.

(** X24.  An emission never dereferences a null pointer and never fails
    an assertion, whatever the container holds and whatever the slots
    do: the null entries of the container are pruned before the loop
    runs over it.  The only fault an emission, or a callable, can end in
    is the use of a signal or slot that is gone. *)
Theorem emission_faults (fuel : nat) (s : SigId) (args : Args) (w : World) :
  only_dangling (emit fuel s args w)
  ∧ (∀ f, run_actions (emit fuel) f args w ≠ Fault NullDeref
          ∧ run_actions (emit fuel) f args w ≠ Fault AssertFailed)
  ∧ ∀ sg, Forall is_Some (snapshot_of w sg).
Proof.
  split; [apply emit_faults|]. split.
  - intros f. pose proof (run_actions_faults (emit fuel) (emit_faults fuel) f args w) as H.
    split; intros E; by rewrite E in H.
  - intros sg. apply snapshot_is_Some.
Qed.

(** * What an emission leaves of the tracked lifetimes *)

Lemma lifetimes_kept_refl w : lifetimes_kept w w.
Proof. split; [done|]. intros t. by destruct (trackables w !! t). Qed.

Lemma lifetimes_kept_same w w1 w2 :
  alive w2 = alive w1 → trackables w2 = trackables w1 →
  lifetimes_kept w w1 → lifetimes_kept w w2.
Proof. intros Ha Ht [H1 H2]. split; [by rewrite Ha|]. intros t. rewrite Ht. apply H2. Qed.

Lemma lifetimes_kept_atomic w w1 w2 :
  atomic w1 w2 → lifetimes_kept w w1 → lifetimes_kept w w2.
Proof.
  intros Hat Hk. destruct Hat as [l ?|l ?|x a ?|c ?|f ?|o ?|s g ?|x ?|k ?];
    try (by apply (lifetimes_kept_same w w0)).
  - destruct Hk as [H1 H2]. split; [|exact H2]. simpl.
    intros y Hy. apply elem_of_difference in Hy as [Hy _]. by apply H1.
  - destruct Hk as [H1 H2]. split; [by rewrite Slot_disconnect_alive|].
    intros t. specialize (H2 t).
    destruct (Slot_disconnect_trackables_lookup x w0 t) as (n & ->).
    destruct (trackables w !! t) as [tk|], (trackables w0 !! t) as [tk0|]; simpl; try done.
    etrans; [apply iter_erase_first_sublist|done].
Qed.

(** X25.  An emission never creates or removes a trackable and never
    attaches a slot to one: whatever its callables connect, disconnect,
    emit or destroy, afterwards every trackable is still there, no
    trackable has appeared, the slot lists of the trackables have at
    most lost entries ([Slot::disconnect] only detaches), and no object
    has come to life. *)
Theorem emission_keeps_lifetimes (fuel : nat) (s : SigId) (args : Args) (w : World) :
  post (lifetimes_kept w) (emit fuel s args w).
Proof.
  apply (emit_rule (lifetimes_kept w)).
  - intros w1 w2. apply lifetimes_kept_atomic.
  - intros s' x a w1 _. by apply lifetimes_kept_same.
  - intros s' a n w1. by apply lifetimes_kept_same.
  - intros s' b w1. by apply lifetimes_kept_same.
  - apply lifetimes_kept_refl.
Qed.

(** * The further properties on concrete stores *)


Ltac owned_entries :=
  repeat constructor; eexists; (split; [reflexivity|]); eexists; vm_compute; reflexivity.

Lemma erase_first_spec_witness :
  (2%nat ∉ [1%nat; 3%nat])
  ∧ erase_first [1%nat; 3%nat] 2%nat = [1%nat; 3%nat]
  ∧ erase_first [1%nat; 2%nat; 3%nat; 2%nat] 2%nat = [1%nat; 3%nat; 2%nat].
Proof.
  assert (Hn : 2%nat ∉ [1%nat; 3%nat]).
  { rewrite !not_elem_of_cons. repeat split; try discriminate. apply not_elem_of_nil. }
  split; [exact Hn|]. split.
  - exact (proj1 (erase_first_spec [1%nat; 3%nat] 2%nat) Hn).
  - apply (proj1 (proj2 (erase_first_spec [1%nat; 2%nat; 3%nat; 2%nat] 2%nat))
             [1%nat] [3%nat; 2%nat] eq_refl).
    intros H. apply list_elem_of_singleton in H. discriminate H.
Defined.

Lemma Trackable_retain_release_witness :
  int_range (2 ^ 31 - 1)
  ∧ (Trackable_release (Trackable_retain (mkTrackable [] (2 ^ 31 - 1))).2).2
    = mkTrackable [] (2 ^ 31 - 1).
Proof.
  assert (Hr : int_range (2 ^ 31 - 1)) by (unfold int_range; lia).
  split; [exact Hr|].
  exact (proj1 (Trackable_retain_release (mkTrackable [] (2 ^ 31 - 1)) Hr)).
Defined.

Lemma Trackable_count_edges_witness :
  int_range (2 ^ 31 - 1)
  ∧ ¬ (Trackable_retain (mkTrackable [] (2 ^ 31 - 1))).1 = true.
Proof.
  assert (Hr : int_range (2 ^ 31 - 1)) by (unfold int_range; lia).
  split; [exact Hr|].
  intros H.
  apply (proj1 (proj1 (Trackable_count_edges (mkTrackable [] (2 ^ 31 - 1)) Hr))) in H.
  simpl in H. lia.
Defined.

Lemma Trackable_attach_detach_witness :
  (Some 2%nat ∉ [Some 1%nat])
  ∧ Trackable_detach (Some 2%nat) (Trackable_attach (Some 2%nat) (mkTrackable [Some 1%nat] 0))
    = mkTrackable [Some 1%nat] 0.
Proof.
  assert (Hn : Some 2%nat ∉ [Some 1%nat]).
  { intros H. apply list_elem_of_singleton in H. discriminate H. }
  split; [exact Hn|].
  pose proof (Trackable_attach_detach (Some 2%nat) (mkTrackable [Some 1%nat] 0)) as H.
  cbv zeta in H. destruct H as (_ & _ & H & _). exact (H Hn).
Defined.

Lemma intrusive_ptr_pairing_witness :
  trackables tracked_world !! 0%nat = Some (mkTrackable [Some 0%nat] 0)
  ∧ Forall is_Some [Some 0%nat]
  ∧ ∃ w1 w2, intrusive_ptr_add_ref 0%nat tracked_world = Ok tt w1
             ∧ intrusive_ptr_release 0%nat w1 = Ok tt w2
             ∧ trackables w2 !! 0%nat = None
             ∧ Slot_isConnected w2 0%nat = false.
Proof.
  assert (Ht : trackables tracked_world !! 0%nat = Some (mkTrackable [Some 0%nat] 0))
    by (vm_compute; reflexivity).
  assert (Hsome : Forall is_Some [Some 0%nat]) by (repeat constructor; by eexists).
  split; [exact Ht|]. split; [exact Hsome|].
  destruct (intrusive_ptr_pairing 0%nat tracked_world _ Ht ltac:(simpl; lia) Hsome)
    as (w1 & Hadd & _ & Hrel).
  rewrite decide_True in Hrel by reflexivity.
  destruct Hrel as (w2 & Hrel & Hgone & Hdis & _).
  exists w1, w2. split; [exact Hadd|]. split; [exact Hrel|]. split; [exact Hgone|].
  apply Hdis. left.
Defined.

Lemma connect_function_appends_witness :
  signals sum_world !! 0%nat = Some (mkSignal [Some 0%nat; Some 1%nat] false false)
  ∧ ∃ w', connect_function 0%nat [AAdd 0%nat] sum_world = Ok (mkConnection (Some 2%nat)) w'
          ∧ (m_slots <$> signals w' !! 0%nat) = Some [Some 0%nat; Some 1%nat; Some 2%nat]
          ∧ Connection_bool w' (mkConnection (Some 2%nat)) = true.
Proof.
  assert (Hs : signals sum_world !! 0%nat
               = Some (mkSignal [Some 0%nat; Some 1%nat] false false))
    by (vm_compute; reflexivity).
  split; [exact Hs|].
  destruct (proj1 (connect_function_appends 0%nat [AAdd 0%nat] sum_world _ Hs))
    as (x & w' & Hrun & _ & _ & Hsig & _ & Hlive & _).
  assert (Hx : x = 2%nat).
  { assert (Hc : connect_function 0%nat [AAdd 0%nat] sum_world
                 = Ok (mkConnection (Some 2%nat))
                      (match connect_function 0%nat [AAdd 0%nat] sum_world with
                       | Ok _ w0 => w0 | _ => sum_world end))
      by (vm_compute; reflexivity).
    rewrite Hrun in Hc. by injection Hc. }
  subst x. exists w'. split; [exact Hrun|]. split; [|exact Hlive].
  rewrite Hsig, lookup_insert_eq. reflexivity.
Defined.

Lemma connect_method_appends_witness :
  signals sum_world !! 0%nat = Some (mkSignal [Some 0%nat; Some 1%nat] false false)
  ∧ ∃ x w', connect_method 0%nat 7%nat [AAdd 0%nat] sum_world = Ok (mkConnection (Some x)) w'
            ∧ Connection_bool w' (mkConnection (Some x)) = false.
Proof.
  assert (Hs : signals sum_world !! 0%nat
               = Some (mkSignal [Some 0%nat; Some 1%nat] false false))
    by (vm_compute; reflexivity).
  split; [exact Hs|].
  destruct (connect_method_appends 0%nat 7%nat [AAdd 0%nat] sum_world _ Hs)
    as (x & w' & Hrun & _ & _ & _ & Hlive & _).
  exists x, w'. split; [exact Hrun|]. rewrite Hlive. reflexivity.
Defined.

Lemma connect_disconnect_round_trip_witness :
  signals sum_world !! 0%nat = Some (mkSignal [Some 0%nat; Some 1%nat] false false)
  ∧ owned sum_world [Some 0%nat; Some 1%nat]
  ∧ ∃ x w1, connect_function 0%nat [AAdd 0%nat] sum_world = Ok (mkConnection (Some x)) w1
            ∧ signals (Signal_disconnect 0%nat (mkConnection (Some x)) w1)
              = signals sum_world.
Proof.
  assert (Hs : signals sum_world !! 0%nat
               = Some (mkSignal [Some 0%nat; Some 1%nat] false false))
    by (vm_compute; reflexivity).
  assert (Ho : owned sum_world [Some 0%nat; Some 1%nat]) by owned_entries.
  split; [exact Hs|]. split; [exact Ho|].
  destruct (connect_disconnect_round_trip 0%nat [AAdd 0%nat] sum_world _ Hs Ho)
    as (x & w1 & Hrun & Hsig & _).
  exists x, w1. split; [exact Hrun|exact Hsig].
Defined.

Lemma emission_releases_guards_witness :
  signals sum_world !! 0%nat = Some (mkSignal [Some 0%nat; Some 1%nat] false false)
  ∧ ∃ w' sg', emit 1 0%nat [3; 4] sum_world = Ok 2%nat w'
              ∧ signals w' !! 0%nat = Some sg'
              ∧ m_emitGuard sg' = false.
Proof.
  assert (Hs : signals sum_world !! 0%nat
               = Some (mkSignal [Some 0%nat; Some 1%nat] false false))
    by (vm_compute; reflexivity).
  split; [exact Hs|].
  pose proof (emission_releases_guards 1 0%nat [3; 4] sum_world) as Hg.
  destruct (emit 1 0%nat [3; 4] sum_world) as [n w'|e w'| |] eqn:Hrun;
    try (vm_compute in Hrun; discriminate Hrun).
  assert (Hn : n = 2%nat) by (vm_compute in Hrun; by injection Hrun).
  subst n. cbn [post_gen] in Hg.
  destruct (Hg 0%nat _ Hs) as (sg' & Hs' & _ & Hguard).
  exists w', sg'. split; [reflexivity|]. split; [exact Hs'|exact Hguard].
Defined.

Lemma emit_count_bound_witness :
  signals sum_world !! 0%nat = Some (mkSignal [Some 0%nat; Some 1%nat] false false)
  ∧ ∃ w', emit 1 0%nat [3; 4] sum_world = Ok 2%nat w'
          ∧ ∃ evs, log w' = log sum_world ++ evs
                   ∧ (2 ≤ length (activations 0%nat evs))%nat.
Proof.
  assert (Hs : signals sum_world !! 0%nat
               = Some (mkSignal [Some 0%nat; Some 1%nat] false false))
    by (vm_compute; reflexivity).
  split; [exact Hs|].
  eexists. split; [vm_compute; reflexivity|].
  match goal with |- ∃ evs, log ?w' = _ ∧ _ =>
    destruct (emit_count_bound 1 0%nat [3; 4] sum_world w' _ 2%nat Hs
                ltac:(vm_compute; reflexivity))
      as (evs & Hlog & Hn & _)
  end.
  exists evs. split; [exact Hlog|exact Hn].
Defined.






Lemma Signal_destroy_order_witness :
  signals sum_world !! 0%nat = Some (mkSignal [Some 0%nat; Some 1%nat] false false)
  ∧ owned sum_world [Some 0%nat; Some 1%nat]
  ∧ ∃ w' evs, Signal_destroy 0%nat sum_world = Ok tt w'
              ∧ overrides evs = [1%nat; 0%nat].
Proof.
  assert (Hs : signals sum_world !! 0%nat
               = Some (mkSignal [Some 0%nat; Some 1%nat] false false))
    by (vm_compute; reflexivity).
  assert (Ho : owned sum_world [Some 0%nat; Some 1%nat]) by owned_entries.
  split; [exact Hs|]. split; [exact Ho|].
  destruct (Signal_destroy_order 0%nat sum_world _ Hs Ho) as (w' & evs & Hrun & _ & Hord & _).
  exists w', evs. split; [exact Hrun|].
  change (reverse (m_slots (mkSignal [Some 0%nat; Some 1%nat] false false)))
    with (Some <$> [1%nat; 0%nat]) in Hord.
  by apply (inj (fmap Some)) in Hord.
Defined.

Lemma disconnectSlots_twice_witness :
  trackables tracked_world !! 0%nat = Some (mkTrackable [Some 0%nat] 0)
  ∧ Forall is_Some [Some 0%nat]
  ∧ ∃ w1, Trackable_disconnectSlots 0%nat tracked_world = Ok tt w1
          ∧ Trackable_disconnectSlots 0%nat w1 = Ok tt w1.
Proof.
  assert (Ht : trackables tracked_world !! 0%nat = Some (mkTrackable [Some 0%nat] 0))
    by (vm_compute; reflexivity).
  assert (Hsome : Forall is_Some [Some 0%nat]) by (repeat constructor; by eexists).
  split; [exact Ht|]. split; [exact Hsome|].
  destruct (disconnectSlots_twice 0%nat tracked_world _ Ht Hsome) as (w1 & H1 & H2 & _).
  exists w1. split; [exact H1|exact H2].
Defined.


Lemma Slot_isValid_failed_retain_witness :
  slots saturated_world !! 0%nat
  = Some (mkSlot (FunctionSlot []) [TrackableTracker 0%nat] true true)
  ∧ trackables saturated_world !! 0%nat = Some (mkTrackable [Some 0%nat] (2 ^ 31 - 1))
  ∧ int_range (2 ^ 31 - 1)
  ∧ (Slot_isValid 0%nat saturated_world).1 = false
  ∧ (m_refCount <$> trackables (Slot_isValid 0%nat saturated_world).2 !! 0%nat)
    = Some (- 2 ^ 31).
Proof.
  assert (Hx : slots saturated_world !! 0%nat
               = Some (mkSlot (FunctionSlot []) [TrackableTracker 0%nat] true true))
    by (vm_compute; reflexivity).
  assert (Ht : trackables saturated_world !! 0%nat
               = Some (mkTrackable [Some 0%nat] (2 ^ 31 - 1)))
    by (vm_compute; reflexivity).
  assert (Hr : int_range (2 ^ 31 - 1)) by (unfold int_range; lia).
  split; [exact Hx|]. split; [exact Ht|]. split; [exact Hr|].
  destruct (Slot_isValid_failed_retain 0%nat 0%nat saturated_world _ _ Hx eq_refl Ht Hr
              ltac:(simpl; lia))
    as (Hfalse & Htr & _).
  split; [exact Hfalse|]. rewrite Htr, lookup_insert_eq. reflexivity.
Defined.
